(** * TriMind-AI: the conversation-window manager [truncate_messages]

    A shallow embedding of [src/utils.py] (function [truncate_messages]) and
    the properties of its stages: grouping of the history into tool-call
    sequences, backward selection under the two budgets, and the two
    validation passes that follow. The function is given twice: as a function
    on lists, and over a store of list objects, where its allocations and
    in-place updates are explicit. The filter that the caller [researcher]
    ([src/researcher.py]) applies to the result is embedded as well, and so
    are the bodies of the tools [search_web] and
    [extract_content_from_webpage] of that file. *)

From Stdlib Require Import ZArith Lia Ascii.
From stdpp Require Import gmap strings list fin_maps.

Set Warnings "-clear-no-such-hyp".

(** ** Messages

    Only the fields the function reads are kept: [content], [tool_calls] of an
    assistant message and [tool_call_id] of a tool message. *)

(** [msg.content] is either a [str] or a [list]; for a list the function
    measures [str(msg.content)], which is carried here as [rendered]. *)
Inductive Content :=
| ContentStr (s : string)
| ContentList (rendered : string).

(** An element of [tool_calls]. The function reads its id in two ways:
    [tool_call.id] when [hasattr(tool_call, 'id')], and
    [tool_call.get('id')] when it is a [dict]. An element of any other shape
    behaves as [ToolCallDict None] on every path. *)
Inductive ToolCall :=
| ToolCallObj (id : option string)
| ToolCallDict (id : option string).

Inductive BaseMessage :=
| SystemMessage (content : Content)
| HumanMessage (content : Content)
| AIMessage (content : Content) (tool_calls : list ToolCall)
| ToolMessage (content : Content) (tool_call_id : string)
| ChatMessage (content : Content).

#[global] Instance Content_eq_dec : EqDecision Content.
Proof. solve_decision. Defined.
#[global] Instance ToolCall_eq_dec : EqDecision ToolCall.
Proof. solve_decision. Defined.
#[global] Instance BaseMessage_eq_dec : EqDecision BaseMessage.
Proof. solve_decision. Defined.

Definition content_text (c : Content) : string :=
  match c with
  | ContentStr s => s
  | ContentList rendered => rendered
  end.

Definition message_content (msg : BaseMessage) : Content :=
  match msg with
  | SystemMessage c | HumanMessage c | AIMessage c _
  | ToolMessage c _ | ChatMessage c => c
  end.

(** Python truthiness of a [str]. *)
Definition truthy (s : string) : bool := negb (String.eqb s EmptyString).

Definition chars_per_token : Z := 4.

Definition get_message_tokens (msg : BaseMessage) : Z :=
  let content := content_text (message_content msg) in
  if truthy content
  then (Z.of_nat (String.length content) / chars_per_token)%Z
  else 0%Z.

Definition is_system (msg : BaseMessage) : bool :=
  match msg with SystemMessage _ => true | _ => false end.

Definition is_tool (msg : BaseMessage) : bool :=
  match msg with ToolMessage _ _ => true | _ => false end.

(** [isinstance(msg, AIMessage) and hasattr(msg, 'tool_calls') and msg.tool_calls] *)
Definition has_tool_calls (msg : BaseMessage) : bool :=
  match msg with AIMessage _ (_ :: _) => true | _ => false end.

(** ** Stage 1: grouping (lines 58-116) *)

(** Lines 78-80: only ids reachable as an attribute are made pending. *)
Definition add_pending (pending : gset string) (tool_call : ToolCall) : gset string :=
  match tool_call with
  | ToolCallObj (Some id) => if truthy id then pending ∪ {[id]} else pending
  | _ => pending
  end.

Record GroupState := mkGroupState {
  sequences : list (list BaseMessage * bool);
  current_sequence : list BaseMessage;
  pending_tool_call_ids : gset string
}.

Definition is_empty_list {A} (l : list A) : bool :=
  match l with [] => true | _ => false end.

(** [if current_sequence: sequences.append((current_sequence, is_complete))] *)
Definition close_sequence (st : GroupState) : list (list BaseMessage * bool) :=
  if is_empty_list (current_sequence st) then sequences st
  else sequences st ++
       [(current_sequence st, bool_decide (pending_tool_call_ids st = ∅))].

(** The same, followed by the reset of the two variables, which the
    source performs only inside the [if]. *)
Definition close_and_reset (st : GroupState) : GroupState :=
  if is_empty_list (current_sequence st) then st
  else mkGroupState (close_sequence st) [] ∅.

Definition group_step (st : GroupState) (message : BaseMessage) : GroupState :=
  match message with
  | AIMessage _ tool_calls =>
      let st1 := close_and_reset st in
      match tool_calls with
      | _ :: _ =>
          mkGroupState (sequences st1)
                       (current_sequence st1 ++ [message])
                       (foldl add_pending (pending_tool_call_ids st1) tool_calls)
      | [] =>
          mkGroupState (sequences st1 ++ [([message], true)])
                       (current_sequence st1)
                       (pending_tool_call_ids st1)
      end
  | ToolMessage _ tool_call_id =>
      if truthy tool_call_id
         && bool_decide (tool_call_id ∈ pending_tool_call_ids st)
      then mkGroupState (sequences st)
                        (current_sequence st ++ [message])
                        (pending_tool_call_ids st ∖ {[tool_call_id]})
      else mkGroupState (close_sequence st ++ [([message], true)]) [] ∅
  | _ =>
      let st1 := close_and_reset st in
      mkGroupState (sequences st1 ++ [([message], true)])
                   (current_sequence st1)
                   (pending_tool_call_ids st1)
  end.

Definition group_from (st : GroupState) (filtered_messages : list BaseMessage)
  : list (list BaseMessage * bool) :=
  close_sequence (foldl group_step st filtered_messages).

Definition group_messages (filtered_messages : list BaseMessage)
  : list (list BaseMessage * bool) :=
  group_from (mkGroupState [] [] ∅) filtered_messages.

(** ** Stage 2: backward selection (lines 118-161) *)

Record SelectState := mkSelectState {
  messages_to_add : list BaseMessage;
  total_tokens_approx : Z;
  message_count : Z
}.

Definition sum_tokens (seq : list BaseMessage) : Z :=
  foldr (λ msg acc, (get_message_tokens msg + acc)%Z) 0%Z seq.

Definition has_ai_with_tool_calls (seq : list BaseMessage) : bool :=
  existsb has_tool_calls seq.

Definition has_oversized (seq : list BaseMessage) : bool :=
  existsb (λ msg, (30000 <? get_message_tokens msg)%Z) seq.

Definition fits (max_messages max_tokens_approx : Z)
    (st : SelectState) (seq : list BaseMessage) : bool :=
  (message_count st + Z.of_nat (length seq) <=? max_messages)%Z
  && (total_tokens_approx st + sum_tokens seq <=? max_tokens_approx)%Z.

(** The [for] loop over [reversed(sequences)]: the first two tests
    [continue], the failed fit test [break]s. *)
Fixpoint select_loop (max_messages max_tokens_approx : Z) (st : SelectState)
    (rsequences : list (list BaseMessage * bool)) : SelectState :=
  match rsequences with
  | [] => st
  | (seq, is_complete) :: older =>
      if negb is_complete && has_ai_with_tool_calls seq
      then select_loop max_messages max_tokens_approx st older
      else if has_oversized seq && negb (is_empty_list (messages_to_add st))
      then select_loop max_messages max_tokens_approx st older
      else if fits max_messages max_tokens_approx st seq
      then select_loop max_messages max_tokens_approx
             (mkSelectState (messages_to_add st ++ seq)
                            (total_tokens_approx st + sum_tokens seq)
                            (message_count st + Z.of_nat (length seq)))
             older
      else st
  end.

(** Lines 119-161, up to and including [messages_to_add.reverse()]. *)
Definition select_messages (max_messages max_tokens_approx system_tokens : Z)
    (sequences : list (list BaseMessage * bool)) : list BaseMessage :=
  reverse (messages_to_add
             (select_loop max_messages max_tokens_approx
                (mkSelectState [] system_tokens 0) (reverse sequences))).

(** ** Stage 3: validation (lines 163-298) *)

(** Lines 165-169 and 313-316. *)
Definition index_tool_messages (msgs : list BaseMessage) : gmap string BaseMessage :=
  foldl (λ by_id msg,
           match msg with
           | ToolMessage _ tool_call_id =>
               if truthy tool_call_id then <[tool_call_id := msg]> by_id else by_id
           | _ => by_id
           end) ∅ msgs.

(** Lines 183-187: the id of a tool call of either shape. *)
Definition tool_call_id_of (tool_call : ToolCall) : option string :=
  match tool_call with
  | ToolCallObj id => id
  | ToolCallDict id => id
  end.

Definition add_required (required : gset string) (tool_call : ToolCall) : gset string :=
  match tool_call_id_of tool_call with
  | Some id => if truthy id then required ∪ {[id]} else required
  | None => required
  end.

(** Lines 180-190 and 325-333. *)
Definition required_ids (tool_calls : list ToolCall) : gset string :=
  foldl add_required ∅ tool_calls.

(** The inner [while] of lines 207-217 (and of 383-392, 397-406): the part of
    the list that remains once the tool messages of the skipped assistant
    message are passed. *)
Fixpoint skip_tool_messages (required : gset string) (l : list BaseMessage)
  : list BaseMessage :=
  match l with
  | ToolMessage _ tool_call_id :: rest =>
      if truthy tool_call_id && bool_decide (tool_call_id ∈ required)
      then skip_tool_messages required rest
      else l
  | _ => l
  end.

(** The inner [while] of lines 227-252: the extended [validated_messages] and
    the part of the list from index [j] on. *)
Fixpoint collect_tool_messages (required included : gset string)
    (l validated : list BaseMessage) : list BaseMessage * list BaseMessage :=
  match l with
  | ToolMessage _ tool_call_id as next_msg :: rest =>
      if truthy tool_call_id && bool_decide (tool_call_id ∈ required)
      then if bool_decide (tool_call_id ∉ included)
           then collect_tool_messages required (included ∪ {[tool_call_id]})
                  rest (validated ++ [next_msg])
           else collect_tool_messages required included rest validated
      else (validated, l)
  | _ => (validated, l)
  end.

(** Lines 269-283: whether an assistant message already kept declares the id. *)
Definition declares (tool_call_id : string) (msg : BaseMessage) : bool :=
  match msg with
  | AIMessage _ tool_calls =>
      existsb (λ tc, bool_decide (tool_call_id_of tc = Some tool_call_id)) tool_calls
  | _ => false
  end.

(** The outer [while i < len(messages_to_add)] of lines 174-296; [l] is
    [messages_to_add[i:]], and [fuel] bounds the number of iterations, each of
    which advances [i]. *)
Fixpoint validate_loop (fuel : nat) (all_tool_messages_by_id : gmap string BaseMessage)
    (l validated : list BaseMessage) : list BaseMessage :=
  match fuel with
  | O => validated
  | S fuel =>
      match l with
      | [] => validated
      | msg :: rest =>
          match msg with
          | AIMessage _ ((_ :: _) as tool_calls) =>
              let required := required_ids tool_calls in
              if bool_decide (required = ∅)
              then validate_loop fuel all_tool_messages_by_id rest (validated ++ [msg])
              else if bool_decide (required ∖ dom all_tool_messages_by_id = ∅)
              then let '(validated', rest') :=
                     collect_tool_messages required ∅ rest (validated ++ [msg]) in
                   validate_loop fuel all_tool_messages_by_id rest' validated'
              else validate_loop fuel all_tool_messages_by_id
                     (skip_tool_messages required rest) validated
          | ToolMessage _ tool_call_id =>
              let is_handled := existsb (declares tool_call_id) validated in
              if is_handled
              then validate_loop fuel all_tool_messages_by_id rest validated
              else validate_loop fuel all_tool_messages_by_id rest validated
          | _ => validate_loop fuel all_tool_messages_by_id rest (validated ++ [msg])
          end
      end
  end.

Definition validate_messages (messages_to_add : list BaseMessage) : list BaseMessage :=
  validate_loop (length messages_to_add) (index_tool_messages messages_to_add)
    messages_to_add [].

(** ** Stage 4: the final cleaning pass (lines 300-431) *)

(** Lines 342-354: the ids found among the tool messages that follow. *)
Fixpoint scan_tool_messages (required found : gset string) (l : list BaseMessage)
  : gset string :=
  match l with
  | ToolMessage _ tool_id :: rest =>
      scan_tool_messages required
        (if truthy tool_id && bool_decide (tool_id ∈ required)
         then found ∪ {[tool_id]} else found)
        rest
  | _ => found
  end.

(** Lines 362-377: unlike the loop of the previous pass, this one stops at a
    repeated id. *)
Fixpoint include_tool_messages (required included : gset string)
    (l final : list BaseMessage) : list BaseMessage * list BaseMessage :=
  match l with
  | ToolMessage _ tool_id as next_msg :: rest =>
      if truthy tool_id && bool_decide (tool_id ∈ required)
         && bool_decide (tool_id ∉ included)
      then include_tool_messages required (included ∪ {[tool_id]})
             rest (final ++ [next_msg])
      else (final, l)
  | _ => (final, l)
  end.

(** Line 415: [getattr(tc, 'id', None) or (tc.get('id') if isinstance(tc, dict) else None)]. *)
Definition tc_id_or (tool_call : ToolCall) : option string :=
  match tool_call with
  | ToolCallObj (Some id) => if truthy id then Some id else None
  | ToolCallObj None => None
  | ToolCallDict id => id
  end.

Definition declares_final (tool_id : string) (msg : BaseMessage) : bool :=
  match msg with
  | AIMessage _ tool_calls =>
      existsb (λ tc, bool_decide (tc_id_or tc = Some tool_id)) tool_calls
  | _ => false
  end.

(** The outer [while i < len(messages_to_process)] of lines 320-431. *)
Fixpoint final_loop (fuel : nat) (tool_messages_by_id : gmap string BaseMessage)
    (l final_cleaned : list BaseMessage) : list BaseMessage :=
  match fuel with
  | O => final_cleaned
  | S fuel =>
      match l with
      | [] => final_cleaned
      | msg :: rest =>
          match msg with
          | AIMessage _ ((_ :: _) as tool_calls) =>
              let required := required_ids tool_calls in
              let all_tool_call_ids_present :=
                negb (bool_decide (required = ∅))
                && bool_decide (0 < size required)
                && bool_decide (required ⊆ dom tool_messages_by_id) in
              if all_tool_call_ids_present
              then
                let tool_messages_found := scan_tool_messages required ∅ rest in
                if bool_decide (tool_messages_found = required)
                then let '(final', rest') :=
                       include_tool_messages required ∅ rest (final_cleaned ++ [msg]) in
                     final_loop fuel tool_messages_by_id rest' final'
                else final_loop fuel tool_messages_by_id
                       (skip_tool_messages required rest) final_cleaned
              else final_loop fuel tool_messages_by_id
                     (skip_tool_messages required rest) final_cleaned
          | ToolMessage _ tool_id =>
              let is_included :=
                truthy tool_id && existsb (declares_final tool_id) final_cleaned in
              if is_included
              then final_loop fuel tool_messages_by_id rest final_cleaned
              else final_loop fuel tool_messages_by_id rest final_cleaned
          | _ => final_loop fuel tool_messages_by_id rest (final_cleaned ++ [msg])
          end
      end
  end.

Definition final_clean (messages_to_process : list BaseMessage) : list BaseMessage :=
  final_loop (length messages_to_process) (index_tool_messages messages_to_process)
    messages_to_process [].

(** ** The function *)

Definition system_tokens_of (system_message : option Content) : Z :=
  match system_message with
  | Some c => get_message_tokens (SystemMessage c)
  | None => 0%Z
  end.

Definition initial_result (system_message : option Content) : list BaseMessage :=
  match system_message with
  | Some c => [SystemMessage c]
  | None => []
  end.

Definition truncate_messages (messages : list BaseMessage)
    (system_message : option Content)
    (max_messages max_tokens_approx : Z) : list BaseMessage :=
  let result := initial_result system_message in
  let system_tokens := system_tokens_of system_message in
  let filtered_messages := filter (λ msg, is_system msg = false) messages in
  if is_empty_list filtered_messages then result
  else
    let sequences := group_messages filtered_messages in
    let messages_to_add :=
      select_messages max_messages max_tokens_approx system_tokens sequences in
    let validated_messages := validate_messages messages_to_add in
    let result := result ++ validated_messages in
    let '(system_msg_in_result, messages_to_process) :=
      match result with
      | SystemMessage c :: tl => (Some (SystemMessage c), tl)
      | _ => (None, result)
      end in
    let final_cleaned_messages := final_clean messages_to_process in
    match system_msg_in_result with
    | Some s => s :: final_cleaned_messages
    | None =>
        match system_message with
        | Some c => SystemMessage c :: final_cleaned_messages
        | None => final_cleaned_messages
        end
    end.

(** The defaults of the signature. *)
Definition default_max_messages : Z := 20.
Definition default_max_tokens_approx : Z := 100000.

(** * The function over a store of list objects

    Python lists are objects: [append], [extend] and [reverse] change them in
    place, and two variables may name the same list. Here every
    [List[BaseMessage]] the function touches lives in a store, and the
    function is written again with its allocations and in-place updates. The
    sets, the dictionaries and the list of pairs [sequences] are local values
    (the pairs hold the locations of their sequences); the loops run over the
    contents a list has when the loop starts. *)

Abbreviation loc := nat.

(** The list objects allocated so far; a location is an index. *)
Abbreviation store := (list (list BaseMessage)).

Definition St (A : Type) : Type := store → A * store.

Definition st_ret {A} (a : A) : St A := λ σ, (a, σ).

Definition st_bind {A B} (m : St A) (k : A → St B) : St B :=
  λ σ, let '(a, σ') := m σ in k a σ'.

Notation "x <- m ;; k" := (st_bind m (λ x, k))
  (at level 100, m at next level, right associativity).
Notation "m ;; k" := (st_bind m (λ _, k))
  (at level 100, right associativity).

Definition contents (σ : store) (l : loc) : list BaseMessage :=
  default [] (σ !! l).

(** A list display or comprehension: a new object. *)
Definition new_list (init : list BaseMessage) : St loc :=
  λ σ, (length σ, σ ++ [init]).

Definition get_list (l : loc) : St (list BaseMessage) :=
  λ σ, (contents σ l, σ).

Definition list_append (l : loc) (msg : BaseMessage) : St unit :=
  λ σ, (tt, <[l := contents σ l ++ [msg]]> σ).

Definition list_extend (l : loc) (msgs : list BaseMessage) : St unit :=
  λ σ, (tt, <[l := contents σ l ++ msgs]> σ).

Definition list_reverse (l : loc) : St unit :=
  λ σ, (tt, <[l := reverse (contents σ l)]> σ).

(** ** Grouping *)

Record GroupStateSt := mkGroupStateSt {
  sequences_st : list (loc * bool);
  current_sequence_st : loc;
  pending_st : gset string
}.

Definition close_and_reset_st (gs : GroupStateSt) : St GroupStateSt :=
  current <- get_list (current_sequence_st gs) ;;
  if is_empty_list current then st_ret gs
  else
    fresh <- new_list [] ;;
    st_ret (mkGroupStateSt
              (sequences_st gs
               ++ [(current_sequence_st gs, bool_decide (pending_st gs = ∅))])
              fresh ∅).

Definition group_step_st (gs : GroupStateSt) (message : BaseMessage)
  : St GroupStateSt :=
  match message with
  | AIMessage _ tool_calls =>
      gs1 <- close_and_reset_st gs ;;
      match tool_calls with
      | _ :: _ =>
          list_append (current_sequence_st gs1) message ;;
          st_ret (mkGroupStateSt (sequences_st gs1) (current_sequence_st gs1)
                    (foldl add_pending (pending_st gs1) tool_calls))
      | [] =>
          one <- new_list [message] ;;
          st_ret (mkGroupStateSt (sequences_st gs1 ++ [(one, true)])
                    (current_sequence_st gs1) (pending_st gs1))
      end
  | ToolMessage _ tool_call_id =>
      if truthy tool_call_id && bool_decide (tool_call_id ∈ pending_st gs)
      then
        list_append (current_sequence_st gs) message ;;
        st_ret (mkGroupStateSt (sequences_st gs) (current_sequence_st gs)
                  (pending_st gs ∖ {[tool_call_id]}))
      else
        current <- get_list (current_sequence_st gs) ;;
        one <- new_list [message] ;;
        fresh <- new_list [] ;;
        st_ret (mkGroupStateSt
                  ((if is_empty_list current then sequences_st gs
                    else sequences_st gs
                         ++ [(current_sequence_st gs,
                              bool_decide (pending_st gs = ∅))])
                   ++ [(one, true)])
                  fresh ∅)
  | _ =>
      gs1 <- close_and_reset_st gs ;;
      one <- new_list [message] ;;
      st_ret (mkGroupStateSt (sequences_st gs1 ++ [(one, true)])
                (current_sequence_st gs1) (pending_st gs1))
  end.

Fixpoint group_loop_st (gs : GroupStateSt) (filtered_messages : list BaseMessage)
  : St GroupStateSt :=
  match filtered_messages with
  | [] => st_ret gs
  | message :: rest =>
      gs1 <- group_step_st gs message ;;
      group_loop_st gs1 rest
  end.

Definition group_messages_st (filtered_messages : list BaseMessage)
  : St (list (loc * bool)) :=
  current <- new_list [] ;;
  gs <- group_loop_st (mkGroupStateSt [] current ∅) filtered_messages ;;
  last_sequence <- get_list (current_sequence_st gs) ;;
  st_ret (if is_empty_list last_sequence then sequences_st gs
          else sequences_st gs
               ++ [(current_sequence_st gs, bool_decide (pending_st gs = ∅))]).

(** ** Selection *)

Fixpoint select_loop_st (max_messages max_tokens_approx : Z)
    (messages_to_add : loc) (total_tokens_approx message_count : Z)
    (rsequences : list (loc * bool)) : St unit :=
  match rsequences with
  | [] => st_ret tt
  | (seq_loc, is_complete) :: older =>
      seq <- get_list seq_loc ;;
      if negb is_complete && has_ai_with_tool_calls seq
      then select_loop_st max_messages max_tokens_approx messages_to_add
             total_tokens_approx message_count older
      else
        added <- get_list messages_to_add ;;
        if has_oversized seq && negb (is_empty_list added)
        then select_loop_st max_messages max_tokens_approx messages_to_add
               total_tokens_approx message_count older
        else if fits max_messages max_tokens_approx
                  (mkSelectState added total_tokens_approx message_count) seq
        then
          list_extend messages_to_add seq ;;
          select_loop_st max_messages max_tokens_approx messages_to_add
            (total_tokens_approx + sum_tokens seq)
            (message_count + Z.of_nat (length seq)) older
        else st_ret tt
  end.

(** ** The two validation passes *)

Fixpoint collect_tool_messages_st (required included : gset string)
    (l : list BaseMessage) (validated : loc) : St (list BaseMessage) :=
  match l with
  | ToolMessage _ tool_call_id as next_msg :: rest =>
      if truthy tool_call_id && bool_decide (tool_call_id ∈ required)
      then if bool_decide (tool_call_id ∉ included)
           then list_append validated next_msg ;;
                collect_tool_messages_st required (included ∪ {[tool_call_id]})
                  rest validated
           else collect_tool_messages_st required included rest validated
      else st_ret l
  | _ => st_ret l
  end.

Fixpoint validate_loop_st (fuel : nat) (by_id : gmap string BaseMessage)
    (l : list BaseMessage) (validated : loc) : St unit :=
  match fuel with
  | O => st_ret tt
  | S fuel =>
      match l with
      | [] => st_ret tt
      | msg :: rest =>
          match msg with
          | AIMessage _ ((_ :: _) as tool_calls) =>
              let required := required_ids tool_calls in
              if bool_decide (required = ∅)
              then list_append validated msg ;;
                   validate_loop_st fuel by_id rest validated
              else if bool_decide (required ∖ dom by_id = ∅)
              then list_append validated msg ;;
                   rest' <- collect_tool_messages_st required ∅ rest validated ;;
                   validate_loop_st fuel by_id rest' validated
              else validate_loop_st fuel by_id
                     (skip_tool_messages required rest) validated
          | ToolMessage _ tool_call_id =>
              kept <- get_list validated ;;
              if existsb (declares tool_call_id) kept
              then validate_loop_st fuel by_id rest validated
              else validate_loop_st fuel by_id rest validated
          | _ => list_append validated msg ;;
                 validate_loop_st fuel by_id rest validated
          end
      end
  end.

Fixpoint include_tool_messages_st (required included : gset string)
    (l : list BaseMessage) (final : loc) : St (list BaseMessage) :=
  match l with
  | ToolMessage _ tool_id as next_msg :: rest =>
      if truthy tool_id && bool_decide (tool_id ∈ required)
         && bool_decide (tool_id ∉ included)
      then list_append final next_msg ;;
           include_tool_messages_st required (included ∪ {[tool_id]}) rest final
      else st_ret l
  | _ => st_ret l
  end.

Fixpoint final_loop_st (fuel : nat) (by_id : gmap string BaseMessage)
    (l : list BaseMessage) (final_cleaned : loc) : St unit :=
  match fuel with
  | O => st_ret tt
  | S fuel =>
      match l with
      | [] => st_ret tt
      | msg :: rest =>
          match msg with
          | AIMessage _ ((_ :: _) as tool_calls) =>
              let required := required_ids tool_calls in
              if negb (bool_decide (required = ∅))
                 && bool_decide (0 < size required)
                 && bool_decide (required ⊆ dom by_id)
              then
                if bool_decide (scan_tool_messages required ∅ rest = required)
                then list_append final_cleaned msg ;;
                     rest' <- include_tool_messages_st required ∅ rest
                                final_cleaned ;;
                     final_loop_st fuel by_id rest' final_cleaned
                else final_loop_st fuel by_id
                       (skip_tool_messages required rest) final_cleaned
              else final_loop_st fuel by_id
                     (skip_tool_messages required rest) final_cleaned
          | ToolMessage _ tool_id =>
              kept <- get_list final_cleaned ;;
              if truthy tool_id && existsb (declares_final tool_id) kept
              then final_loop_st fuel by_id rest final_cleaned
              else final_loop_st fuel by_id rest final_cleaned
          | _ => list_append final_cleaned msg ;;
                 final_loop_st fuel by_id rest final_cleaned
          end
      end
  end.

(** ** The function *)

(** Lines 119-161: [messages_to_add] is a new list, filled and then reversed
    in place. *)
Definition select_messages_st (max_messages max_tokens_approx system_tokens : Z)
    (sequences : list (loc * bool)) : St loc :=
  messages_to_add <- new_list [] ;;
  select_loop_st max_messages max_tokens_approx messages_to_add
    system_tokens 0 (reverse sequences) ;;
  list_reverse messages_to_add ;;
  st_ret messages_to_add.

(** Lines 163-296: [validated_messages] is a new list. *)
Definition validate_messages_st (messages_to_add : loc) : St loc :=
  selected <- get_list messages_to_add ;;
  validated_messages <- new_list [] ;;
  validate_loop_st (length selected) (index_tool_messages selected)
    selected validated_messages ;;
  st_ret validated_messages.

(** Lines 312-431, on the list [messages_to_process]. *)
Definition final_clean_st (final_cleaned_messages messages_to_process : loc)
  : St unit :=
  to_process <- get_list messages_to_process ;;
  final_loop_st (length to_process) (index_tool_messages to_process)
    to_process final_cleaned_messages.

(** [[system_msg] + final_cleaned_messages]: the one-element list and the
    concatenation are both new lists. *)
Definition prepend_st (system_msg : BaseMessage) (final_cleaned_messages : loc)
  : St loc :=
  final <- get_list final_cleaned_messages ;;
  new_list [system_msg] ;;
  new_list (system_msg :: final).

Definition truncate_messages_st (messages : loc)
    (system_message : option Content)
    (max_messages max_tokens_approx : Z) : St loc :=
  result <- new_list [] ;;
  match system_message with
  | Some c => list_append result (SystemMessage c)
  | None => st_ret tt
  end ;;
  let system_tokens := system_tokens_of system_message in
  input <- get_list messages ;;
  filtered_messages <- new_list (filter (λ msg, is_system msg = false) input) ;;
  filtered <- get_list filtered_messages ;;
  if is_empty_list filtered then st_ret result
  else
    sequences <- group_messages_st filtered ;;
    messages_to_add <- select_messages_st max_messages max_tokens_approx
                         system_tokens sequences ;;
    validated_messages <- validate_messages_st messages_to_add ;;
    validated <- get_list validated_messages ;;
    list_extend result validated ;;
    final_cleaned_messages <- new_list [] ;;
    whole <- get_list result ;;
    match whole with
    | SystemMessage c :: tl =>
        (* [messages_to_process = result[1:]], a new list *)
        messages_to_process <- new_list tl ;;
        final_clean_st final_cleaned_messages messages_to_process ;;
        prepend_st (SystemMessage c) final_cleaned_messages
    | _ =>
        (* [messages_to_process = result], the same list *)
        final_clean_st final_cleaned_messages result ;;
        match system_message with
        | Some c => prepend_st (SystemMessage c) final_cleaned_messages
        | None => st_ret final_cleaned_messages
        end
    end.

(** * The caller: [researcher] (src/researcher.py, lines 174-222)

    The node truncates the history with [truncate_messages] and filters the
    result once more before it is sent to the model. *)

(** Line 194: [{t.id for t in msg.tool_calls if hasattr(t, "id") and t.id}],
    the ids that grouping makes pending (src/utils.py, lines 78-80). *)
Definition attribute_ids (tool_calls : list ToolCall) : gset string :=
  foldl add_pending ∅ tool_calls.

(** Lines 198-205: the inner [for j in range(i + 1, len(truncated_messages))];
    [l] is [truncated_messages[j:]]. The scan stops at the first assistant,
    user or system message and passes over any other message. *)
Fixpoint scan_answers (required : gset string) (j : nat) (l : list BaseMessage)
    (found_ids : gset string) (tool_indices : list nat)
  : gset string * list nat :=
  match l with
  | [] => (found_ids, tool_indices)
  | next_msg :: rest =>
      match next_msg with
      | AIMessage _ _ | HumanMessage _ | SystemMessage _ =>
          (found_ids, tool_indices)
      | ToolMessage _ tool_call_id =>
          if bool_decide (tool_call_id ∈ required)
          then scan_answers required (S j) rest
                 (found_ids ∪ {[tool_call_id]}) (tool_indices ++ [j])
          else scan_answers required (S j) rest found_ids tool_indices
      | ChatMessage _ => scan_answers required (S j) rest found_ids tool_indices
      end
  end.

(** Lines 210-211 and 213-214:
    [if tool_indices: skip_until_index = max(tool_indices)]. *)
Definition skip_after (skip_until_index : Z) (tool_indices : list nat) : Z :=
  if is_empty_list tool_indices then skip_until_index
  else Z.of_nat (max_list tool_indices).

(** Lines 189-219: [for i, msg in enumerate(truncated_messages)]; [l] is
    [truncated_messages[i:]]. The tool messages are read back by index
    (line 209); [None] stands for an [IndexError]. *)
Fixpoint safe_loop (truncated_messages : list BaseMessage) (i : nat)
    (l : list BaseMessage) (skip_until_index : Z)
    (safe_messages : list BaseMessage) : option (list BaseMessage) :=
  match l with
  | [] => Some safe_messages
  | msg :: rest =>
      if (Z.of_nat i <=? skip_until_index)%Z
      then safe_loop truncated_messages (S i) rest skip_until_index safe_messages
      else
        match msg with
        | AIMessage _ ((_ :: _) as tool_calls) =>
            let required := attribute_ids tool_calls in
            if bool_decide (required = ∅)
            then safe_loop truncated_messages (S i) rest skip_until_index
                   (safe_messages ++ [msg])
            else
              let '(found_ids, tool_indices) :=
                scan_answers required (S i) rest ∅ [] in
              if bool_decide (found_ids = required)
              then
                match mapM (λ idx, truncated_messages !! idx) tool_indices with
                | Some tools =>
                    safe_loop truncated_messages (S i) rest
                      (skip_after skip_until_index tool_indices)
                      (safe_messages ++ [msg] ++ tools)
                | None => None
                end
              else safe_loop truncated_messages (S i) rest
                     (skip_after skip_until_index tool_indices) safe_messages
        | _ => safe_loop truncated_messages (S i) rest skip_until_index
                 (safe_messages ++ [msg])
        end
  end.

(** Lines 186-219. *)
Definition safe_messages (truncated_messages : list BaseMessage)
  : option (list BaseMessage) :=
  safe_loop truncated_messages 0 truncated_messages (-1) [].

(** Lines 176-219: what [researcher] sends to the model, for the history
    [state.messages] and the rendered prompt. *)
Definition researcher_messages (state_messages : list BaseMessage)
    (prompt : string) : option (list BaseMessage) :=
  safe_messages
    (truncate_messages state_messages (Some (ContentStr prompt)) 10 100000).

(** * The tool bodies of [src/researcher.py]

    [search_web] and [extract_content_from_webpage] call a client of the
    search service and normalise what it returns. The client is outside the
    program; the embedding starts from the value [raw] it returned. *)

Set Warnings "-register-all".

(** A Python value, as far as the two functions tell values apart: they test
    for [str], [dict] and [list], read dictionaries by string keys and iterate
    over the results. *)
Inductive PyValue :=
| PyNone
| PyStr (s : string)
| PyList (items : list PyValue)
| PyDict (entries : list (PyValue * PyValue))
| PyOther (tag : nat).

(** The entry of a dictionary under the string key [k]. *)
Definition dict_get (entries : list (PyValue * PyValue)) (k : string)
  : option PyValue :=
  snd <$> List.find (λ entry, match entry.1 with
                              | PyStr s => String.eqb s k
                              | _ => false
                              end) entries.

Section tool_bodies.
(** [json.loads]: [None] when it raises. *)
Variable json_loads : string → option PyValue.
(** [str(x)] for a value that is not a [str]. *)
Variable render : PyValue → string.
(** The one-character strings that iterating over a [str] yields. *)
Variable code_points : string → list string.
(** What iterating over a value of another type yields; [None] when the value
    is not iterable. *)
Variable iter_other : nat → option (list PyValue).

Definition py_str (v : PyValue) : string :=
  match v with PyStr s => s | _ => render v end.

(** [for result in v]: [None] stands for the [TypeError] of a value that is
    not iterable. *)
Definition py_iter (v : PyValue) : option (list PyValue) :=
  match v with
  | PyList items => Some items
  | PyStr s => Some (PyStr <$> code_points s)
  | PyDict entries => Some entries.*1
  | PyNone => None
  | PyOther tag => iter_other tag
  end.

Definition result_entry (title url content_preview : PyValue) : PyValue :=
  PyDict [(PyStr "title", title); (PyStr "url", url);
          (PyStr "content_preview", content_preview)].

(** Lines 64-77: the entry appended for one [result]. *)
Definition processed_entry (result : PyValue) : PyValue :=
  match result with
  | PyDict entries =>
      result_entry (default PyNone (dict_get entries "title"))
                   (default PyNone (dict_get entries "url"))
                   (default (PyStr "") (dict_get entries "content"))
  | _ => result_entry PyNone PyNone (PyStr (py_str result))
  end.

Definition processed_results (query : string) (results : list PyValue)
  : PyValue :=
  PyDict [(PyStr "query", PyStr query); (PyStr "results", PyList results)].

(** Lines 53-79, for [raw] once it is not a JSON string. *)
Definition search_web_structured (query : string) (raw : PyValue)
  : option PyValue :=
  let search_results :=
    match raw with
    | PyDict entries => dict_get entries "results"
    | PyList _ => Some raw
    | _ => None
    end in
  match search_results with
  | None => Some (processed_results query [])
  | Some search_results =>
      match py_iter search_results with
      | None => None
      | Some results =>
          Some (processed_results query
                  (foldl (λ acc result, acc ++ [processed_entry result])
                     [] results))
      end
  end.

(** Lines 41-79 of [search_web]. *)
Definition search_web (query : string) (raw : PyValue) : option PyValue :=
  match raw with
  | PyStr s =>
      match json_loads s with
      | Some raw_parsed => search_web_structured query raw_parsed
      | None =>
          Some (processed_results query [result_entry PyNone PyNone raw])
      end
  | _ => search_web_structured query raw
  end.

(** Lines 104-113, for [raw] once it is not a JSON string. *)
Definition extract_structured (raw : PyValue) : PyValue :=
  match raw with
  | PyDict entries =>
      match dict_get entries "results" with
      | Some results =>
          match results with PyList _ => results | _ => PyList [results] end
      | None => PyList [raw]
      end
  | PyList _ => raw
  | _ => PyList [raw]
  end.

(** Lines 95-113 of [extract_content_from_webpage]. *)
Definition extract_content_from_webpage (urls : list string) (raw : PyValue)
  : PyValue :=
  match raw with
  | PyStr s =>
      match json_loads s with
      | Some parsed => extract_structured parsed
      | None =>
          PyList [PyDict [(PyStr "url_list", PyList (PyStr <$> urls));
                          (PyStr "content", raw)]]
      end
  | _ => extract_structured raw
  end.
End tool_bodies.

(** * Notions used in the statements and in their proofs *)

(** [tool_call_id] of a tool message. *)
Definition tool_id (msg : BaseMessage) : option string :=
  match msg with ToolMessage _ id => Some id | _ => None end.

Definition tool_ids (l : list BaseMessage) : list string := omap tool_id l.

(** A tool message answering one of [required]. *)
Definition answers (required : gset string) (msg : BaseMessage) : bool :=
  match msg with
  | ToolMessage _ id => truthy id && bool_decide (id ∈ required)
  | _ => false
  end.

(** The tool messages kept after an assistant message: each answers one of its
    ids, and no id is answered twice. *)
Definition tool_run (required : gset string) (run : list BaseMessage) : Prop :=
  Forall (λ msg, answers required msg = true) run ∧ NoDup (tool_ids run).

Definition head_not_tool (l : list BaseMessage) : Prop :=
  match l with
  | msg :: _ => is_tool msg = false
  | [] => True
  end.

(** What the first validation pass produces: tool messages occur only in the
    run that directly follows an assistant message with tool calls. *)
Inductive shaped : list BaseMessage → Prop :=
| shaped_nil : shaped []
| shaped_plain msg l :
    is_tool msg = false → has_tool_calls msg = false →
    shaped l → shaped (msg :: l)
| shaped_calls c tc tcs run l :
    tool_run (required_ids (tc :: tcs)) run →
    shaped l → shaped (AIMessage c (tc :: tcs) :: run ++ l).

(** What the final pass produces: moreover every run answers all the ids. *)
Inductive atomic : list BaseMessage → Prop :=
| atomic_nil : atomic []
| atomic_plain msg l :
    is_tool msg = false → has_tool_calls msg = false →
    atomic l → atomic (msg :: l)
| atomic_calls c tc tcs run l :
    tool_run (required_ids (tc :: tcs)) run →
    list_to_set (tool_ids run) = required_ids (tc :: tcs) →
    required_ids (tc :: tcs) ≠ ∅ →
    atomic l → atomic (AIMessage c (tc :: tcs) :: run ++ l).

(** The messages held by a grouping state, in order. *)
Definition held (st : GroupState) : list BaseMessage :=
  concat (sequences st).*1 ++ current_sequence st.

(** The two counters describe [messages_to_add]. *)
Definition accounted (system_tokens : Z) (st : SelectState) : Prop :=
  message_count st = Z.of_nat (length (messages_to_add st))
  ∧ total_tokens_approx st
    = (system_tokens + sum_tokens (messages_to_add st))%Z.

(** Once a group is accepted, both budgets hold. *)
Definition within (max_messages max_tokens_approx : Z) (st : SelectState)
  : Prop :=
  messages_to_add st = []
  ∨ (message_count st ≤ max_messages
     ∧ total_tokens_approx st ≤ max_tokens_approx)%Z.

(** The messages of the result that follow the system message. *)
Definition window_body (messages : list BaseMessage)
    (system_message : option Content)
    (max_messages max_tokens_approx : Z) : list BaseMessage :=
  final_clean
    (validate_messages
       (select_messages max_messages max_tokens_approx
          (system_tokens_of system_message)
          (group_messages (filter (λ msg, is_system msg = false) messages)))).

(** The ids an assistant message declares: those of its tool calls that are
    neither [None] nor empty, which is what both passes require. *)
Definition declared_ids (msg : BaseMessage) : gset string :=
  match msg with
  | AIMessage _ tool_calls => required_ids tool_calls
  | _ => ∅
  end.

(** Every id declared by an assistant message of [out] that carries tool calls
    is answered by a tool message of [out]. *)
Definition calls_answered (out : list BaseMessage) : Prop :=
  ∀ msg id, msg ∈ out → has_tool_calls msg = true → id ∈ declared_ids msg →
    ∃ c, ToolMessage c id ∈ out.

(** Every tool message of [out] is preceded in [out] by an assistant message
    that declares its id. *)
Definition results_issued (out : list BaseMessage) : Prop :=
  ∀ earlier c id later, out = earlier ++ ToolMessage c id :: later →
    ∃ msg, msg ∈ earlier ∧ has_tool_calls msg = true ∧ id ∈ declared_ids msg.

(** No tool message of [out] is directly followed by one with the same id. *)
Definition no_repeated_result (out : list BaseMessage) : Prop :=
  ∀ earlier c1 c2 id later,
    out ≠ earlier ++ ToolMessage c1 id :: ToolMessage c2 id :: later.

(** A message that neither carries tool calls nor answers one. *)
Definition plain (msg : BaseMessage) : bool :=
  negb (is_tool msg) && negb (has_tool_calls msg).

(** A group made of one message. *)
Definition single (msg : BaseMessage) : list BaseMessage * bool := ([msg], true).

(** A user turn, or an assistant turn without tool calls. *)
Definition simple_turn (msg : BaseMessage) : bool :=
  match msg with
  | HumanMessage _ | AIMessage _ [] => true
  | _ => false
  end.

(** The per-message ceiling of line 145. *)
Definition within_ceiling (msg : BaseMessage) : Prop :=
  (get_message_tokens msg ≤ 30000)%Z.

(** A text of [n] characters. *)
Fixpoint text_of_length (n : nat) : string :=
  match n with
  | O => EmptyString
  | S n => String "x"%char (text_of_length n)
  end.

(** The sequences named by a list of locations. *)
Definition resolve (σ : store) (sequences : list (loc * bool))
  : list (list BaseMessage * bool) :=
  (λ p, (contents σ p.1, p.2)) <$> sequences.

(** The location [p.1], allocated at or after [base], holds the sequence
    [q.1]. *)
Definition sequence_at (base : nat) (σ : store)
    (p : loc * bool) (q : list BaseMessage * bool) : Prop :=
  base ≤ p.1 ∧ σ !! p.1 = Some q.1 ∧ p.2 = q.2.

(** The grouping state over the store stands for a grouping state; no
    location of [sequences] is that of [current_sequence]. *)
Record represents (base : nat) (σ : store)
    (gs : GroupStateSt) (g : GroupState) : Prop := mkRepresents {
  rep_sequences : Forall2 (sequence_at base σ) (sequences_st gs) (sequences g);
  rep_distinct : Forall (λ p, p.1 ≠ current_sequence_st gs) (sequences_st gs);
  rep_current : σ !! current_sequence_st gs = Some (current_sequence g);
  rep_base : base ≤ current_sequence_st gs;
  rep_pending : pending_st gs = pending_tool_call_ids g
}.

(** The lists that existed below [base] are as they were. *)
Definition unchanged_below (base : nat) (σ σ' : store) : Prop :=
  length σ ≤ length σ' ∧ ∀ l, l < base → σ' !! l = σ !! l.

(** Closing the current sequence, as a list of locations. *)
Definition closed_sequences_st (gs : GroupStateSt)
    (current : list BaseMessage)
  : list (loc * bool) :=
  if is_empty_list current then sequences_st gs
  else sequences_st gs
       ++ [(current_sequence_st gs, bool_decide (pending_st gs = ∅))].

(** An assistant message with tool calls followed by tool messages only. *)
Definition tool_sequence (seq : list BaseMessage) : Prop :=
  ∃ c tc tcs tools,
    seq = AIMessage c (tc :: tcs) :: tools
    ∧ Forall (λ msg, is_tool msg = true) tools.

(** A sequence as grouping builds it: one message that carries no tool call,
    flagged complete, or a tool sequence. *)
Definition well_grouped (g : list BaseMessage * bool) : Prop :=
  (∃ msg, g = ([msg], true) ∧ has_tool_calls msg = false)
  ∨ tool_sequence g.1.

(** While grouping runs: either no sequence is being built and no id is
    pending, or the sequence being built is a tool sequence. *)
Definition building (st : GroupState) : Prop :=
  Forall well_grouped (sequences st)
  ∧ ((current_sequence st = [] ∧ pending_tool_call_ids st = ∅)
     ∨ tool_sequence (current_sequence st)).

(** No tool call of the message has an id that grouping can read: the case of
    tool calls given as mappings. *)
Definition no_attribute_id (msg : BaseMessage) : bool :=
  match msg with
  | AIMessage _ tool_calls => bool_decide (attribute_ids tool_calls = ∅)
  | _ => true
  end.

(** Every tool call of the message is a mapping. *)
Definition mapping_calls (msg : BaseMessage) : bool :=
  match msg with
  | AIMessage _ tool_calls =>
      forallb (λ tc, match tc with ToolCallDict _ => true | _ => false end)
        tool_calls
  | _ => true
  end.

(** A message at which the scan of the tool messages stops. *)
Definition ends_scan (msg : BaseMessage) : bool :=
  match msg with
  | AIMessage _ _ | HumanMessage _ | SystemMessage _ => true
  | _ => false
  end.

(** A system or user message, or an assistant message none of whose tool calls
    has an id readable as an attribute. *)
Definition always_kept (msg : BaseMessage) : bool :=
  match msg with
  | SystemMessage _ | HumanMessage _ => true
  | AIMessage _ tool_calls => bool_decide (attribute_ids tool_calls = ∅)
  | _ => false
  end.

(** The filter and [truncate_messages] read the same ids from the tool calls
    of the message, or the filter reads none. *)
Definition uniform_calls (msg : BaseMessage) : bool :=
  match msg with
  | AIMessage _ tool_calls =>
      bool_decide (attribute_ids tool_calls = required_ids tool_calls)
      || bool_decide (attribute_ids tool_calls = ∅)
  | _ => true
  end.

(** An assistant message directly followed by a tool message that answers one
    of its ids. *)
Definition answered_call (l : list BaseMessage) : Prop :=
  ∃ pre c tool_calls c' id post,
    l = pre ++ AIMessage c tool_calls :: ToolMessage c' id :: post
    ∧ id ∈ required_ids tool_calls.

(** Every id of the tool calls of the message is readable as an attribute. *)
Definition attribute_shaped (msg : BaseMessage) : bool :=
  match msg with
  | AIMessage _ tool_calls =>
      bool_decide (attribute_ids tool_calls = required_ids tool_calls)
  | _ => true
  end.

(** The flag of a sequence that starts with an assistant message tells whether
    its tool messages answer every id readable as an attribute. *)
Definition answered_group (g : list BaseMessage * bool) : Prop :=
  ∀ c tool_calls tools, g.1 = AIMessage c tool_calls :: tools →
    (g.2 = true ↔ attribute_ids tool_calls ⊆ list_to_set (tool_ids tools)).

(** While grouping runs, the pending ids are those not answered yet. *)
Definition answering (st : GroupState) : Prop :=
  Forall answered_group (sequences st)
  ∧ ∀ c tool_calls tools,
      current_sequence st = AIMessage c tool_calls :: tools →
      pending_tool_call_ids st
      = attribute_ids tool_calls ∖ list_to_set (tool_ids tools).

(** The value both tool bodies go on with: [raw] itself, unless it is a string
    that parses as JSON, and then the parsed value. *)
Definition parsed_value (json_loads : string → option PyValue)
    (raw v : PyValue) : Prop :=
  (raw = v ∧ ∀ s, raw ≠ PyStr s)
  ∨ ∃ s, raw = PyStr s ∧ json_loads s = Some v.

(** An entry of the results of [search_web]: exactly the three keys. *)
Definition is_result_entry (entry : PyValue) : Prop :=
  ∃ title url content_preview,
    entry = result_entry title url content_preview.

(** * Properties of the stages *)

(** ** The inner loops of the two validation passes *)

Section inner_loops.
Implicit Types (l validated final : list BaseMessage).
Implicit Types (required included found : gset string).

Lemma skip_tool_messages_suffix required l :
  skip_tool_messages required l `suffix_of` l.
Proof.
  induction l as [|m l IH]; simpl; [done|].
  destruct m; try done.
  case_match; [by apply suffix_cons_r | done].
Qed.

Lemma skip_tool_messages_length required l :
  length (skip_tool_messages required l) ≤ length l.
Proof. apply suffix_length, skip_tool_messages_suffix. Qed.

Lemma collect_tool_messages_validated required included l validated :
  collect_tool_messages required included l validated =
  (validated ++ (collect_tool_messages required included l []).1,
   (collect_tool_messages required included l []).2).
Proof.
  revert included validated.
  induction l as [|m l IH]; intros included validated; simpl.
  { by rewrite app_nil_r. }
  destruct m; simpl; try by rewrite app_nil_r.
  repeat case_match; simpl; try by rewrite app_nil_r.
  - rewrite (IH _ (validated ++ _)), (IH _ [_]); simpl.
    by rewrite <- app_assoc.
  - apply IH.
Qed.

Lemma collect_tool_messages_length required included l validated :
  length (collect_tool_messages required included l validated).2 ≤ length l.
Proof.
  revert included validated.
  induction l as [|m l IH]; intros included validated; simpl; [done|].
  destruct m; simpl; try done.
  repeat case_match; simpl; try done.
  - etrans; [apply IH | lia].
  - etrans; [apply IH | lia].
Qed.

Lemma collect_tool_messages_sublist required included l rest :
  rest `sublist_of` (collect_tool_messages required included l []).2 →
  (collect_tool_messages required included l []).1 ++ rest `sublist_of` l.
Proof.
  revert included.
  induction l as [|m l IH]; intros included; simpl; [done|].
  destruct m; simpl; try done.
  repeat case_match; simpl; try done.
  - rewrite collect_tool_messages_validated; simpl.
    intros Hrest. apply sublist_skip. by apply IH.
  - intros Hrest. apply sublist_cons. by apply IH.
Qed.

Lemma include_tool_messages_final required included l final :
  include_tool_messages required included l final =
  (final ++ (include_tool_messages required included l []).1,
   (include_tool_messages required included l []).2).
Proof.
  revert included final.
  induction l as [|m l IH]; intros included final; simpl.
  { by rewrite app_nil_r. }
  destruct m; simpl; try by rewrite app_nil_r.
  case_match; simpl; try by rewrite app_nil_r.
  rewrite (IH _ (final ++ _)), (IH _ [_]); simpl.
  by rewrite <- app_assoc.
Qed.

Lemma include_tool_messages_length required included l final :
  length (include_tool_messages required included l final).2 ≤ length l.
Proof.
  revert included final.
  induction l as [|m l IH]; intros included final; simpl; [done|].
  destruct m; simpl; try done.
  case_match; simpl; try done.
  etrans; [apply IH | lia].
Qed.

(** The second loop of the final pass takes a prefix and leaves the rest. *)
Lemma include_tool_messages_split required included l :
  (include_tool_messages required included l []).1
    ++ (include_tool_messages required included l []).2 = l.
Proof.
  revert included.
  induction l as [|m l IH]; intros included; simpl; [done|].
  destruct m; simpl; try done.
  case_match; simpl; try done.
  rewrite include_tool_messages_final; simpl. by rewrite IH.
Qed.
End inner_loops.

(** ** The two validation passes as list transformers *)

Section passes.
Implicit Types (l validated final : list BaseMessage).
Implicit Types (by_id : gmap string BaseMessage).

Lemma if_same {A} (b : bool) (x : A) : (if b then x else x) = x.
Proof. by destruct b. Qed.

(** [validated_messages] is only ever appended to. *)
Lemma validate_loop_validated fuel by_id l validated :
  validate_loop fuel by_id l validated
  = validated ++ validate_loop fuel by_id l [].
Proof.
  revert l validated.
  induction fuel as [|fuel IH]; intros l validated; simpl.
  { by rewrite app_nil_r. }
  destruct l as [|m rest]; [by rewrite app_nil_r|].
  destruct m as [c|c|c [|tc tcs]|c id|c]; simpl;
    rewrite ?if_same;
    try (rewrite (IH _ (validated ++ _)), (IH _ [_]);
         by rewrite <- app_assoc).
  - repeat case_match; simplify_eq.
    + rewrite (IH _ (validated ++ _)), (IH _ [_]). by rewrite <- app_assoc.
    + match goal with
      | H1 : collect_tool_messages _ _ _ (validated ++ _) = _,
        H2 : collect_tool_messages _ _ _ [_] = _ |- _ =>
          rewrite collect_tool_messages_validated in H1;
          rewrite collect_tool_messages_validated in H2;
          simplify_eq
      end.
      rewrite (IH _ ((_ ++ _) ++ _)), (IH _ ([_] ++ _)).
      by rewrite <- !app_assoc.
    + apply IH.
  - apply IH.
Qed.

Lemma final_loop_final fuel by_id l final :
  final_loop fuel by_id l final = final ++ final_loop fuel by_id l [].
Proof.
  revert l final.
  induction fuel as [|fuel IH]; intros l final; simpl.
  { by rewrite app_nil_r. }
  destruct l as [|m rest]; [by rewrite app_nil_r|].
  destruct m as [c|c|c [|tc tcs]|c id|c]; simpl;
    rewrite ?if_same;
    try (rewrite (IH _ (final ++ _)), (IH _ [_]);
         by rewrite <- app_assoc).
  - repeat case_match; simplify_eq; try apply IH.
    match goal with
    | H1 : include_tool_messages _ _ _ (final ++ _) = _,
      H2 : include_tool_messages _ _ _ [_] = _ |- _ =>
        rewrite include_tool_messages_final in H1;
        rewrite include_tool_messages_final in H2;
        simplify_eq
    end.
    rewrite (IH _ ((_ ++ _) ++ _)), (IH _ ([_] ++ _)).
    by rewrite <- !app_assoc.
  - apply IH.
Qed.

(** One iteration of each loop, on the output alone. *)
Lemma validate_loop_plain fuel by_id m rest :
  is_tool m = false → has_tool_calls m = false →
  validate_loop (S fuel) by_id (m :: rest) []
  = m :: validate_loop fuel by_id rest [].
Proof.
  intros Htool Hcalls.
  destruct m as [c|c|c [|tc tcs]|c id|c]; simplify_eq/=;
    by rewrite validate_loop_validated.
Qed.

Lemma final_loop_plain fuel by_id m rest :
  is_tool m = false → has_tool_calls m = false →
  final_loop (S fuel) by_id (m :: rest) []
  = m :: final_loop fuel by_id rest [].
Proof.
  intros Htool Hcalls.
  destruct m as [c|c|c [|tc tcs]|c id|c]; simplify_eq/=;
    by rewrite final_loop_final.
Qed.

Lemma validate_loop_tool fuel by_id c id rest :
  validate_loop (S fuel) by_id (ToolMessage c id :: rest) []
  = validate_loop fuel by_id rest [].
Proof. simpl. by rewrite ?if_same. Qed.

Lemma final_loop_tool fuel by_id c id rest :
  final_loop (S fuel) by_id (ToolMessage c id :: rest) []
  = final_loop fuel by_id rest [].
Proof. simpl. by rewrite ?if_same. Qed.

Lemma validate_loop_calls fuel by_id c tc tcs rest :
  let msg := AIMessage c (tc :: tcs) in
  let required := required_ids (tc :: tcs) in
  validate_loop (S fuel) by_id (msg :: rest) [] =
    if bool_decide (required = ∅)
    then msg :: validate_loop fuel by_id rest []
    else if bool_decide (required ∖ dom by_id = ∅)
    then msg :: (collect_tool_messages required ∅ rest []).1
           ++ validate_loop fuel by_id
                (collect_tool_messages required ∅ rest []).2 []
    else validate_loop fuel by_id (skip_tool_messages required rest) [].
Proof.
  intros msg required. subst msg. cbn [validate_loop]. fold required.
  destruct (bool_decide (required = ∅)).
  { by rewrite validate_loop_validated. }
  destruct (bool_decide (_ = ∅)); [|done].
  rewrite collect_tool_messages_validated. cbv beta iota.
  by rewrite validate_loop_validated.
Qed.

Lemma final_loop_calls fuel by_id c tc tcs rest :
  let msg := AIMessage c (tc :: tcs) in
  let required := required_ids (tc :: tcs) in
  final_loop (S fuel) by_id (msg :: rest) [] =
    if negb (bool_decide (required = ∅))
       && bool_decide (0 < size required)
       && bool_decide (required ⊆ dom by_id)
       && bool_decide (scan_tool_messages required ∅ rest = required)
    then msg :: (include_tool_messages required ∅ rest []).1
           ++ final_loop fuel by_id
                (include_tool_messages required ∅ rest []).2 []
    else final_loop fuel by_id (skip_tool_messages required rest) [].
Proof.
  intros msg required. subst msg. cbn [final_loop]. fold required.
  destruct (negb _ && _ && _); simpl; [|done].
  case_bool_decide; [|done].
  rewrite include_tool_messages_final.
  rewrite final_loop_final. by rewrite <- app_assoc.
Qed.
End passes.

(** ** The fuel of the two outer loops

    Every iteration advances the index, so the length of the list is fuel
    enough: more fuel changes nothing. *)

Section fuel.
Implicit Types (l validated final : list BaseMessage).
Implicit Types (by_id : gmap string BaseMessage).

Lemma validate_loop_fuel fuel1 fuel2 by_id l validated :
  length l ≤ fuel1 → length l ≤ fuel2 →
  validate_loop fuel1 by_id l validated = validate_loop fuel2 by_id l validated.
Proof.
  revert fuel2 l validated.
  induction fuel1 as [|fuel1 IH]; intros fuel2 l validated Hlen1 Hlen2.
  { destruct l; [by destruct fuel2 | simpl in Hlen1; lia]. }
  destruct l as [|m rest]; [by destruct fuel2|].
  destruct fuel2 as [|fuel2]; simpl in Hlen1, Hlen2; [lia|].
  pose proof (skip_tool_messages_length) as Hskip.
  pose proof (collect_tool_messages_length) as Hcollect.
  destruct m as [c|c|c [|tc tcs]|c id|c]; cbn [validate_loop];
    rewrite ?if_same; try (apply IH; lia).
  destruct (bool_decide (required_ids (tc :: tcs) = ∅)); [apply IH; lia|].
  destruct (bool_decide (_ = ∅)).
  - specialize (Hcollect (required_ids (tc :: tcs)) ∅ rest
                  (validated ++ [AIMessage c (tc :: tcs)])).
    destruct (collect_tool_messages _ _ rest _) as [validated' rest'].
    simpl in Hcollect. apply IH; lia.
  - specialize (Hskip (required_ids (tc :: tcs)) rest). apply IH; lia.
Qed.

Lemma final_loop_fuel fuel1 fuel2 by_id l final :
  length l ≤ fuel1 → length l ≤ fuel2 →
  final_loop fuel1 by_id l final = final_loop fuel2 by_id l final.
Proof.
  revert fuel2 l final.
  induction fuel1 as [|fuel1 IH]; intros fuel2 l final Hlen1 Hlen2.
  { destruct l; [by destruct fuel2 | simpl in Hlen1; lia]. }
  destruct l as [|m rest]; [by destruct fuel2|].
  destruct fuel2 as [|fuel2]; simpl in Hlen1, Hlen2; [lia|].
  pose proof (skip_tool_messages_length) as Hskip.
  pose proof (include_tool_messages_length) as Hinclude.
  destruct m as [c|c|c [|tc tcs]|c id|c]; cbn [final_loop];
    rewrite ?if_same; try (apply IH; lia).
  specialize (Hskip (required_ids (tc :: tcs)) rest).
  destruct (negb _ && _ && _); [|apply IH; lia].
  destruct (bool_decide (_ = _)); [|apply IH; lia].
  specialize (Hinclude (required_ids (tc :: tcs)) ∅ rest
                (final ++ [AIMessage c (tc :: tcs)])).
  destruct (include_tool_messages _ _ rest _) as [final' rest'].
  simpl in Hinclude. apply IH; lia.
Qed.
End fuel.

(** ** The shape of the validated window *)

Section shape.
Implicit Types (l run : list BaseMessage).
Implicit Types (required included found : gset string).

Lemma shaped_head_not_tool l : shaped l → head_not_tool l.
Proof. by destruct 1. Qed.

Lemma atomic_shaped l : atomic l → shaped l.
Proof. induction 1; eauto using shaped. Qed.

Lemma tool_ids_app l1 l2 : tool_ids (l1 ++ l2) = tool_ids l1 ++ tool_ids l2.
Proof. apply omap_app. Qed.

Lemma collect_tool_messages_run required included l :
  let run := (collect_tool_messages required included l []).1 in
  Forall (λ msg, answers required msg = true) run
  ∧ NoDup (tool_ids run)
  ∧ ∀ id, id ∈ tool_ids run → id ∉ included.
Proof.
  revert included.
  induction l as [|m l IH]; intros included; simpl.
  { split_and!; [constructor | constructor | by intros id ?%elem_of_nil]. }
  destruct m as [c|c|c tcs|c id|c]; simpl;
    try (split_and!; [constructor | constructor | by intros id' ?%elem_of_nil]).
  destruct (truthy id && bool_decide (id ∈ required)) eqn:Hans; simpl;
    [|split_and!; [constructor | constructor | by intros id' ?%elem_of_nil]].
  destruct (bool_decide (id ∉ included)) eqn:Hincl; simpl.
  - apply bool_decide_eq_true in Hincl.
    rewrite collect_tool_messages_validated; simpl.
    destruct (IH (included ∪ {[id]})) as (Hall & Hnd & Hnew).
    split_and!.
    + constructor; [|done]. simpl. exact Hans.
    + constructor; [|done]. intros Hin. apply Hnew in Hin. set_solver.
    + intros id' [->|Hin]%elem_of_cons; [done|].
      apply Hnew in Hin. set_solver.
  - apply IH.
Qed.

Lemma skip_tool_messages_run required run l :
  Forall (λ msg, answers required msg = true) run → head_not_tool l →
  skip_tool_messages required (run ++ l) = l.
Proof.
  intros Hrun Hl. induction Hrun as [|m run Hm _ IH]; simpl.
  - destruct l as [|[] ?]; simplify_eq/=; done.
  - destruct m; simplify_eq/=. by rewrite Hm.
Qed.

Lemma scan_tool_messages_run required found run l :
  Forall (λ msg, answers required msg = true) run → head_not_tool l →
  scan_tool_messages required found (run ++ l)
  = found ∪ list_to_set (tool_ids run).
Proof.
  intros Hrun Hl. revert found.
  induction Hrun as [|m run Hm _ IH]; intros found; simpl.
  - destruct l as [|[] ?]; simplify_eq/=; set_solver.
  - destruct m; simplify_eq/=. rewrite Hm, IH. set_solver.
Qed.

Lemma include_tool_messages_run required included run l :
  tool_run required run → head_not_tool l →
  (∀ id, id ∈ tool_ids run → id ∉ included) →
  include_tool_messages required included (run ++ l) [] = (run, l).
Proof.
  intros [Hrun Hnd] Hl. revert included Hnd.
  induction Hrun as [|m run Hm _ IH]; intros included Hnd Hnew; simpl.
  - destruct l as [|[] ?]; simplify_eq/=; done.
  - destruct m as [| | |c id|]; simplify_eq/=. rewrite Hm; simpl.
    apply NoDup_cons in Hnd as [Hid Hnd].
    rewrite bool_decide_eq_true_2 by (apply Hnew; left).
    rewrite include_tool_messages_final, IH; [done..|].
    intros id' Hin. specialize (Hnew id' (list_elem_of_further _ _ _ Hin)).
    set_solver.
Qed.

Lemma validate_loop_shaped fuel by_id l :
  shaped (validate_loop fuel by_id l []).
Proof.
  revert l. induction fuel as [|fuel IH]; intros l; [constructor|].
  destruct l as [|m rest]; [constructor|].
  destruct m as [c|c|c [|tc tcs]|c id|c];
    try (rewrite validate_loop_plain by done; by constructor).
  - rewrite validate_loop_calls.
    case_bool_decide as Hreq.
    { apply (shaped_calls _ _ _ []); [|done].
      split; constructor. }
    case_bool_decide; [|done].
    apply shaped_calls; [|done].
    destruct (collect_tool_messages_run (required_ids (tc :: tcs)) ∅ rest)
      as (? & ? & _).
    by split.
  - by rewrite validate_loop_tool.
Qed.

Lemma final_loop_atomic fuel by_id l :
  shaped l → atomic (final_loop fuel by_id l []).
Proof.
  revert l. induction fuel as [|fuel IH]; intros l Hl; [constructor|].
  destruct Hl as [|m l Htool Hcalls Hl|c tc tcs run l Hrun Hl]; [constructor|..].
  - rewrite final_loop_plain by done. constructor; auto.
  - pose proof (shaped_head_not_tool _ Hl) as Hhead.
    rewrite final_loop_calls.
    destruct (negb _ && _ && _ && _) eqn:Hcond.
    + rewrite !andb_true_iff, negb_true_iff in Hcond.
      destruct Hcond as [[[Hne _] _] Hfound].
      apply bool_decide_eq_false in Hne. apply bool_decide_eq_true in Hfound.
      rewrite scan_tool_messages_run in Hfound by (done || apply Hrun).
      rewrite union_empty_l_L in Hfound.
      rewrite include_tool_messages_run by (done || set_solver); simpl.
      apply atomic_calls; auto.
    + rewrite skip_tool_messages_run by (done || apply Hrun). auto.
Qed.
End shape.

(** ** Both passes only remove messages *)

Section removal.
Implicit Types (l : list BaseMessage) (by_id : gmap string BaseMessage).

Lemma suffix_sublist l1 l2 : l1 `suffix_of` l2 → l1 `sublist_of` l2.
Proof. intros [k ->]. by apply sublist_inserts_l. Qed.

Lemma validate_loop_sublist fuel by_id l :
  validate_loop fuel by_id l [] `sublist_of` l.
Proof.
  revert l. induction fuel as [|fuel IH]; intros l; [apply sublist_nil_l|].
  destruct l as [|m rest]; [done|].
  destruct m as [c|c|c [|tc tcs]|c id|c];
    try (rewrite validate_loop_plain by done; by apply sublist_skip).
  - rewrite validate_loop_calls.
    repeat case_bool_decide.
    + by apply sublist_skip.
    + apply sublist_skip. by apply collect_tool_messages_sublist.
    + apply sublist_cons. etrans; [apply IH|].
      apply suffix_sublist, skip_tool_messages_suffix.
  - rewrite validate_loop_tool. by apply sublist_cons.
Qed.

Lemma final_loop_sublist fuel by_id l :
  final_loop fuel by_id l [] `sublist_of` l.
Proof.
  revert l. induction fuel as [|fuel IH]; intros l; [apply sublist_nil_l|].
  destruct l as [|m rest]; [done|].
  destruct m as [c|c|c [|tc tcs]|c id|c];
    try (rewrite final_loop_plain by done; by apply sublist_skip).
  - rewrite final_loop_calls.
    destruct (negb _ && _ && _ && _).
    + apply sublist_skip.
      rewrite <- (include_tool_messages_split (required_ids (tc :: tcs)) ∅ rest)
        at 3.
      by apply sublist_app.
    + apply sublist_cons. etrans; [apply IH|].
      apply suffix_sublist, skip_tool_messages_suffix.
  - rewrite final_loop_tool. by apply sublist_cons.
Qed.

Lemma validate_messages_sublist l : validate_messages l `sublist_of` l.
Proof. apply validate_loop_sublist. Qed.

Lemma final_clean_sublist l : final_clean l `sublist_of` l.
Proof. apply final_loop_sublist. Qed.

Lemma validate_messages_shaped l : shaped (validate_messages l).
Proof. apply validate_loop_shaped. Qed.

Lemma final_clean_atomic l : shaped l → atomic (final_clean l).
Proof. apply final_loop_atomic. Qed.
End removal.

(** ** Grouping covers the history *)

Section grouping.
Implicit Types (st : GroupState) (l : list BaseMessage).

Lemma close_sequence_concat st : concat (close_sequence st).*1 = held st.
Proof.
  unfold close_sequence, held.
  destruct (current_sequence st); simpl; [by rewrite app_nil_r|].
  rewrite fmap_app, concat_app; simpl. by rewrite app_nil_r.
Qed.

Lemma close_and_reset_held st : held (close_and_reset st) = held st.
Proof.
  unfold close_and_reset.
  destruct (current_sequence st) eqn:Hcur; simpl; [done|].
  unfold held at 1; simpl.
  by rewrite app_nil_r, close_sequence_concat.
Qed.

Lemma close_and_reset_current st : current_sequence (close_and_reset st) = [].
Proof.
  unfold close_and_reset. by destruct (current_sequence st) eqn:Hcur.
Qed.

Lemma group_step_held st msg : held (group_step st msg) = held st ++ [msg].
Proof.
  assert (Hsingle : held (mkGroupState
              (sequences (close_and_reset st) ++ [([msg], true)])
              (current_sequence (close_and_reset st))
              (pending_tool_call_ids (close_and_reset st)))
            = held st ++ [msg]).
  { rewrite <- (close_and_reset_held st). unfold held; simpl.
    rewrite fmap_app, concat_app, close_and_reset_current; simpl.
    by rewrite !app_nil_r. }
  destruct msg as [c|c|c [|tc tcs]|c id|c]; simpl; try exact Hsingle.
  - rewrite <- (close_and_reset_held st). unfold held; simpl.
    by rewrite app_assoc.
  - case_match; unfold held; simpl.
    + by rewrite app_assoc.
    + rewrite fmap_app, concat_app, close_sequence_concat; simpl.
      by rewrite !app_nil_r.
Qed.

Lemma foldl_group_step_held st l :
  held (foldl group_step st l) = held st ++ l.
Proof.
  revert st. induction l as [|m l IH]; intros st; simpl.
  - by rewrite app_nil_r.
  - by rewrite IH, group_step_held, <- app_assoc.
Qed.

(** Every message of the history is in exactly one group, in order. *)
Lemma group_messages_concat l : concat (group_messages l).*1 = l.
Proof.
  unfold group_messages, group_from.
  by rewrite close_sequence_concat, foldl_group_step_held.
Qed.
End grouping.

(** ** Size estimates *)

Section tokens.
Implicit Types (l : list BaseMessage).

Lemma get_message_tokens_nonneg msg : (0 ≤ get_message_tokens msg)%Z.
Proof.
  unfold get_message_tokens, chars_per_token.
  case_match; [|done]. apply Z.div_pos; lia.
Qed.

Lemma sum_tokens_nonneg l : (0 ≤ sum_tokens l)%Z.
Proof.
  induction l as [|m l IH]; simpl; [done|].
  pose proof (get_message_tokens_nonneg m). lia.
Qed.

Lemma sum_tokens_app l1 l2 :
  sum_tokens (l1 ++ l2) = (sum_tokens l1 + sum_tokens l2)%Z.
Proof. induction l1 as [|m l1 IH]; simpl; lia. Qed.

Lemma sum_tokens_reverse l : sum_tokens (reverse l) = sum_tokens l.
Proof.
  induction l as [|m l IH]; [done|].
  rewrite reverse_cons, sum_tokens_app; simpl. lia.
Qed.

Lemma sum_tokens_sublist l1 l2 :
  l1 `sublist_of` l2 → (sum_tokens l1 ≤ sum_tokens l2)%Z.
Proof.
  induction 1 as [|m l1 l2 _ IH|m l1 l2 _ IH]; simpl; [done|lia|].
  pose proof (get_message_tokens_nonneg m). lia.
Qed.
End tokens.

(** ** Selection *)

Section selection.
Context (max_messages max_tokens_approx : Z).
Implicit Types (st : SelectState).
Implicit Types (rsequences : list (list BaseMessage * bool)).

Abbreviation select := (select_loop max_messages max_tokens_approx).

(** The loop appends whole groups, in the order in which it meets them. *)
Lemma select_loop_chosen st rsequences :
  ∃ chosen, chosen `sublist_of` rsequences
    ∧ messages_to_add (select st rsequences)
      = messages_to_add st ++ concat chosen.*1.
Proof.
  revert st. induction rsequences as [|[seq is_complete] older IH]; intros st.
  { exists []. by rewrite app_nil_r. }
  simpl. repeat case_match.
  - destruct (IH st) as (chosen & Hsub & ->).
    exists chosen. split; [by apply sublist_cons | done].
  - destruct (IH st) as (chosen & Hsub & ->).
    exists chosen. split; [by apply sublist_cons | done].
  - match goal with |- context [select ?st' older] =>
      destruct (IH st') as (chosen & Hsub & ->) end.
    exists ((seq, is_complete) :: chosen).
    split; [by apply sublist_skip | simpl; by rewrite app_assoc].
  - exists []. split; [apply sublist_nil_l | by rewrite app_nil_r].
Qed.

Lemma select_loop_accounted system_tokens st rsequences :
  accounted system_tokens st →
  accounted system_tokens (select st rsequences).
Proof.
  revert st. induction rsequences as [|[seq is_complete] older IH];
    intros st Hst; simpl; [done|].
  repeat case_match; auto.
  apply IH. destruct Hst as [Hcount Htotal]. split; simpl.
  - rewrite length_app. lia.
  - rewrite sum_tokens_app. lia.
Qed.

Lemma select_loop_within st rsequences :
  within max_messages max_tokens_approx st →
  within max_messages max_tokens_approx (select st rsequences).
Proof.
  revert st. induction rsequences as [|[seq is_complete] older IH];
    intros st Hst; simpl; [done|].
  repeat case_match; auto.
  apply IH. right; simpl.
  match goal with H : fits _ _ _ _ = true |- _ =>
    unfold fits in H; apply andb_true_iff in H; destruct H end.
  lia.
Qed.

Lemma select_messages_budget system_tokens sequences :
  let selected :=
    select_messages max_messages max_tokens_approx system_tokens sequences in
  selected = []
  ∨ (Z.of_nat (length selected) ≤ max_messages
     ∧ system_tokens + sum_tokens selected ≤ max_tokens_approx)%Z.
Proof.
  unfold select_messages.
  set (st := select _ _).
  assert (Hacc : accounted system_tokens st).
  { apply select_loop_accounted. split; simpl; lia. }
  assert (Hin : within max_messages max_tokens_approx st).
  { apply select_loop_within. by left. }
  simpl. destruct Hacc as [Hcount Htotal], Hin as [Hnil|[Hn Ht]].
  - left. by rewrite Hnil.
  - right. rewrite length_reverse, sum_tokens_reverse. lia.
Qed.

Lemma select_messages_Forall (P : BaseMessage → Prop) system_tokens sequences :
  Forall P (concat sequences.*1) →
  Forall P (select_messages max_messages max_tokens_approx
              system_tokens sequences).
Proof.
  intros HP. unfold select_messages.
  destruct (select_loop_chosen (mkSelectState [] system_tokens 0)
              (reverse sequences)) as (chosen & Hsub & ->); simpl.
  apply Forall_reverse, Forall_concat.
  apply Forall_concat in HP.
  rewrite Forall_forall in HP. rewrite Forall_forall. intros seq Hseq.
  apply HP.
  apply list_elem_of_fmap in Hseq as (g & -> & Hg).
  apply list_elem_of_fmap. exists g. split; [done|].
  apply elem_of_reverse. by eapply elem_of_sublist.
Qed.
End selection.

(** ** The window *)

Section window.
Implicit Types (messages l : list BaseMessage).
Implicit Types (system_message : option Content).

Lemma Forall_sublist_of {A} (P : A → Prop) (l1 l2 : list A) :
  l1 `sublist_of` l2 → Forall P l2 → Forall P l1.
Proof.
  rewrite !Forall_forall. intros Hsub HP x Hx.
  apply HP. by eapply elem_of_sublist.
Qed.

Lemma filter_not_system messages :
  Forall (λ msg, is_system msg = false)
    (filter (λ msg, is_system msg = false) messages).
Proof.
  apply Forall_forall. intros m Hm.
  by apply list_elem_of_filter in Hm as [? _].
Qed.

Lemma selected_not_system messages max_messages max_tokens_approx system_tokens :
  Forall (λ msg, is_system msg = false)
    (select_messages max_messages max_tokens_approx system_tokens
       (group_messages (filter (λ msg, is_system msg = false) messages))).
Proof.
  apply select_messages_Forall.
  rewrite group_messages_concat. apply filter_not_system.
Qed.

Lemma window_body_not_system messages system_message max_messages max_tokens_approx :
  Forall (λ msg, is_system msg = false)
    (window_body messages system_message max_messages max_tokens_approx).
Proof.
  unfold window_body.
  eapply Forall_sublist_of; [apply final_clean_sublist|].
  eapply Forall_sublist_of; [apply validate_messages_sublist|].
  apply selected_not_system.
Qed.

(** The result is the system message, when there is one, followed by the
    window body. *)
Lemma truncate_messages_window messages system_message max_messages max_tokens_approx :
  truncate_messages messages system_message max_messages max_tokens_approx
  = initial_result system_message
    ++ window_body messages system_message max_messages max_tokens_approx.
Proof.
  unfold truncate_messages, window_body.
  destruct (is_empty_list _) eqn:Hempty.
  { destruct (filter _ messages); [|done]. simpl. by rewrite app_nil_r. }
  destruct system_message as [c|]; simpl; [done|].
  set (validated := validate_messages _).
  assert (Hns : Forall (λ msg, is_system msg = false) validated).
  { eapply Forall_sublist_of; [apply validate_messages_sublist|].
    apply selected_not_system. }
  destruct Hns as [|[] ? Hm _]; simplify_eq/=; done.
Qed.

Lemma window_body_atomic messages system_message max_messages max_tokens_approx :
  atomic (window_body messages system_message max_messages max_tokens_approx).
Proof. apply final_clean_atomic, validate_messages_shaped. Qed.

Lemma truncate_messages_atomic messages system_message max_messages max_tokens_approx :
  atomic (truncate_messages messages system_message
            max_messages max_tokens_approx).
Proof.
  rewrite truncate_messages_window.
  destruct system_message as [c|]; simpl.
  - apply atomic_plain; [done..|]. apply window_body_atomic.
  - apply window_body_atomic.
Qed.

(** The body never exceeds the selection, in length or in size. *)
Lemma window_body_budget messages system_message max_messages max_tokens_approx :
  let body :=
    window_body messages system_message max_messages max_tokens_approx in
  body = []
  ∨ (Z.of_nat (length body) ≤ max_messages
     ∧ system_tokens_of system_message + sum_tokens body
       ≤ max_tokens_approx)%Z.
Proof.
  unfold window_body.
  set (selected := select_messages _ _ _ _).
  assert (Hsub : final_clean (validate_messages selected) `sublist_of` selected).
  { etrans; [apply final_clean_sublist | apply validate_messages_sublist]. }
  pose proof (select_messages_budget max_messages max_tokens_approx
                (system_tokens_of system_message)
                (group_messages (filter (λ msg, is_system msg = false) messages)))
    as Hbudget.
  cbv zeta in Hbudget. fold selected in Hbudget.
  destruct Hbudget as [Hnil|[Hn Ht]].
  - left. apply sublist_nil_r. by rewrite <- Hnil.
  - right. pose proof (sublist_length _ _ Hsub).
    pose proof (sum_tokens_sublist _ _ Hsub). simpl. lia.
Qed.
End window.

(** ** Nothing is made up *)

Section elements.
Implicit Types (messages : list BaseMessage).

(** Every message of the result is the system message or a message of the
    history. *)
Lemma truncate_messages_elements messages system_message
    max_messages max_tokens_approx msg :
  msg ∈ truncate_messages messages system_message
          max_messages max_tokens_approx →
  msg ∈ initial_result system_message ∨ msg ∈ messages.
Proof.
  rewrite truncate_messages_window.
  intros [Hin|Hin]%elem_of_app; [by left|right].
  unfold window_body in Hin.
  eapply elem_of_sublist in Hin; [|apply final_clean_sublist].
  eapply elem_of_sublist in Hin; [|apply validate_messages_sublist].
  revert msg Hin. apply Forall_forall.
  apply select_messages_Forall. rewrite group_messages_concat.
  apply Forall_forall. by intros m [_ ?]%list_elem_of_filter.
Qed.
End elements.

(** ** The tool-calling contract *)

Section contract.
Implicit Types (l run out : list BaseMessage).

Lemma tool_ids_elem_of id l :
  id ∈ tool_ids l ↔ ∃ c, ToolMessage c id ∈ l.
Proof.
  unfold tool_ids. rewrite list_elem_of_omap. split.
  - intros ([] & Hin & Hid); simplify_eq/=. eauto.
  - intros (c & Hin). by exists (ToolMessage c id).
Qed.

Lemma answers_tool required msg :
  answers required msg = true →
  ∃ c id, msg = ToolMessage c id ∧ truthy id = true ∧ id ∈ required.
Proof.
  destruct msg as [| | |c id|]; simpl; try done.
  intros [? ?%bool_decide_eq_true]%andb_true_iff. eauto.
Qed.

Lemma atomic_calls_answered l : atomic l → calls_answered l.
Proof.
  induction 1 as [|m l Htool Hcalls _ IH|c tc tcs run l Hrun Hids Hne _ IH];
    intros msg id Hin Hhas Hid.
  - by apply elem_of_nil in Hin.
  - apply elem_of_cons in Hin as [->|Hin]; [congruence|].
    destruct (IH msg id Hin Hhas Hid) as [c' ?].
    exists c'. by right.
  - apply elem_of_cons in Hin as [->|Hin].
    + simpl in Hid. rewrite <- Hids in Hid.
      apply elem_of_list_to_set, tool_ids_elem_of in Hid as [c' Hin].
      exists c'. right. apply elem_of_app. by left.
    + apply elem_of_app in Hin as [Hin|Hin].
      * destruct Hrun as [Hrun _]. rewrite Forall_forall in Hrun.
        apply Hrun, answers_tool in Hin as (? & ? & -> & _). done.
      * destruct (IH msg id Hin Hhas Hid) as [c' ?].
        exists c'. right. apply elem_of_app. by right.
Qed.

Lemma atomic_results_issued l : atomic l → results_issued l.
Proof.
  induction 1 as [|m l Htool Hcalls Hl IH|c tc tcs run l Hrun Hids Hne Hl IH];
    intros earlier c' id later Heq.
  - by destruct earlier.
  - destruct earlier as [|m' earlier]; simplify_eq/=.
    destruct (IH _ _ _ _ eq_refl) as (msg & ? & ? & ?).
    exists msg. split; [by right | done].
  - destruct earlier as [|m' earlier]; simplify_eq/=.
    match goal with H : run ++ l = _ |- _ =>
      apply app_eq_app in H as [k [[Hr Hk]|[He Hk]]] end.
    + destruct k as [|t k]; simplify_eq/=.
      * apply atomic_shaped, shaped_head_not_tool in Hl. done.
      * destruct Hrun as [Hrun _].
        apply Forall_app in Hrun as [_ Hrun].
        apply Forall_cons in Hrun as [Hans _].
        apply answers_tool in Hans as (? & ? & ? & _ & ?); simplify_eq.
        eexists. split; [by left | done].
    + subst. destruct (IH _ _ _ _ eq_refl) as (msg & ? & ? & ?).
      exists msg. split; [|done].
      right. apply elem_of_app. by right.
Qed.

Lemma atomic_no_repeated_result l : atomic l → no_repeated_result l.
Proof.
  induction 1 as [|m l Htool Hcalls Hl IH|c tc tcs run l Hrun Hids Hne Hl IH];
    intros earlier c1 c2 id later Heq.
  - by destruct earlier.
  - destruct earlier as [|m' earlier]; simplify_eq/=. by eapply IH.
  - destruct earlier as [|m' earlier]; simplify_eq/=.
    match goal with H : run ++ l = _ |- _ =>
      apply app_eq_app in H as [k [[Hr Hk]|[He Hk]]] end.
    + apply atomic_shaped, shaped_head_not_tool in Hl.
      destruct k as [|t1 [|t2 k]]; simplify_eq/=.
      * destruct Hrun as [_ Hnd].
        rewrite tool_ids_app in Hnd. simpl in Hnd.
        apply NoDup_app in Hnd as (_ & _ & Hnd).
        apply NoDup_cons in Hnd as [Hnd _]. apply Hnd. by left.
    + subst. by eapply IH.
Qed.
End contract.

(** C1 (atomicity): whatever the history, the system message and the budgets,
    every assistant message with tool calls of the result has each id it
    declares answered by a tool message of the result, and every tool message
    of the result comes after an assistant message of the result that declares
    its id. *)
Theorem truncate_messages_atomicity messages system_message
    max_messages max_tokens_approx :
  let out := truncate_messages messages system_message
               max_messages max_tokens_approx in
  calls_answered out ∧ results_issued out.
Proof.
  pose proof (truncate_messages_atomic messages system_message
                max_messages max_tokens_approx).
  split; [by apply atomic_calls_answered | by apply atomic_results_issued].
Qed.

(** C8 (system message): when a system message is supplied it is the first
    element of the result, whatever else is kept, and no other element of the
    result is a system message. *)
Theorem truncate_messages_system_first messages content
    max_messages max_tokens_approx :
  ∃ body,
    truncate_messages messages (Some content) max_messages max_tokens_approx
    = SystemMessage content :: body
    ∧ Forall (λ msg, is_system msg = false) body.
Proof.
  eexists. split; [by rewrite truncate_messages_window|].
  apply window_body_not_system.
Qed.

(** C5 (budgets), as amended: either nothing is selected and the result is the
    system message alone (or empty without one), or the result has at most
    [max_messages] messages besides the system message and its estimated size,
    system message included, is at most [max_tokens_approx]. No group is
    exempt from the budgets. *)
Theorem truncate_messages_budget messages system_message
    max_messages max_tokens_approx :
  let out := truncate_messages messages system_message
               max_messages max_tokens_approx in
  out = initial_result system_message
  ∨ (Z.of_nat (length out - length (initial_result system_message))
       ≤ max_messages
     ∧ sum_tokens out ≤ max_tokens_approx)%Z.
Proof.
  cbv zeta. rewrite truncate_messages_window.
  destruct (window_body_budget messages system_message
              max_messages max_tokens_approx) as [->|[Hn Ht]].
  - left. by rewrite app_nil_r.
  - right. rewrite length_app, sum_tokens_app.
    replace (sum_tokens (initial_result system_message))
      with (system_tokens_of system_message)
      by (destruct system_message; simpl; lia).
    split; [|done].
    by replace (length (initial_result system_message) + _
                - length (initial_result system_message))
      with (length (window_body messages system_message
                      max_messages max_tokens_approx)) by lia.
Qed.

(** C5, counterexample to the claim as stated: with a size budget of 1 the
    eight-character system message (estimate 2) is returned alone; the
    estimate of the result exceeds the budget, and the result is not the
    newest group either. *)
Lemma truncate_messages_budget_counterexample :
  let messages := [HumanMessage (ContentStr "hi")] in
  let system := ContentStr "You are." in
  let out := truncate_messages messages (Some system) 10 1 in
  ¬ ((Z.of_nat (length out - 1) ≤ 10 ∧ sum_tokens out ≤ 1)%Z
     ∨ out = SystemMessage system :: messages).
Proof.
  vm_compute. intros [[_ Hsize]|Heq]; [by apply Hsize | discriminate].
Qed.

(** ** A trailing plain message *)

Section trailing.
Implicit Types (l rest : list BaseMessage) (msg : BaseMessage).
Implicit Types (required included found : gset string).
Implicit Types (by_id : gmap string BaseMessage).

Lemma plain_inv msg :
  plain msg = true → is_tool msg = false ∧ has_tool_calls msg = false.
Proof.
  unfold plain. rewrite andb_true_iff, !negb_true_iff. done.
Qed.

Lemma skip_tool_messages_snoc required l msg :
  is_tool msg = false →
  skip_tool_messages required (l ++ [msg])
  = skip_tool_messages required l ++ [msg].
Proof.
  intros Hmsg. induction l as [|m l IH]; simpl.
  - by destruct msg.
  - destruct m; try done. by case_match.
Qed.

Lemma collect_tool_messages_snoc required included l msg :
  is_tool msg = false →
  collect_tool_messages required included (l ++ [msg]) []
  = ((collect_tool_messages required included l []).1,
     (collect_tool_messages required included l []).2 ++ [msg]).
Proof.
  intros Hmsg. revert included.
  induction l as [|m l IH]; intros included; simpl.
  - by destruct msg.
  - destruct m; try done.
    repeat case_match; simplify_eq/=; try done.
    rewrite collect_tool_messages_validated, IH; simpl.
    by rewrite (collect_tool_messages_validated _ _ l [_]).
Qed.

Lemma scan_tool_messages_snoc required found l msg :
  is_tool msg = false →
  scan_tool_messages required found (l ++ [msg])
  = scan_tool_messages required found l.
Proof.
  intros Hmsg. revert found.
  induction l as [|m l IH]; intros found; simpl.
  - by destruct msg.
  - by destruct m.
Qed.

Lemma include_tool_messages_snoc required included l msg :
  is_tool msg = false →
  include_tool_messages required included (l ++ [msg]) []
  = ((include_tool_messages required included l []).1,
     (include_tool_messages required included l []).2 ++ [msg]).
Proof.
  intros Hmsg. revert included.
  induction l as [|m l IH]; intros included; simpl.
  - by destruct msg.
  - destruct m; try done.
    case_match; simplify_eq/=; try done.
    rewrite include_tool_messages_final, IH; simpl.
    by rewrite (include_tool_messages_final _ _ l [_]).
Qed.

Lemma index_tool_messages_snoc l msg :
  is_tool msg = false →
  index_tool_messages (l ++ [msg]) = index_tool_messages l.
Proof.
  intros Hmsg. unfold index_tool_messages.
  rewrite foldl_app; simpl. by destruct msg.
Qed.

Lemma validate_loop_nil fuel by_id : validate_loop fuel by_id [] [] = [].
Proof. by destruct fuel. Qed.

Lemma final_loop_nil fuel by_id : final_loop fuel by_id [] [] = [].
Proof. by destruct fuel. Qed.

Lemma validate_loop_snoc fuel by_id l msg :
  plain msg = true → length l ≤ fuel →
  validate_loop (S fuel) by_id (l ++ [msg]) []
  = validate_loop fuel by_id l [] ++ [msg].
Proof.
  intros [Htool Hcalls]%plain_inv. revert l.
  induction fuel as [|fuel IH]; intros l Hlen.
  { destruct l; [|simpl in Hlen; lia].
    simpl app. rewrite validate_loop_plain by done. done. }
  destruct l as [|m rest].
  { simpl app. rewrite validate_loop_plain, !validate_loop_nil by done. done. }
  simpl in Hlen. rewrite <- app_comm_cons.
  destruct m as [c|c|c [|tc tcs]|c id|c];
    try (rewrite !validate_loop_plain by done;
         rewrite IH by lia; done).
  - rewrite !validate_loop_calls.
    repeat case_bool_decide.
    + rewrite IH by lia. done.
    + rewrite collect_tool_messages_snoc by done; cbn [fst snd].
      rewrite IH; [by rewrite app_comm_cons, app_assoc|].
      pose proof (collect_tool_messages_length
                    (required_ids (tc :: tcs)) ∅ rest []). lia.
    + rewrite skip_tool_messages_snoc by done.
      apply IH.
      pose proof (skip_tool_messages_length (required_ids (tc :: tcs)) rest).
      lia.
  - rewrite !validate_loop_tool. apply IH. lia.
Qed.

Lemma final_loop_snoc fuel by_id l msg :
  plain msg = true → length l ≤ fuel →
  final_loop (S fuel) by_id (l ++ [msg]) []
  = final_loop fuel by_id l [] ++ [msg].
Proof.
  intros [Htool Hcalls]%plain_inv. revert l.
  induction fuel as [|fuel IH]; intros l Hlen.
  { destruct l; [|simpl in Hlen; lia].
    simpl app. rewrite final_loop_plain by done. done. }
  destruct l as [|m rest].
  { simpl app. rewrite final_loop_plain, !final_loop_nil by done. done. }
  simpl in Hlen. rewrite <- app_comm_cons.
  destruct m as [c|c|c [|tc tcs]|c id|c];
    try (rewrite !final_loop_plain by done;
         rewrite IH by lia; done).
  - rewrite !final_loop_calls.
    rewrite scan_tool_messages_snoc by done.
    destruct (negb _ && _ && _ && _).
    + rewrite include_tool_messages_snoc by done; cbn [fst snd].
      rewrite IH; [by rewrite app_comm_cons, app_assoc|].
      pose proof (include_tool_messages_length
                    (required_ids (tc :: tcs)) ∅ rest []). lia.
    + rewrite skip_tool_messages_snoc by done.
      apply IH.
      pose proof (skip_tool_messages_length (required_ids (tc :: tcs)) rest).
      lia.
  - rewrite !final_loop_tool. apply IH. lia.
Qed.

(** Both passes keep a plain message that ends the list. *)
Lemma validate_messages_snoc l msg :
  plain msg = true →
  validate_messages (l ++ [msg]) = validate_messages l ++ [msg].
Proof.
  intros Hmsg. unfold validate_messages.
  rewrite index_tool_messages_snoc by (by apply plain_inv in Hmsg as [? _]).
  rewrite length_app, Nat.add_1_r. by apply validate_loop_snoc.
Qed.

Lemma final_clean_snoc l msg :
  plain msg = true →
  final_clean (l ++ [msg]) = final_clean l ++ [msg].
Proof.
  intros Hmsg. unfold final_clean.
  rewrite index_tool_messages_snoc by (by apply plain_inv in Hmsg as [? _]).
  rewrite length_app, Nat.add_1_r. by apply final_loop_snoc.
Qed.

(** Both passes leave a list of plain messages as it is. *)
Lemma validate_messages_plain l :
  Forall (λ msg, plain msg = true) l → validate_messages l = l.
Proof.
  induction l as [|msg l IH] using rev_ind; [intros _; reflexivity|].
  intros [Hl Hmsg]%Forall_app. apply Forall_inv in Hmsg.
  rewrite validate_messages_snoc, IH by done. done.
Qed.

Lemma final_clean_plain l :
  Forall (λ msg, plain msg = true) l → final_clean l = l.
Proof.
  induction l as [|msg l IH] using rev_ind; [intros _; reflexivity|].
  intros [Hl Hmsg]%Forall_app. apply Forall_inv in Hmsg.
  rewrite final_clean_snoc, IH by done. done.
Qed.
End trailing.

(** ** Histories of plain messages *)

Section plain_history.
Context (max_messages max_tokens_approx : Z).
Implicit Types (l r : list BaseMessage) (msg : BaseMessage).
Implicit Types (st : SelectState).

Lemma close_and_reset_sequences gst :
  sequences (close_and_reset gst) = close_sequence gst.
Proof.
  unfold close_and_reset, close_sequence.
  by destruct (current_sequence gst).
Qed.

Lemma group_step_plain gst msg :
  plain msg = true →
  close_sequence (group_step gst msg) = close_sequence gst ++ [single msg].
Proof.
  intros Hmsg.
  destruct msg as [c|c|c [|tc tcs]|c id|c]; simplify_eq/=;
    unfold close_sequence at 1; simpl;
    by rewrite close_and_reset_current, close_and_reset_sequences.
Qed.

Lemma group_messages_snoc l msg :
  plain msg = true →
  group_messages (l ++ [msg]) = group_messages l ++ [single msg].
Proof.
  intros Hmsg. unfold group_messages, group_from.
  rewrite foldl_app. simpl. by apply group_step_plain.
Qed.

Lemma group_messages_plain l :
  Forall (λ msg, plain msg = true) l → group_messages l = single <$> l.
Proof.
  induction l as [|msg l IH] using rev_ind; [intros _; reflexivity|].
  intros [Hl Hmsg]%Forall_app. apply Forall_inv in Hmsg.
  by rewrite group_messages_snoc, IH, fmap_app.
Qed.

(** On one-message groups within the ceiling the scan takes the newest
    messages and stops at the first one that does not fit. *)
Lemma select_loop_singles r st :
  Forall within_ceiling r →
  ∃ k,
    messages_to_add
      (select_loop max_messages max_tokens_approx st (single <$> r))
    = messages_to_add st ++ take k r
    ∧ (k = length r
       ∨ ∃ msg, r !! k = Some msg
           ∧ ¬ (message_count st + Z.of_nat k + 1 ≤ max_messages
                ∧ total_tokens_approx st + sum_tokens (take k r)
                  + get_message_tokens msg ≤ max_tokens_approx)%Z).
Proof.
  intros Hr. revert st.
  induction Hr as [|msg r Hmsg _ IH]; intros st.
  { exists 0. split; [by rewrite app_nil_r | by left]. }
  cbn [fmap list_fmap single select_loop negb andb].
  unfold has_oversized; cbn [existsb].
  unfold within_ceiling in Hmsg.
  rewrite (proj2 (Z.ltb_ge _ _) Hmsg); cbn [orb andb].
  destruct (fits _ _ st [msg]) eqn:Hfits.
  - match goal with |- context [select_loop _ _ ?st1 _] =>
      destruct (IH st1) as (k & Hk & Hstop) end.
    exists (S k). simpl in *. split.
    { by rewrite Hk, <- app_assoc. }
    destruct Hstop as [->|(m' & Hm' & Hno)]; [by left|right].
    exists m'. split; [done|]. lia.
  - exists 0. simpl. split; [by rewrite app_nil_r|right].
    exists msg. split; [done|].
    unfold fits in Hfits. simpl in Hfits.
    apply andb_false_iff in Hfits as [Hf|Hf]; apply Z.leb_gt in Hf; lia.
Qed.
End plain_history.

Section simple_history.
Context (system_message : option Content) (max_messages max_tokens_approx : Z).
Implicit Types (history : list BaseMessage).

Lemma simple_turn_plain msg : simple_turn msg = true → plain msg = true.
Proof. by destruct msg as [| |? []| |]. Qed.

Lemma simple_turn_not_system msg : simple_turn msg = true → is_system msg = false.
Proof. by destruct msg. Qed.

Lemma filter_simple history :
  Forall (λ msg, simple_turn msg = true) history →
  filter (λ msg, is_system msg = false) history = history.
Proof.
  induction 1 as [|msg history Hmsg _ IH]; [done|].
  rewrite filter_cons_True by by apply simple_turn_not_system.
  by rewrite IH.
Qed.

(** The window of a history of simple turns within the ceiling is a suffix
    of the history, and the turn before that suffix did not fit. *)
Lemma window_body_simple history :
  Forall (λ msg, simple_turn msg = true) history →
  Forall within_ceiling history →
  ∃ j,
    window_body history system_message max_messages max_tokens_approx
    = drop j history
    ∧ (j = 0
       ∨ ∃ j' msg, j = S j' ∧ history !! j' = Some msg
           ∧ ¬ (Z.of_nat (length (drop j history)) + 1 ≤ max_messages
                ∧ system_tokens_of system_message
                  + sum_tokens (drop j history)
                  + get_message_tokens msg ≤ max_tokens_approx)%Z).
Proof.
  intros Hsimple Hceiling.
  assert (Hplain : Forall (λ msg, plain msg = true) history).
  { eapply Forall_impl; [exact Hsimple|]. apply simple_turn_plain. }
  unfold window_body, select_messages.
  rewrite filter_simple, group_messages_plain by done.
  rewrite <- fmap_reverse.
  destruct (select_loop_singles max_messages max_tokens_approx
              (reverse history)
              (mkSelectState [] (system_tokens_of system_message) 0))
    as (k & -> & Hstop).
  { by apply Forall_reverse. }
  simpl in *.
  rewrite reverse_take, reverse_involutive, length_reverse.
  rewrite length_reverse in Hstop.
  set (j := length history - k).
  assert (Hdrop : Forall (λ msg, plain msg = true) (drop j history)).
  { by apply Forall_drop. }
  rewrite validate_messages_plain, final_clean_plain by done.
  exists j. split; [done|].
  destruct Hstop as [->|(msg & Hmsg & Hno)]; [left; subst j; lia | right].
  pose proof (lookup_lt_Some _ _ _ Hmsg) as Hk.
  rewrite length_reverse in Hk.
  rewrite reverse_lookup in Hmsg by done.
  exists (length history - S k), msg.
  split; [subst j; lia|]. split; [done|].
  replace (sum_tokens (drop j history))
    with (sum_tokens (take k (reverse history))).
  2:{ rewrite <- sum_tokens_reverse, reverse_take, reverse_involutive.
      by rewrite length_reverse. }
  rewrite length_drop. subst j.
  replace (Z.of_nat (length history - (length history - k)))
    with (Z.of_nat k) by lia.
  exact Hno.
Qed.
End simple_history.

(** C6 (simple histories): for a history of simple user and assistant turns,
    each within the per-message ceiling, the result is the system message (when
    supplied) followed by a suffix of the history, and the turn just before
    that suffix was refused by one of the budgets: nothing older than a refused
    turn is kept. When moreover the whole history fits the size budget and
    [max_messages] is smaller than the length of the history, that suffix
    consists of exactly the [max_messages] most recent turns, in order. *)
Theorem truncate_messages_simple_history history system_message
    max_messages max_tokens_approx :
  Forall (λ msg, simple_turn msg = true) history →
  Forall within_ceiling history →
  let out := truncate_messages history system_message
               max_messages max_tokens_approx in
  (∃ j,
     out = initial_result system_message ++ drop j history
     ∧ (j = 0
        ∨ ∃ j' msg, j = S j' ∧ history !! j' = Some msg
            ∧ ¬ (Z.of_nat (length (drop j history)) + 1 ≤ max_messages
                 ∧ system_tokens_of system_message
                   + sum_tokens (drop j history)
                   + get_message_tokens msg ≤ max_tokens_approx)%Z))
  ∧ ((system_tokens_of system_message + sum_tokens history
        ≤ max_tokens_approx)%Z →
     (max_messages < Z.of_nat (length history))%Z →
     out = initial_result system_message
           ++ drop (length history - Z.to_nat max_messages) history).
Proof.
  intros Hsimple Hceiling. cbv zeta.
  rewrite truncate_messages_window.
  destruct (window_body_simple system_message max_messages max_tokens_approx
              history Hsimple Hceiling) as (j & Hbody & Hstop).
  split; [exists j; by rewrite Hbody|].
  intros Hsize Hcount. f_equal. rewrite Hbody.
  pose proof (window_body_budget history system_message
                max_messages max_tokens_approx) as Hbudget.
  cbv zeta in Hbudget. rewrite Hbody in Hbudget.
  destruct Hstop as [->|(j' & msg & -> & Hmsg & Hno)].
  - rewrite drop_0 in Hbudget. destruct Hbudget as [Hnil|[Hn _]]; [|lia].
    by rewrite Hnil.
  - pose proof (lookup_lt_Some _ _ _ Hmsg) as Hj'.
    assert (Hsum : (sum_tokens (drop (S j') history) + get_message_tokens msg
                    ≤ sum_tokens history)%Z).
    { rewrite <- (take_drop_middle history j' msg) at 2 by done.
      rewrite sum_tokens_app; simpl.
      pose proof (sum_tokens_nonneg (take j' history)). lia. }
    rewrite length_drop in Hno, Hbudget.
    destruct Hbudget as [Hnil|[Hn _]].
    + apply (f_equal length) in Hnil. rewrite length_drop in Hnil. simpl in Hnil.
      replace (Z.to_nat max_messages) with 0 by lia.
      by rewrite Nat.sub_0_r, drop_all, (nil_length_inv (drop (S j') history))
        by (rewrite length_drop; lia).
    + f_equal. lia.
Qed.

(** C6, instance: three simple turns and [max_messages = 2]. *)
Lemma truncate_messages_simple_history_witness :
  let history := [HumanMessage (ContentStr "q1");
                  AIMessage (ContentStr "a1") [];
                  HumanMessage (ContentStr "q2")] in
  Forall (λ msg, simple_turn msg = true) history
  ∧ Forall within_ceiling history
  ∧ truncate_messages history (Some (ContentStr "You are.")) 2 100000
    = [SystemMessage (ContentStr "You are.");
       AIMessage (ContentStr "a1") [];
       HumanMessage (ContentStr "q2")].
Proof.
  intros history.
  assert (Hsimple : Forall (λ msg, simple_turn msg = true) history)
    by (repeat constructor).
  assert (Hceiling : Forall within_ceiling history)
    by (repeat constructor; vm_compute; discriminate).
  split_and!; [done..|].
  destruct (truncate_messages_simple_history history
              (Some (ContentStr "You are.")) 2 100000 Hsimple Hceiling)
    as [_ Hexact].
  apply Hexact; vm_compute; done.
Defined.

(** ** The newest turn *)

Section newest.
Context (system_message : option Content) (max_messages max_tokens_approx : Z).
Implicit Types (older : list BaseMessage) (msg : BaseMessage).

(** With nothing accepted yet, the ceiling test is void: a group that is not
    an incomplete tool-call sequence is accepted exactly when it fits. *)
Lemma select_loop_first st seq is_complete rest :
  messages_to_add st = [] →
  negb is_complete && has_ai_with_tool_calls seq = false →
  select_loop max_messages max_tokens_approx st ((seq, is_complete) :: rest)
  = if fits max_messages max_tokens_approx st seq
    then select_loop max_messages max_tokens_approx
           (mkSelectState (messages_to_add st ++ seq)
                          (total_tokens_approx st + sum_tokens seq)
                          (message_count st + Z.of_nat (length seq)))
           rest
    else st.
Proof.
  intros Hempty Hcomplete. simpl.
  by rewrite Hcomplete, Hempty, andb_false_r.
Qed.

Lemma window_body_newest older msg :
  is_system msg = false → plain msg = true →
  let body := window_body (older ++ [msg]) system_message
                max_messages max_tokens_approx in
  if (1 <=? max_messages)%Z
     && (system_tokens_of system_message + get_message_tokens msg
         <=? max_tokens_approx)%Z
  then last body = Some msg
  else body = [].
Proof.
  intros Hsys Hplain. unfold window_body, select_messages.
  rewrite filter_app, filter_cons_True, filter_nil by done.
  rewrite group_messages_snoc, reverse_snoc by done.
  unfold single. rewrite select_loop_first by done.
  unfold fits; simpl.
  replace (get_message_tokens msg + 0)%Z with (get_message_tokens msg) by lia.
  destruct (_ && _); [|reflexivity].
  match goal with |- context [select_loop _ _ ?st ?rest] =>
    destruct (select_loop_chosen max_messages max_tokens_approx st rest)
      as (chosen & _ & ->) end.
  simpl. rewrite reverse_cons.
  rewrite validate_messages_snoc, final_clean_snoc by done.
  apply last_snoc.
Qed.
End newest.

(** C2 (oversized turn, nothing accepted yet), as amended: the ceiling test is
    then not applied, but the two budgets still are, so the group is accepted
    exactly when it fits them. In particular, when the newest turn of the
    history is a plain turn, of whatever size, the result ends with it if
    [1 ≤ max_messages] and its size added to the system message's is within
    [max_tokens_approx]; otherwise the result is the system message alone. *)
Theorem truncate_messages_newest_turn system_message
    max_messages max_tokens_approx :
  (∀ st seq rest,
     messages_to_add st = [] →
     select_loop max_messages max_tokens_approx st ((seq, true) :: rest)
     = if fits max_messages max_tokens_approx st seq
       then select_loop max_messages max_tokens_approx
              (mkSelectState (messages_to_add st ++ seq)
                             (total_tokens_approx st + sum_tokens seq)
                             (message_count st + Z.of_nat (length seq)))
              rest
       else st)
  ∧ (∀ older msg,
       is_system msg = false → plain msg = true →
       let out := truncate_messages (older ++ [msg]) system_message
                    max_messages max_tokens_approx in
       if (1 <=? max_messages)%Z
          && (system_tokens_of system_message + get_message_tokens msg
              <=? max_tokens_approx)%Z
       then last out = Some msg
       else out = initial_result system_message).
Proof.
  split.
  - intros st seq rest Hempty. by apply select_loop_first.
  - intros older msg Hsys Hplain. cbv zeta.
    rewrite truncate_messages_window.
    pose proof (window_body_newest system_message max_messages
                  max_tokens_approx older msg Hsys Hplain) as Hbody.
    cbv zeta in Hbody.
    destruct (_ && _).
    + by rewrite last_app, Hbody.
    + by rewrite Hbody, app_nil_r.
Qed.

(** ** Long contents *)

Section long_contents.
Lemma text_of_length_length n : String.length (text_of_length n) = n.
Proof. induction n as [|n IH]; simpl; by rewrite ?IH. Qed.

Lemma get_message_tokens_length msg :
  get_message_tokens msg
  = (Z.of_nat (String.length (content_text (message_content msg))) / 4)%Z.
Proof.
  unfold get_message_tokens, chars_per_token.
  by destruct (content_text (message_content msg)).
Qed.

Lemma get_message_tokens_text z :
  (0 ≤ z)%Z →
  get_message_tokens (HumanMessage (ContentStr (text_of_length (Z.to_nat z))))
  = (z / 4)%Z.
Proof.
  intros Hz. rewrite get_message_tokens_length. cbn [message_content content_text].
  by rewrite text_of_length_length, Z2Nat.id.
Qed.
End long_contents.

(** C2, instance of the amended statement: a single user turn of 200000
    characters (estimate 50000, above the ceiling of 30000) under the default
    budgets ends the result. *)
Lemma truncate_messages_newest_turn_witness :
  let big := HumanMessage (ContentStr (text_of_length (Z.to_nat 200000))) in
  is_system big = false ∧ plain big = true
  ∧ (30000 < get_message_tokens big)%Z
  ∧ last (truncate_messages ([] ++ [big]) (Some (ContentStr "You are."))
            default_max_messages default_max_tokens_approx)
    = Some big.
Proof.
  intros big.
  assert (Htokens : get_message_tokens big = 50000%Z)
    by (unfold big; by rewrite get_message_tokens_text).
  split_and!; [done | done | by rewrite Htokens |].
  pose proof (proj2 (truncate_messages_newest_turn (Some (ContentStr "You are."))
                       default_max_messages default_max_tokens_approx)
                [] big eq_refl eq_refl) as Hout.
  cbv zeta in Hout. rewrite Htokens in Hout. exact Hout.
Defined.

(** C2, counterexample to the claim as stated: a single user turn of 400004
    characters (estimate 100001) is above the ceiling and is the only group,
    yet under the default budgets the result is the system message alone. *)
Lemma truncate_messages_oversized_counterexample :
  let big := HumanMessage (ContentStr (text_of_length (Z.to_nat 400004))) in
  let out := truncate_messages [big] (Some (ContentStr "You are."))
               default_max_messages default_max_tokens_approx in
  (30000 < get_message_tokens big)%Z
  ∧ group_messages [big] = [([big], true)]
  ∧ out = [SystemMessage (ContentStr "You are.")]
  ∧ big ∉ out.
Proof.
  intros big out.
  assert (Htokens : get_message_tokens big = 100001%Z)
    by (unfold big; by rewrite get_message_tokens_text).
  assert (Hout : out = [SystemMessage (ContentStr "You are.")]).
  { unfold out. rewrite truncate_messages_window.
    pose proof (window_body_newest (Some (ContentStr "You are."))
                  default_max_messages default_max_tokens_approx
                  [] big eq_refl eq_refl) as Hbody.
    cbv zeta in Hbody. rewrite Htokens in Hbody.
    change ([] ++ [big]) with [big] in Hbody.
    by rewrite Hbody. }
  split_and!; [by rewrite Htokens | done | done |].
  rewrite Hout. intros Hin%list_elem_of_singleton. done.
Qed.

(** ** Repeated tool results *)

Section repeated.
Implicit Types (gst : GroupState).

(** The first answer to a pending id joins the current sequence and settles
    the id; a second one with the same id closes that sequence, with the
    completeness reached so far, and forms a sequence of its own. *)
Lemma group_from_repeated gst c1 c2 id rest :
  truthy id = true → id ∈ pending_tool_call_ids gst →
  group_from gst (ToolMessage c1 id :: ToolMessage c2 id :: rest)
  = group_from
      (mkGroupState
         (sequences gst
          ++ [(current_sequence gst ++ [ToolMessage c1 id],
               bool_decide (pending_tool_call_ids gst ∖ {[id]} = ∅));
              ([ToolMessage c2 id], true)])
         [] ∅)
      rest.
Proof.
  intros Hid Hpending. unfold group_from. cbn [foldl].
  f_equal. f_equal.
  cbn [group_step]. rewrite Hid, (bool_decide_eq_true_2 _ Hpending).
  cbn [andb pending_tool_call_ids sequences current_sequence].
  rewrite bool_decide_eq_false_2 by set_solver.
  rewrite ?andb_false_r. unfold close_sequence.
  cbn [andb pending_tool_call_ids sequences current_sequence].
  destruct (current_sequence gst); simpl; by rewrite <- app_assoc.
Qed.
End repeated.

(** C4 (repeated tool results), as amended: only the first tool result for a
    pending id counts towards completeness; a directly following one with the
    same id is not kept in that group but closes it and forms a group of its
    own; and in the result no tool message is directly followed by one with the
    same id. *)
Theorem repeated_tool_result :
  (∀ gst c1 c2 id rest,
     truthy id = true → id ∈ pending_tool_call_ids gst →
     group_from gst (ToolMessage c1 id :: ToolMessage c2 id :: rest)
     = group_from
         (mkGroupState
            (sequences gst
             ++ [(current_sequence gst ++ [ToolMessage c1 id],
                  bool_decide (pending_tool_call_ids gst ∖ {[id]} = ∅));
                 ([ToolMessage c2 id], true)])
            [] ∅)
         rest)
  ∧ (∀ messages system_message max_messages max_tokens_approx,
       no_repeated_result
         (truncate_messages messages system_message
            max_messages max_tokens_approx)).
Proof.
  split.
  - apply group_from_repeated.
  - intros. apply atomic_no_repeated_result, truncate_messages_atomic.
Qed.

(** C4, instance of the amended statement: after an assistant message
    declaring ["t1"], two results for ["t1"]. *)
Lemma repeated_tool_result_witness :
  let call := AIMessage (ContentStr "") [ToolCallObj (Some "t1")] in
  let first := ToolMessage (ContentStr "r1") "t1" in
  let second := ToolMessage (ContentStr "r2") "t1" in
  let gst := mkGroupState [] [call] {["t1"]} in
  truthy "t1" = true ∧ "t1" ∈ pending_tool_call_ids gst
  ∧ group_from gst [first; second] = [([call; first], true); ([second], true)].
Proof.
  intros call first second gst.
  assert (Hid : truthy "t1" = true) by reflexivity.
  assert (Hpending : "t1" ∈ pending_tool_call_ids gst) by set_solver.
  split_and!; [done..|].
  etrans.
  { exact (proj1 repeated_tool_result gst (ContentStr "r1") (ContentStr "r2")
             "t1" [] Hid Hpending). }
  vm_compute. reflexivity.
Defined.

(** C4, counterexample to the claim as stated: the second result for ["t1"] is
    not retained in the group of its assistant message, and with tool calls
    given as mappings it is not in the result either. *)
Lemma repeated_tool_result_counterexample :
  let first := ToolMessage (ContentStr "r1") "t1" in
  let second := ToolMessage (ContentStr "r2") "t1" in
  let call := AIMessage (ContentStr "") [ToolCallObj (Some "t1")] in
  let call' := AIMessage (ContentStr "") [ToolCallDict (Some "t1")] in
  group_messages [call; first; second]
  = [([call; first], true); ([second], true)]
  ∧ truncate_messages [call'; first; second] (Some (ContentStr "You are."))
      default_max_messages default_max_tokens_approx
    = [SystemMessage (ContentStr "You are."); call'; first].
Proof. vm_compute. done. Qed.

(** ** Three inputs on which the function departs from its description *)

(** C3: an assistant message whose only tool call has no id is kept by the
    first validation pass ([validate_messages]) and removed by the final one,
    whose test [all_tool_call_ids_present] fails on an empty id set; more
    generally, no assistant message with tool calls but without ids is ever in
    the result. *)
Theorem final_pass_drops_call_without_id :
  (let call := AIMessage (ContentStr "call") [ToolCallDict None] in
   validate_messages [call] = [call]
   ∧ truncate_messages [call] (Some (ContentStr "You are."))
       default_max_messages default_max_tokens_approx
     = [SystemMessage (ContentStr "You are.")])
  ∧ (∀ messages system_message max_messages max_tokens_approx c tool_calls,
       required_ids tool_calls = ∅ → tool_calls ≠ [] →
       AIMessage c tool_calls
       ∉ truncate_messages messages system_message
           max_messages max_tokens_approx).
Proof.
  split; [vm_compute; done|].
  intros messages system_message max_messages max_tokens_approx c tool_calls
    Hnone Hcalls Hin.
  pose proof (truncate_messages_atomic messages system_message
                max_messages max_tokens_approx) as Hatomic.
  induction Hatomic as [|m l Htool Hhas _ IH|c' tc tcs run l Hrun Hids Hne _ IH].
  - by apply elem_of_nil in Hin.
  - apply elem_of_cons in Hin as [<-|Hin]; [|by apply IH].
    destruct tool_calls; simplify_eq/=.
  - apply elem_of_cons in Hin as [?|Hin]; [simplify_eq|].
    apply elem_of_app in Hin as [Hin|Hin]; [|by apply IH].
    destruct Hrun as [Hrun _]. rewrite Forall_forall in Hrun.
    by apply Hrun in Hin.
Qed.

(** Tool calls that expose their id as an attribute, the shape line 79 tests
    for; [AIMessage.tool_calls] holds dictionaries, so that no history of the
    program has it. On such objects a repeated tool result breaks idempotence:
    the first application keeps the assistant message with the second result;
    applied to that, it returns the system message alone. Cause:
    [messages_to_add] is extended with each sequence in order and then
    reversed as a whole, which puts the tool messages of a sequence before
    their assistant message. *)
Theorem truncate_messages_twice :
  let call := AIMessage (ContentStr "") [ToolCallObj (Some "t1")] in
  let first := ToolMessage (ContentStr "r1") "t1" in
  let second := ToolMessage (ContentStr "r2") "t1" in
  let system := ContentStr "You are." in
  let out := truncate_messages [call; first; second] (Some system)
               default_max_messages default_max_tokens_approx in
  out = [SystemMessage system; call; second]
  ∧ select_messages default_max_messages default_max_tokens_approx 2
      (group_messages [call; second]) = [second; call]
  ∧ truncate_messages out (Some system)
      default_max_messages default_max_tokens_approx
    = [SystemMessage system].
Proof. vm_compute. done. Qed.

(** The same shape, with two assistant messages declaring the same ids, each
    followed by its results. The result pairs the first assistant message with
    the results of the second one, in reverse order: it is not a subsequence
    of the history. Cause: [messages_to_add] is extended with each sequence in
    order and then reversed as a whole, which reverses the inside of every
    sequence. *)
Theorem truncate_messages_reorders :
  let calls := [ToolCallObj (Some "a"); ToolCallObj (Some "b")] in
  let call1 := AIMessage (ContentStr "first") calls in
  let call2 := AIMessage (ContentStr "second") calls in
  let a1 := ToolMessage (ContentStr "a1") "a" in
  let b1 := ToolMessage (ContentStr "b1") "b" in
  let a2 := ToolMessage (ContentStr "a2") "a" in
  let b2 := ToolMessage (ContentStr "b2") "b" in
  let history := [call1; a1; b1; call2; a2; b2] in
  let system := ContentStr "You are." in
  let out := truncate_messages history (Some system)
               default_max_messages default_max_tokens_approx in
  select_messages default_max_messages default_max_tokens_approx 2
    (group_messages history) = [b1; a1; call1; b2; a2; call2]
  ∧ out = [SystemMessage system; call1; b2; a2]
  ∧ ¬ ([call1; b2; a2] `sublist_of` history).
Proof.
  split_and!; [vm_compute; done..|].
  intros Hsub.
  repeat match goal with
         | H : _ `sublist_of` _ :: _ |- _ =>
             apply sublist_cons_r in H as [H|(? & ? & H)]; simplify_eq
         | H : _ :: _ `sublist_of` [] |- _ => by apply sublist_nil_r in H
         end.
Qed.

(** ** The store operations *)

Section store_operations.
Implicit Types (σ : store) (l : loc) (x : list BaseMessage).

Lemma st_bind_run {A B} (m : St A) (k : A → St B) σ a σ' :
  m σ = (a, σ') → st_bind m k σ = k a σ'.
Proof. unfold st_bind. by intros ->. Qed.

Lemma contents_lookup σ l x : σ !! l = Some x → contents σ l = x.
Proof. unfold contents. by intros ->. Qed.

Lemma get_list_run σ l x : σ !! l = Some x → get_list l σ = (x, σ).
Proof. intros Hl. unfold get_list. by rewrite (contents_lookup _ _ _ Hl). Qed.

Lemma list_append_run σ l x msg :
  σ !! l = Some x → list_append l msg σ = (tt, <[l := x ++ [msg]]> σ).
Proof. intros Hl. unfold list_append. by rewrite (contents_lookup _ _ _ Hl). Qed.

Lemma list_extend_run σ l x msgs :
  σ !! l = Some x → list_extend l msgs σ = (tt, <[l := x ++ msgs]> σ).
Proof. intros Hl. unfold list_extend. by rewrite (contents_lookup _ _ _ Hl). Qed.

Lemma list_reverse_run σ l x :
  σ !! l = Some x → list_reverse l σ = (tt, <[l := reverse x]> σ).
Proof. intros Hl. unfold list_reverse. by rewrite (contents_lookup _ _ _ Hl). Qed.

Lemma lookup_insert_same σ l x y : σ !! l = Some x → <[l := y]> σ !! l = Some y.
Proof. intros Hl%lookup_lt_Some. by apply list_lookup_insert_eq. Qed.

Lemma lookup_new σ x : (σ ++ [x]) !! length σ = Some x.
Proof. by apply list_lookup_middle. Qed.
End store_operations.

(** ** The loops of the two passes write only their output list *)

Section store_passes.
Implicit Types (σ : store) (v : loc) (x l : list BaseMessage).
Implicit Types (required included : gset string).
Implicit Types (by_id : gmap string BaseMessage).

Lemma collect_tool_messages_st_run required included l v σ x :
  σ !! v = Some x →
  collect_tool_messages_st required included l v σ
  = ((collect_tool_messages required included l x).2,
     <[v := (collect_tool_messages required included l x).1]> σ).
Proof.
  revert included σ x.
  induction l as [|m l IH]; intros included σ x Hv; cbn [collect_tool_messages_st collect_tool_messages include_tool_messages_st include_tool_messages fst snd].
  { unfold st_ret. by rewrite list_insert_id. }
  destruct m as [c|c|c tcs|c id|c]; cbn [fst snd];
    try (unfold st_ret; by rewrite list_insert_id).
  destruct (truthy id && bool_decide (id ∈ required)); cbn [fst snd];
    [|unfold st_ret; by rewrite list_insert_id].
  destruct (bool_decide (id ∉ included)); [|by apply IH].
  erewrite st_bind_run by by apply list_append_run.
  erewrite IH by by eapply lookup_insert_same.
  by rewrite list_insert_insert_eq.
Qed.

Lemma include_tool_messages_st_run required included l v σ x :
  σ !! v = Some x →
  include_tool_messages_st required included l v σ
  = ((include_tool_messages required included l x).2,
     <[v := (include_tool_messages required included l x).1]> σ).
Proof.
  revert included σ x.
  induction l as [|m l IH]; intros included σ x Hv; cbn [collect_tool_messages_st collect_tool_messages include_tool_messages_st include_tool_messages fst snd].
  { unfold st_ret. by rewrite list_insert_id. }
  destruct m as [c|c|c tcs|c id|c]; cbn [fst snd];
    try (unfold st_ret; by rewrite list_insert_id).
  destruct (truthy id && bool_decide (id ∈ required)
            && bool_decide (id ∉ included)); cbn [fst snd];
    [|unfold st_ret; by rewrite list_insert_id].
  erewrite st_bind_run by by apply list_append_run.
  erewrite IH by by eapply lookup_insert_same.
  by rewrite list_insert_insert_eq.
Qed.

Lemma validate_loop_st_run fuel by_id l v σ x :
  σ !! v = Some x →
  validate_loop_st fuel by_id l v σ
  = (tt, <[v := validate_loop fuel by_id l x]> σ).
Proof.
  revert l σ x.
  induction fuel as [|fuel IH]; intros l σ x Hv; cbn [validate_loop_st validate_loop final_loop_st final_loop].
  { unfold st_ret. by rewrite list_insert_id. }
  destruct l as [|m rest]; [unfold st_ret; by rewrite list_insert_id|].
  assert (Hkeep : ∀ msg,
    (list_append v msg ;; validate_loop_st fuel by_id rest v) σ
    = (tt, <[v := validate_loop fuel by_id rest (x ++ [msg])]> σ)).
  { intros msg.
    erewrite st_bind_run by by apply list_append_run.
    erewrite IH by by eapply lookup_insert_same.
    by rewrite list_insert_insert_eq. }
  destruct m as [c|c|c [|tc tcs]|c id|c]; try apply Hkeep.
  - destruct (bool_decide (required_ids (tc :: tcs) = ∅)); [apply Hkeep|].
    destruct (bool_decide (_ = ∅)); [|by apply IH].
    erewrite st_bind_run by by apply list_append_run.
    erewrite st_bind_run
      by (apply collect_tool_messages_st_run; by eapply lookup_insert_same).
    destruct (collect_tool_messages _ _ rest (x ++ _)) as [validated' rest'].
    cbn [fst snd].
    erewrite IH by (eapply lookup_insert_same, lookup_insert_same, Hv).
    by rewrite !list_insert_insert_eq.
  - erewrite st_bind_run by by apply get_list_run.
    rewrite !if_same. by apply IH.
Qed.

Lemma final_loop_st_run fuel by_id l v σ x :
  σ !! v = Some x →
  final_loop_st fuel by_id l v σ
  = (tt, <[v := final_loop fuel by_id l x]> σ).
Proof.
  revert l σ x.
  induction fuel as [|fuel IH]; intros l σ x Hv; cbn [validate_loop_st validate_loop final_loop_st final_loop].
  { unfold st_ret. by rewrite list_insert_id. }
  destruct l as [|m rest]; [unfold st_ret; by rewrite list_insert_id|].
  assert (Hkeep : ∀ msg,
    (list_append v msg ;; final_loop_st fuel by_id rest v) σ
    = (tt, <[v := final_loop fuel by_id rest (x ++ [msg])]> σ)).
  { intros msg.
    erewrite st_bind_run by by apply list_append_run.
    erewrite IH by by eapply lookup_insert_same.
    by rewrite list_insert_insert_eq. }
  destruct m as [c|c|c [|tc tcs]|c id|c]; try apply Hkeep.
  - destruct (negb _ && _ && _); [|by apply IH].
    destruct (bool_decide (_ = _)); [|by apply IH].
    erewrite st_bind_run by by apply list_append_run.
    erewrite st_bind_run
      by (apply include_tool_messages_st_run; by eapply lookup_insert_same).
    destruct (include_tool_messages _ _ rest (x ++ _)) as [final' rest'].
    cbn [fst snd].
    erewrite IH by (eapply lookup_insert_same, lookup_insert_same, Hv).
    by rewrite !list_insert_insert_eq.
  - erewrite st_bind_run by by apply get_list_run.
    rewrite !if_same. by apply IH.
Qed.
End store_passes.

(** ** Selection reads the sequences and writes [messages_to_add] *)

Section store_selection.
Context (max_messages max_tokens_approx : Z).
Implicit Types (σ : store) (added : list BaseMessage).
Implicit Types (rsequences : list (loc * bool)).

Lemma resolve_insert σ l y rsequences :
  Forall (λ p, p.1 ≠ l) rsequences →
  resolve (<[l := y]> σ) rsequences = resolve σ rsequences.
Proof.
  intros Hne. unfold resolve. apply Forall_fmap_ext.
  eapply Forall_impl; [exact Hne|]. intros [l' b] Hl'; simpl in *.
  unfold contents. by rewrite list_lookup_insert_ne.
Qed.

Lemma select_loop_st_run to_add total count rsequences σ added :
  σ !! to_add = Some added →
  Forall (λ p, p.1 ≠ to_add) rsequences →
  select_loop_st max_messages max_tokens_approx to_add total count
    rsequences σ
  = (tt, <[to_add :=
             messages_to_add
               (select_loop max_messages max_tokens_approx
                  (mkSelectState added total count) (resolve σ rsequences))]> σ).
Proof.
  intros Hadded Hne. revert σ added total count Hadded.
  induction Hne as [|[seq_loc is_complete] older Hseq Hne IH];
    intros σ added total count Hadded.
  { cbn. unfold st_ret. by rewrite list_insert_id. }
  cbn [select_loop_st resolve fmap list_fmap select_loop fst snd].
  erewrite (st_bind_run (get_list seq_loc)) by reflexivity.
  fold (resolve σ older).
  destruct (negb is_complete && _); [by apply IH|].
  erewrite st_bind_run by by apply get_list_run.
  cbn [messages_to_add].
  destruct (has_oversized _ && _); [by apply IH|].
  destruct (fits _ _ _ _); [|unfold st_ret; by rewrite list_insert_id].
  erewrite st_bind_run by by apply list_extend_run.
  erewrite IH by by eapply lookup_insert_same.
  rewrite list_insert_insert_eq. simpl in Hseq.
  rewrite resolve_insert by done.
  done.
Qed.
End store_selection.

(** ** Grouping allocates its sequences *)

Section store_grouping.
Context (base : nat).
Implicit Types (σ : store) (gs : GroupStateSt) (g : GroupState).

Lemma unchanged_below_refl σ : unchanged_below base σ σ.
Proof. by split. Qed.

Lemma unchanged_below_trans σ1 σ2 σ3 :
  unchanged_below base σ1 σ2 → unchanged_below base σ2 σ3 →
  unchanged_below base σ1 σ3.
Proof.
  intros [Hlen1 H1] [Hlen2 H2]. split; [lia|].
  intros l Hl. by rewrite H2, H1.
Qed.

Lemma unchanged_below_new σ x :
  base ≤ length σ → unchanged_below base σ (σ ++ [x]).
Proof.
  intros Hbase. split; [rewrite length_app; lia|].
  intros l Hl. apply lookup_app_l. lia.
Qed.

Lemma unchanged_below_insert σ l y :
  base ≤ l → unchanged_below base σ (<[l := y]> σ).
Proof.
  intros Hbase. split; [by rewrite length_insert|].
  intros l' Hl'. apply list_lookup_insert_ne. lia.
Qed.

Lemma sequences_at_new σ x ps qs :
  Forall2 (sequence_at base σ) ps qs →
  Forall2 (sequence_at base (σ ++ [x])) ps qs.
Proof.
  intros Hps. eapply Forall2_impl; [exact Hps|].
  intros p q (Hbase & Hp & Hb).
  split_and!; [done| |done]. by apply lookup_app_l_Some.
Qed.

Lemma sequences_at_insert σ l y ps qs :
  Forall (λ p, p.1 ≠ l) ps →
  Forall2 (sequence_at base σ) ps qs →
  Forall2 (sequence_at base (<[l := y]> σ)) ps qs.
Proof.
  intros Hne Hps. induction Hps as [|p q ps qs (Hbase & Hp & Hb) _ IH].
  { constructor. }
  apply Forall_cons in Hne as [Hl Hne].
  constructor; [|by apply IH].
  split_and!; [done| |done]. by rewrite list_lookup_insert_ne.
Qed.

Lemma sequences_at_allocated σ ps qs :
  Forall2 (sequence_at base σ) ps qs → Forall (λ p, p.1 < length σ) ps.
Proof.
  induction 1 as [|p q ps qs (_ & Hp & _) _ IH]; constructor; [|done].
  by eapply lookup_lt_Some.
Qed.

Lemma sequences_at_fresh σ ps qs :
  Forall2 (sequence_at base σ) ps qs → Forall (λ p, p.1 ≠ length σ) ps.
Proof.
  intros Hps. eapply Forall_impl; [by eapply sequences_at_allocated|].
  simpl. intros. lia.
Qed.

Lemma sequences_at_resolve σ ps qs :
  Forall2 (sequence_at base σ) ps qs → resolve σ ps = qs.
Proof.
  induction 1 as [|[l b] [seq b'] ps qs (_ & Hp & Hb) _ IH]; [done|].
  simpl in *. unfold resolve in *. cbn [fmap list_fmap]. simpl.
  by rewrite (contents_lookup _ _ _ Hp), IH, Hb.
Qed.
End store_grouping.

Section store_grouping_steps.
Context (base : nat).
Implicit Types (σ : store) (gs : GroupStateSt) (g : GroupState).

Lemma represents_allocated σ gs g :
  represents base σ gs g → base ≤ length σ.
Proof.
  intros [_ _ Hcur%lookup_lt_Some Hbase _]. lia.
Qed.

Lemma closed_sequences_at σ gs g :
  represents base σ gs g →
  Forall2 (sequence_at base σ)
    (closed_sequences_st gs (current_sequence g)) (close_sequence g).
Proof.
  intros [Hseqs _ Hcur Hbase Hpending].
  unfold closed_sequences_st, close_sequence.
  destruct (current_sequence g) eqn:Hg; simpl; [done|].
  apply Forall2_app; [done|].
  constructor; [|constructor].
  split_and!; simpl; [done|done|by rewrite Hpending].
Qed.

(** A state whose current sequence is a list allocated just now. *)
Lemma represents_reset σ ps qs :
  base ≤ length σ →
  Forall2 (sequence_at base σ) ps qs →
  represents base (σ ++ [[]]) (mkGroupStateSt ps (length σ) ∅)
    (mkGroupState qs [] ∅).
Proof.
  intros Hbase Hps. split; simpl.
  - by apply sequences_at_new.
  - by eapply sequences_at_fresh.
  - apply lookup_new.
  - done.
  - done.
Qed.

(** [current_sequence.append(message)] *)
Lemma represents_append σ gs g msg pending :
  represents base σ gs g →
  represents base
    (<[current_sequence_st gs := current_sequence g ++ [msg]]> σ)
    (mkGroupStateSt (sequences_st gs) (current_sequence_st gs) pending)
    (mkGroupState (sequences g) (current_sequence g ++ [msg]) pending).
Proof.
  intros [Hseqs Hne Hcur Hbase Hpending]. split; simpl; try done.
  - by apply sequences_at_insert.
  - by eapply lookup_insert_same.
Qed.

(** [sequences.append(([message], True))] *)
Lemma represents_single σ gs g msg :
  represents base σ gs g →
  represents base (σ ++ [[msg]])
    (mkGroupStateSt (sequences_st gs ++ [(length σ, true)])
       (current_sequence_st gs) (pending_st gs))
    (mkGroupState (sequences g ++ [([msg], true)])
       (current_sequence g) (pending_tool_call_ids g)).
Proof.
  intros Hrep.
  pose proof (represents_allocated _ _ _ Hrep) as Hlen.
  destruct Hrep as [Hseqs Hne Hcur Hbase Hpending]. split; simpl; try done.
  - apply Forall2_app; [by apply sequences_at_new|].
    constructor; [|constructor].
    split_and!; simpl; [done|apply lookup_new|done].
  - apply Forall_app. split; [done|].
    constructor; [|constructor]. simpl.
    apply lookup_lt_Some in Hcur. lia.
  - by apply lookup_app_l_Some.
Qed.

Lemma close_and_reset_st_run σ gs g :
  represents base σ gs g →
  ∃ gs' σ',
    close_and_reset_st gs σ = (gs', σ')
    ∧ represents base σ' gs' (close_and_reset g)
    ∧ unchanged_below base σ σ'.
Proof.
  intros Hrep.
  pose proof (represents_allocated _ _ _ Hrep) as Hlen.
  pose proof (closed_sequences_at _ _ _ Hrep) as Hclosed.
  unfold close_and_reset_st, close_and_reset.
  erewrite st_bind_run by (apply get_list_run, Hrep).
  unfold closed_sequences_st in Hclosed.
  destruct (current_sequence g) eqn:Hg; cbn [is_empty_list] in *.
  - eexists _, _. split; [reflexivity|].
    split; [done | apply unchanged_below_refl].
  - eexists _, _. split; [reflexivity|].
    split; [by apply represents_reset | by apply unchanged_below_new].
Qed.

Lemma group_step_st_run σ gs g msg :
  represents base σ gs g →
  ∃ gs' σ',
    group_step_st gs msg σ = (gs', σ')
    ∧ represents base σ' gs' (group_step g msg)
    ∧ unchanged_below base σ σ'.
Proof.
  intros Hrep.
  assert (Hsingle :
    ∃ gs' σ',
      (gs1 <- close_and_reset_st gs ;;
       one <- new_list [msg] ;;
       st_ret (mkGroupStateSt (sequences_st gs1 ++ [(one, true)])
                 (current_sequence_st gs1) (pending_st gs1))) σ = (gs', σ')
      ∧ represents base σ' gs'
          (mkGroupState (sequences (close_and_reset g) ++ [([msg], true)])
             (current_sequence (close_and_reset g))
             (pending_tool_call_ids (close_and_reset g)))
      ∧ unchanged_below base σ σ').
  { destruct (close_and_reset_st_run _ _ _ Hrep) as (gs1 & σ1 & Hrun & Hrep1 & Hσ1).
    erewrite st_bind_run by exact Hrun.
    eexists _, _. split; [reflexivity|].
    split; [by apply represents_single|].
    eapply unchanged_below_trans; [exact Hσ1|].
    apply unchanged_below_new. by eapply represents_allocated. }
  destruct msg as [c|c|c [|tc tcs]|c id|c]; try exact Hsingle.
  - (* an assistant message with tool calls *)
    destruct (close_and_reset_st_run _ _ _ Hrep) as (gs1 & σ1 & Hrun & Hrep1 & Hσ1).
    cbn [group_step_st group_step].
    erewrite st_bind_run by exact Hrun.
    erewrite st_bind_run by (apply list_append_run, Hrep1).
    eexists _, _. split; [reflexivity|].
    split.
    + rewrite (rep_pending _ _ _ _ Hrep1). by apply represents_append.
    + eapply unchanged_below_trans; [exact Hσ1|].
      apply unchanged_below_insert, Hrep1.
  - (* a tool message *)
    cbn [group_step_st group_step].
    rewrite (rep_pending _ _ _ _ Hrep).
    destruct (truthy id && _).
    + erewrite st_bind_run by (apply list_append_run, Hrep).
      eexists _, _. split; [reflexivity|].
      split; [by apply represents_append|].
      apply unchanged_below_insert, Hrep.
    + pose proof (represents_allocated _ _ _ Hrep) as Hlen.
      pose proof (closed_sequences_at _ _ _ Hrep) as Hclosed.
      erewrite st_bind_run by (apply get_list_run, Hrep).
      eexists _, _. split; [reflexivity|].
      rewrite <- (rep_pending _ _ _ _ Hrep).
      fold (closed_sequences_st gs (current_sequence g)).
      replace (length (σ ++ [[ToolMessage c id]])) with (S (length σ))
        by (rewrite length_app; simpl; lia).
      split.
      * replace (S (length σ)) with (length (σ ++ [[ToolMessage c id]]))
          by (rewrite length_app; simpl; lia).
        apply represents_reset; [rewrite length_app; lia|].
        apply Forall2_app; [by apply sequences_at_new|].
        constructor; [|constructor].
        split_and!; simpl; [done|apply lookup_new|done].
      * eapply unchanged_below_trans; apply unchanged_below_new;
          rewrite ?length_app; lia.
Qed.

Lemma group_loop_st_run filtered σ gs g :
  represents base σ gs g →
  ∃ gs' σ',
    group_loop_st gs filtered σ = (gs', σ')
    ∧ represents base σ' gs' (foldl group_step g filtered)
    ∧ unchanged_below base σ σ'.
Proof.
  revert σ gs g.
  induction filtered as [|msg rest IH]; intros σ gs g Hrep.
  { eexists _, _. split; [reflexivity|].
    split; [done | apply unchanged_below_refl]. }
  destruct (group_step_st_run _ _ _ msg Hrep) as (gs1 & σ1 & Hrun & Hrep1 & Hσ1).
  destruct (IH _ _ _ Hrep1) as (gs' & σ' & Hrun' & Hrep' & Hσ').
  exists gs', σ'. cbn [group_loop_st foldl].
  erewrite st_bind_run by exact Hrun.
  split; [done|]. split; [done|].
  by eapply unchanged_below_trans.
Qed.
End store_grouping_steps.

Section store_grouping_whole.
Implicit Types (σ : store).

(** Grouping over the store yields the locations of the groups of
    [group_messages], all new, and changes no list that existed. *)
Lemma group_messages_st_run filtered σ :
  ∃ sequences σ',
    group_messages_st filtered σ = (sequences, σ')
    ∧ Forall2 (sequence_at (length σ) σ') sequences (group_messages filtered)
    ∧ unchanged_below (length σ) σ σ'.
Proof.
  assert (Hinit : represents (length σ) (σ ++ [[]])
                    (mkGroupStateSt [] (length σ) ∅) (mkGroupState [] [] ∅)).
  { apply represents_reset; [done | constructor]. }
  destruct (group_loop_st_run (length σ) filtered _ _ _ Hinit)
    as (gs & σ' & Hrun & Hrep & Hσ').
  unfold group_messages_st.
  erewrite st_bind_run by reflexivity.
  erewrite st_bind_run by exact Hrun.
  erewrite st_bind_run by (apply get_list_run, Hrep).
  eexists _, _. split; [reflexivity|]. split.
  - apply (closed_sequences_at _ _ _ _ Hrep).
  - eapply unchanged_below_trans; [|exact Hσ'].
    by apply unchanged_below_new.
Qed.
End store_grouping_whole.

(** ** The stages over the store *)

Section store_stages.
Implicit Types (σ : store) (l : list BaseMessage).

Lemma insert_new σ x y : <[length σ := y]> (σ ++ [x]) = σ ++ [y].
Proof.
  rewrite insert_app_r_alt by lia. by rewrite Nat.sub_diag.
Qed.

Lemma select_messages_st_run base max_messages max_tokens_approx system_tokens
    sequences groups σ :
  Forall2 (sequence_at base σ) sequences groups →
  select_messages_st max_messages max_tokens_approx system_tokens sequences σ
  = (length σ,
     σ ++ [select_messages max_messages max_tokens_approx system_tokens groups]).
Proof.
  intros Hseqs. unfold select_messages_st, select_messages.
  erewrite st_bind_run by reflexivity.
  erewrite st_bind_run.
  2:{ apply select_loop_st_run; [apply lookup_new|].
      apply Forall_reverse. by eapply sequences_at_fresh. }
  erewrite st_bind_run.
  2:{ apply list_reverse_run. eapply lookup_insert_same, lookup_new. }
  unfold st_ret. rewrite list_insert_insert_eq, insert_new.
  unfold resolve. rewrite fmap_reverse.
  fold (resolve (σ ++ [[]]) sequences).
  by rewrite (sequences_at_resolve base _ _ groups)
    by by apply sequences_at_new.
Qed.

Lemma validate_messages_st_run messages_to_add σ l :
  σ !! messages_to_add = Some l →
  validate_messages_st messages_to_add σ
  = (length σ, σ ++ [validate_messages l]).
Proof.
  intros Hl. unfold validate_messages_st, validate_messages.
  erewrite st_bind_run by by apply get_list_run.
  erewrite st_bind_run by reflexivity.
  erewrite st_bind_run by (apply validate_loop_st_run, lookup_new).
  unfold st_ret. by rewrite insert_new.
Qed.

Lemma final_clean_st_run final_cleaned_messages messages_to_process σ l :
  σ !! messages_to_process = Some l →
  σ !! final_cleaned_messages = Some [] →
  final_clean_st final_cleaned_messages messages_to_process σ
  = (tt, <[final_cleaned_messages := final_clean l]> σ).
Proof.
  intros Hl Hfinal. unfold final_clean_st, final_clean.
  erewrite st_bind_run by by apply get_list_run.
  by apply final_loop_st_run.
Qed.

Lemma prepend_st_run system_msg final_cleaned_messages σ l :
  σ !! final_cleaned_messages = Some l →
  prepend_st system_msg final_cleaned_messages σ
  = (S (length σ), (σ ++ [[system_msg]]) ++ [system_msg :: l]).
Proof.
  intros Hl. unfold prepend_st.
  erewrite st_bind_run by by apply get_list_run.
  erewrite st_bind_run by reflexivity.
  unfold new_list. by rewrite length_app, Nat.add_1_r.
Qed.
End store_stages.

Section store_function.
Implicit Types (σ : store) (input : list BaseMessage).

Lemma unchanged_below_weaken base base' σ σ' :
  base' ≤ base → unchanged_below base σ σ' → unchanged_below base' σ σ'.
Proof.
  intros Hle [Hlen Hsame]. split; [done|].
  intros l Hl. apply Hsame. lia.
Qed.

(** The result of [truncate_messages], in the shape of lines 305-440. *)
Lemma truncate_messages_unfold input system_message
    max_messages max_tokens_approx :
  let filtered := filter (λ msg, is_system msg = false) input in
  let validated :=
    validate_messages
      (select_messages max_messages max_tokens_approx
         (system_tokens_of system_message) (group_messages filtered)) in
  truncate_messages input system_message max_messages max_tokens_approx
  = if is_empty_list filtered then initial_result system_message
    else match initial_result system_message ++ validated with
         | SystemMessage c :: tl => SystemMessage c :: final_clean tl
         | whole =>
             match system_message with
             | Some c => SystemMessage c :: final_clean whole
             | None => final_clean whole
             end
         end.
Proof.
  intros filtered validated. unfold truncate_messages.
  fold filtered. destruct (is_empty_list filtered); [done|].
  fold validated.
  by destruct (initial_result system_message ++ validated) as [|[] ?].
Qed.

(** What a run of the function leaves in the store. *)
Lemma truncate_messages_st_run σ messages input system_message
    max_messages max_tokens_approx :
  σ !! messages = Some input →
  ∃ returned σ',
    truncate_messages_st messages system_message
      max_messages max_tokens_approx σ = (returned, σ')
    ∧ unchanged_below (length σ) σ σ'
    ∧ length σ ≤ returned
    ∧ σ' !! returned
      = Some (truncate_messages input system_message
                max_messages max_tokens_approx).
Proof.
  intros Hinput.
  pose proof (lookup_lt_Some _ _ _ Hinput) as Hmessages.
  rewrite truncate_messages_unfold. cbv zeta.
  set (filtered := filter (λ msg, is_system msg = false) input).
  set (initial := initial_result system_message).
  unfold truncate_messages_st.
  erewrite st_bind_run by reflexivity.
  (* [result] holds the system message, if any *)
  set (σ2 := σ ++ [initial]).
  erewrite (st_bind_run _ _ _ tt σ2).
  2:{ subst σ2 initial. destruct system_message as [c|]; simpl.
      - erewrite list_append_run by apply lookup_new. by rewrite insert_new.
      - done. }
  assert (Hresult2 : σ2 !! length σ = Some initial) by apply lookup_new.
  assert (Hlen2 : length σ2 = S (length σ))
    by (subst σ2; rewrite length_app; simpl; lia).
  erewrite st_bind_run
    by (apply get_list_run; subst σ2; by apply lookup_app_l_Some).
  erewrite st_bind_run by reflexivity.
  fold filtered. set (σ3 := σ2 ++ [filtered]).
  assert (Hresult3 : σ3 !! length σ = Some initial)
    by (subst σ3; by apply lookup_app_l_Some).
  assert (Hlen3 : length σ3 = S (S (length σ)))
    by (subst σ3; rewrite length_app; simpl; lia).
  assert (Hσ3 : unchanged_below (length σ) σ σ3).
  { subst σ3 σ2. eapply unchanged_below_trans; apply unchanged_below_new;
      rewrite ?length_app; lia. }
  erewrite st_bind_run by (apply get_list_run; subst σ3; apply lookup_new).
  destruct (is_empty_list filtered).
  { eexists _, _. split; [reflexivity|]. split_and!; done. }
  (* grouping *)
  destruct (group_messages_st_run filtered σ3)
    as (sequences & σ4 & Hgroup & Hsequences & Hσ4).
  erewrite st_bind_run by exact Hgroup.
  assert (Hresult4 : σ4 !! length σ = Some initial).
  { destruct Hσ4 as [_ Hsame]. rewrite Hsame by lia. done. }
  (* selection and the first validation pass *)
  erewrite st_bind_run by by eapply select_messages_st_run.
  set (selected := select_messages _ _ _ _).
  erewrite st_bind_run by (apply validate_messages_st_run, lookup_new).
  set (validated := validate_messages selected).
  set (σ6 := (σ4 ++ [selected]) ++ [validated]).
  assert (Hlen4 : length σ3 ≤ length σ4) by apply Hσ4.
  assert (Hσ6 : unchanged_below (length σ) σ σ6).
  { eapply unchanged_below_trans; [exact Hσ3|].
    eapply unchanged_below_trans.
    { eapply unchanged_below_weaken; [|exact Hσ4]. lia. }
    subst σ6. eapply unchanged_below_trans; apply unchanged_below_new;
      rewrite ?length_app; lia. }
  erewrite st_bind_run by (apply get_list_run; subst σ6; apply lookup_new).
  (* [result.extend(validated_messages)] *)
  assert (Hresult6 : σ6 !! length σ = Some initial).
  { subst σ6. by do 2 apply lookup_app_l_Some. }
  erewrite st_bind_run by by apply list_extend_run.
  set (whole := initial ++ validated).
  set (σ7 := <[length σ := whole]> σ6).
  assert (Hσ7 : unchanged_below (length σ) σ σ7).
  { eapply unchanged_below_trans; [exact Hσ6|].
    by apply unchanged_below_insert. }
  assert (Hresult7 : σ7 !! length σ = Some whole)
    by by eapply lookup_insert_same.
  erewrite st_bind_run by reflexivity.
  set (σ8 := σ7 ++ [[]]).
  assert (Hfinal8 : σ8 !! length σ7 = Some []) by apply lookup_new.
  assert (Hresult8 : σ8 !! length σ = Some whole)
    by (subst σ8; by apply lookup_app_l_Some).
  assert (Hσ8 : unchanged_below (length σ) σ σ8).
  { eapply unchanged_below_trans; [exact Hσ7|].
    apply unchanged_below_new, Hσ7. }
  erewrite st_bind_run by by apply get_list_run.
  assert (Hprepend : ∀ σ9 system_msg final,
    unchanged_below (length σ) σ σ9 →
    σ9 !! length σ7 = Some final →
    ∃ returned σ',
      prepend_st system_msg (length σ7) σ9 = (returned, σ')
      ∧ unchanged_below (length σ) σ σ'
      ∧ length σ ≤ returned
      ∧ σ' !! returned = Some (system_msg :: final)).
  { intros σ9 system_msg final Hσ9 Hfinal9.
    eexists _, _. split; [by apply prepend_st_run|].
    split_and!.
    - eapply unchanged_below_trans; [exact Hσ9|].
      eapply unchanged_below_trans; apply unchanged_below_new;
        rewrite ?length_app; destruct Hσ9; lia.
    - destruct Hσ9. lia.
    - rewrite <- (Nat.add_1_r (length σ9)).
      replace (length σ9 + 1) with (length (σ9 ++ [[system_msg]]))
        by (by rewrite length_app).
      apply lookup_new. }
  assert (Hfinal_loc : length σ ≤ length σ7) by apply Hσ7.
  assert (Hwhole :
    ∃ returned σ',
      (final_clean_st (length σ7) (length σ) ;;
       match system_message with
       | Some c => prepend_st (SystemMessage c) (length σ7)
       | None => st_ret (length σ7)
       end) σ8 = (returned, σ')
      ∧ unchanged_below (length σ) σ σ'
      ∧ length σ ≤ returned
      ∧ σ' !! returned
        = Some match system_message with
               | Some c => SystemMessage c :: final_clean whole
               | None => final_clean whole
               end).
  { erewrite st_bind_run by by apply final_clean_st_run.
    set (σ9 := <[length σ7 := final_clean whole]> σ8).
    assert (Hσ9 : unchanged_below (length σ) σ σ9).
    { eapply unchanged_below_trans; [exact Hσ8|].
      by apply unchanged_below_insert. }
    assert (Hfinal9 : σ9 !! length σ7 = Some (final_clean whole))
      by by eapply lookup_insert_same.
    destruct system_message as [c|]; [by apply Hprepend|].
    eexists _, _. split; [reflexivity|]. split_and!; done. }
  clearbody σ8 σ7 whole.
  destruct whole as [|[c|c|c tcs|c id|c] tl]; try exact Hwhole.
  (* [messages_to_process = result[1:]] *)
  erewrite st_bind_run by reflexivity.
  erewrite st_bind_run.
  2:{ apply final_clean_st_run; [apply lookup_new|].
      by apply lookup_app_l_Some. }
  apply Hprepend.
  - eapply unchanged_below_trans; [exact Hσ8|].
    eapply unchanged_below_trans; [apply unchanged_below_new; apply Hσ8|].
    by apply unchanged_below_insert.
  - eapply lookup_insert_same. by apply lookup_app_l_Some.
Qed.
End store_function.

(** C9 (no side effect on the arguments): a run of the function over a store
    in which [messages] names the list [input] leaves that list as it was,
    and indeed every list that existed before the call; the list it returns is
    one allocated during the call, so it is not the list passed in; and that
    list holds the result of [truncate_messages]. *)
Theorem truncate_messages_st_frame σ messages input system_message
    max_messages max_tokens_approx :
  σ !! messages = Some input →
  let '(returned, σ') :=
    truncate_messages_st messages system_message
      max_messages max_tokens_approx σ in
  σ' !! messages = Some input
  ∧ (∀ l, l < length σ → σ' !! l = σ !! l)
  ∧ returned ≠ messages
  ∧ length σ ≤ returned
  ∧ σ' !! returned
    = Some (truncate_messages input system_message
              max_messages max_tokens_approx).
Proof.
  intros Hinput.
  pose proof (lookup_lt_Some _ _ _ Hinput) as Hmessages.
  destruct (truncate_messages_st_run σ messages input system_message
              max_messages max_tokens_approx Hinput)
    as (returned & σ' & -> & [_ Hsame] & Hnew & Hreturned).
  split_and!; [|done|lia|done|done].
  by rewrite Hsame.
Qed.

(** C9, instance: a store with two lists, the second one passed as
    [messages]. *)
Lemma truncate_messages_st_frame_witness :
  let history := [HumanMessage (ContentStr "q1");
                  AIMessage (ContentStr "") [ToolCallDict (Some "t1")];
                  ToolMessage (ContentStr "r1") "t1"] in
  let σ := [[HumanMessage (ContentStr "other")]; history] in
  σ !! 1 = Some history
  ∧ let '(returned, σ') :=
      truncate_messages_st 1 (Some (ContentStr "You are.")) 20 100000 σ in
    σ' !! 1 = Some history
    ∧ (∀ l, l < length σ → σ' !! l = σ !! l)
    ∧ returned ≠ 1
    ∧ length σ ≤ returned
    ∧ σ' !! returned
      = Some (truncate_messages history (Some (ContentStr "You are."))
                20 100000).
Proof.
  intros history σ.
  assert (Hinput : σ !! 1 = Some history) by reflexivity.
  split; [done|].
  exact (truncate_messages_st_frame σ 1 history
           (Some (ContentStr "You are.")) 20 100000 Hinput).
Defined.


(** * Further properties of [truncate_messages] *)

(** ** The sequences grouping produces *)

Section sequences_shape.
Implicit Types (st : GroupState) (l : list BaseMessage).

Lemma building_close_sequence st :
  building st → Forall well_grouped (close_sequence st).
Proof.
  intros [Hseqs Hcur]. unfold close_sequence.
  destruct Hcur as [[-> _]|Hcur]; [done|].
  pose proof Hcur as (c & tc & tcs & tools & Heq & Htools).
  rewrite Heq; simpl. rewrite <- Heq.
  apply Forall_app. split; [done|].
  constructor; [|constructor]. by right.
Qed.

Lemma building_close_and_reset st :
  building st →
  Forall well_grouped (sequences (close_and_reset st))
  ∧ current_sequence (close_and_reset st) = []
  ∧ pending_tool_call_ids (close_and_reset st) = ∅.
Proof.
  intros Hst. split_and!.
  - rewrite close_and_reset_sequences. by apply building_close_sequence.
  - apply close_and_reset_current.
  - unfold close_and_reset. destruct Hst as [_ [[Hcur Hpending]|Hcur]].
    + by rewrite Hcur.
    + by destruct Hcur as (c & tc & tcs & tools & -> & _).
Qed.

Lemma building_single st msg :
  building st → has_tool_calls msg = false →
  building (mkGroupState (sequences (close_and_reset st) ++ [([msg], true)])
              (current_sequence (close_and_reset st))
              (pending_tool_call_ids (close_and_reset st))).
Proof.
  intros Hst Hmsg.
  destruct (building_close_and_reset st Hst) as (Hseqs & Hcur & Hpending).
  split; simpl; [|by left].
  apply Forall_app. split; [done|].
  constructor; [|constructor]. left. by exists msg.
Qed.

Lemma group_step_building st msg :
  building st → building (group_step st msg).
Proof.
  intros Hst.
  destruct msg as [c|c|c [|tc tcs]|c id|c];
    try (by apply building_single).
  - destruct (building_close_and_reset st Hst) as (Hseqs & Hcur & Hpending).
    cbn [group_step]. split; simpl; [done|].
    right. exists c, tc, tcs, []. by rewrite Hcur.
  - cbn [group_step]. destruct (truthy id && _) eqn:Hid.
    + destruct Hst as [Hseqs Hcur]. split; simpl; [done|].
      destruct Hcur as [[_ Hnone]|(c' & tc & tcs & tools & Hcur & Htools)].
      * rewrite Hnone in Hid. apply andb_true_iff in Hid as [_ Hid].
        apply bool_decide_eq_true in Hid. set_solver.
      * right. exists c', tc, tcs, (tools ++ [ToolMessage c id]).
        rewrite Hcur. split; [done|].
        apply Forall_app. split; [done|]. by constructor.
    + split; simpl; [|by left].
      apply Forall_app. split; [by apply building_close_sequence|].
      constructor; [|constructor]. left. by eexists.
Qed.

Lemma foldl_group_step_building st l :
  building st → building (foldl group_step st l).
Proof.
  revert st. induction l as [|msg l IH]; intros st Hst; [done|].
  simpl. by apply IH, group_step_building.
Qed.

Lemma group_messages_well_grouped l : Forall well_grouped (group_messages l).
Proof.
  apply building_close_sequence, foldl_group_step_building.
  split; [constructor | by left].
Qed.

Lemma tool_sequence_has_ai seq :
  tool_sequence seq → has_ai_with_tool_calls seq = true.
Proof. by intros (c & tc & tcs & tools & -> & _). Qed.

Lemma well_grouped_nonempty g : well_grouped g → g.1 ≠ [].
Proof.
  intros [(msg & -> & _)|(c & tc & tcs & tools & Heq & _)]; [done|].
  by rewrite Heq.
Qed.
End sequences_shape.

(** X1 (grouping): the sequences, in order, are the history cut into pieces,
    none of them empty; a piece is a single message without tool calls,
    flagged complete, or an assistant message with tool calls followed by tool
    messages only. So a sequence flagged incomplete always holds an assistant
    message with tool calls. *)
Theorem group_messages_partition (filtered_messages : list BaseMessage) :
  concat (group_messages filtered_messages).*1 = filtered_messages
  ∧ Forall well_grouped (group_messages filtered_messages)
  ∧ Forall (λ g, g.1 ≠ [] ∧ (g.2 = false → has_ai_with_tool_calls g.1 = true))
      (group_messages filtered_messages).
Proof.
  split_and!.
  - apply group_messages_concat.
  - apply group_messages_well_grouped.
  - eapply Forall_impl; [apply group_messages_well_grouped|].
    intros g Hg. split; [by apply well_grouped_nonempty|].
    destruct Hg as [(msg & -> & _)|Hseq]; [done|].
    intros _. by apply tool_sequence_has_ai.
Qed.

(** ** What selection takes *)

Section selection_complete.
Context (max_messages max_tokens_approx : Z).
Implicit Types (st : SelectState).
Implicit Types (rsequences : list (list BaseMessage * bool)).

Lemma select_loop_chosen_complete st rsequences :
  Forall well_grouped rsequences →
  ∃ chosen, chosen `sublist_of` rsequences
    ∧ Forall (λ g, g.2 = true) chosen
    ∧ messages_to_add (select_loop max_messages max_tokens_approx st rsequences)
      = messages_to_add st ++ concat chosen.*1.
Proof.
  intros Hgroups. revert st.
  induction Hgroups as [|[seq is_complete] older Hg _ IH]; intros st.
  { exists []. split_and!; [done | constructor | by rewrite app_nil_r]. }
  simpl. destruct (negb is_complete && has_ai_with_tool_calls seq) eqn:Hskip.
  { destruct (IH st) as (chosen & Hsub & Hall & ->).
    exists chosen. split_and!; [by apply sublist_cons | done | done]. }
  destruct (has_oversized seq && _).
  { destruct (IH st) as (chosen & Hsub & Hall & ->).
    exists chosen. split_and!; [by apply sublist_cons | done | done]. }
  destruct (fits _ _ st seq).
  - match goal with |- context [select_loop _ _ ?st' older] =>
      destruct (IH st') as (chosen & Hsub & Hall & ->) end.
    exists ((seq, is_complete) :: chosen).
    split_and!; [by apply sublist_skip | | simpl; by rewrite app_assoc].
    constructor; [|done]. simpl.
    destruct Hg as [(msg & Heq & _)|Hseq]; [by simplify_eq|].
    simpl in Hseq. rewrite (tool_sequence_has_ai _ Hseq) in Hskip.
    by destruct is_complete.
  - exists []. split_and!; [apply sublist_nil_l | constructor |].
    by rewrite app_nil_r.
Qed.

Lemma concat_sublist (chosen groups : list (list BaseMessage * bool)) :
  chosen `sublist_of` groups → concat chosen.*1 `sublist_of` concat groups.*1.
Proof.
  induction 1 as [|g chosen groups _ IH|g chosen groups _ IH]; simpl.
  - done.
  - by apply sublist_app.
  - by apply sublist_inserts_l.
Qed.

Lemma concat_reverse_Permutation (groups : list (list BaseMessage * bool)) :
  concat (reverse groups).*1 ≡ₚ concat groups.*1.
Proof.
  induction groups as [|g groups IH]; [done|].
  rewrite reverse_cons, fmap_app, concat_app; simpl.
  rewrite app_nil_r, IH. apply Permutation_app_comm.
Qed.
Lemma select_messages_chosen (filtered_messages : list BaseMessage)
    system_tokens :
  ∃ chosen,
    chosen `sublist_of` reverse (group_messages filtered_messages)
    ∧ Forall (λ g, g.2 = true) chosen
    ∧ select_messages max_messages max_tokens_approx system_tokens
        (group_messages filtered_messages)
      = reverse (concat chosen.*1).
Proof.
  unfold select_messages.
  destruct (select_loop_chosen_complete
              (mkSelectState [] system_tokens 0)
              (reverse (group_messages filtered_messages)))
    as (chosen & Hsub & Hall & ->).
  { apply Forall_reverse, group_messages_well_grouped. }
  by exists chosen.
Qed.
End selection_complete.

Lemma window_body_submseteq messages system_message
    max_messages max_tokens_approx :
  window_body messages system_message max_messages max_tokens_approx
    ⊆+ messages.
Proof.
  unfold window_body.
  etrans; [apply sublist_submseteq, final_clean_sublist|].
  etrans; [apply sublist_submseteq, validate_messages_sublist|].
  destruct (select_messages_chosen max_messages max_tokens_approx
              (filter (λ msg, is_system msg = false) messages)
              (system_tokens_of system_message))
    as (chosen & Hsub & _ & ->).
  rewrite reverse_Permutation.
  etrans; [apply sublist_submseteq, concat_sublist, Hsub|].
  rewrite concat_reverse_Permutation, group_messages_concat.
  apply sublist_submseteq, sublist_filter.
Qed.

(** X2 (selection): selection keeps whole sequences, all of them flagged
    complete: the selected messages are, read backwards, the concatenation of
    some of the sequences taken from the newest to the oldest. *)
Theorem select_messages_whole_sequences max_messages max_tokens_approx
    system_tokens (filtered_messages : list BaseMessage) :
  ∃ chosen,
    chosen `sublist_of` reverse (group_messages filtered_messages)
    ∧ Forall (λ g, g.2 = true) chosen
    ∧ select_messages max_messages max_tokens_approx system_tokens
        (group_messages filtered_messages)
      = reverse (concat chosen.*1).
Proof. apply select_messages_chosen. Qed.

(** X3 (nothing made up, nothing repeated): the messages of the result after
    the system message form a sub-multiset of the history, and none of them is
    a system message. *)
Theorem truncate_messages_submultiset messages system_message
    max_messages max_tokens_approx :
  ∃ body,
    truncate_messages messages system_message max_messages max_tokens_approx
    = initial_result system_message ++ body
    ∧ body ⊆+ messages
    ∧ Forall (λ msg, is_system msg = false) body.
Proof.
  eexists. split; [apply truncate_messages_window|].
  split; [apply window_body_submseteq | apply window_body_not_system].
Qed.

(** ** Budgets that admit nothing, and histories without content *)

Section nothing_selected.
Context (max_messages max_tokens_approx : Z).
Implicit Types (st : SelectState).

Lemma select_loop_nothing st rsequences :
  Forall (λ g : list BaseMessage * bool, g.1 ≠ []) rsequences →
  messages_to_add st = [] →
  (0 ≤ message_count st)%Z →
  (max_messages < 1 ∨ max_tokens_approx < total_tokens_approx st)%Z →
  messages_to_add (select_loop max_messages max_tokens_approx st rsequences)
  = [].
Proof.
  intros Hgroups Hempty Hcount Hbudget.
  induction Hgroups as [|[seq is_complete] older Hseq _ IH]; [done|].
  simpl. destruct (negb is_complete && _); [done|].
  destruct (has_oversized seq && _); [done|].
  assert (Hfits : fits max_messages max_tokens_approx st seq = false).
  { unfold fits. apply andb_false_iff.
    pose proof (sum_tokens_nonneg seq).
    destruct seq; [done|]. simpl length.
    destruct Hbudget; [left|right]; apply Z.leb_gt; lia. }
  by rewrite Hfits.
Qed.

Lemma validate_messages_nil : validate_messages [] = [].
Proof. reflexivity. Qed.

Lemma final_clean_nil : final_clean [] = [].
Proof. reflexivity. Qed.
End nothing_selected.

(** X4 (budgets that admit nothing): with [max_messages] below 1, or
    [max_tokens_approx] below the estimate of the system message, no sequence
    fits and the result is the system message alone (the empty list when none
    is supplied). *)
Theorem truncate_messages_no_room messages system_message
    max_messages max_tokens_approx :
  (max_messages < 1 ∨ max_tokens_approx < system_tokens_of system_message)%Z →
  truncate_messages messages system_message max_messages max_tokens_approx
  = initial_result system_message.
Proof.
  intros Hbudget. rewrite truncate_messages_window.
  unfold window_body, select_messages.
  rewrite select_loop_nothing; [by rewrite app_nil_r| |done|done|done].
  apply Forall_reverse.
  eapply Forall_impl; [apply group_messages_well_grouped|].
  intros g. apply well_grouped_nonempty.
Qed.

(** X4, instance: [max_messages = 0]. *)
Lemma truncate_messages_no_room_witness :
  (0 < 1 ∨ 100000 < system_tokens_of (Some (ContentStr "You are.")))%Z
  ∧ truncate_messages [HumanMessage (ContentStr "hi")]
      (Some (ContentStr "You are.")) 0 100000
    = [SystemMessage (ContentStr "You are.")].
Proof.
  assert (Hbudget :
    (0 < 1 ∨ 100000 < system_tokens_of (Some (ContentStr "You are.")))%Z)
    by (left; lia).
  split; [done|].
  exact (truncate_messages_no_room [HumanMessage (ContentStr "hi")]
           (Some (ContentStr "You are.")) 0 100000 Hbudget).
Defined.

(** X5 (history without content): a history that holds system messages only,
    the empty one in particular, is answered by the supplied system message
    alone: the system messages of the history are never passed on. *)
Theorem truncate_messages_only_system messages system_message
    max_messages max_tokens_approx :
  Forall (λ msg, is_system msg = true) messages →
  truncate_messages messages system_message max_messages max_tokens_approx
  = initial_result system_message.
Proof.
  intros Hsystem. unfold truncate_messages.
  replace (filter (λ msg, is_system msg = false) messages) with (@nil BaseMessage);
    [done|].
  induction Hsystem as [|msg messages Hmsg _ IH]; [done|].
  rewrite filter_cons_False by (by rewrite Hmsg). done.
Qed.

(** X5, instance: a history of one system message. *)
Lemma truncate_messages_only_system_witness :
  Forall (λ msg, is_system msg = true) [SystemMessage (ContentStr "old")]
  ∧ truncate_messages [SystemMessage (ContentStr "old")]
      (Some (ContentStr "You are.")) 20 100000
    = [SystemMessage (ContentStr "You are.")].
Proof.
  assert (Hsystem :
    Forall (λ msg, is_system msg = true) [SystemMessage (ContentStr "old")])
    by (repeat constructor).
  split; [done|].
  exact (truncate_messages_only_system [SystemMessage (ContentStr "old")]
           (Some (ContentStr "You are.")) 20 100000 Hsystem).
Defined.

(** ** The validation passes remove tool-call traffic only *)

Section plain_kept.
Implicit Types (l rest : list BaseMessage).
Implicit Types (required included : gset string).
Implicit Types (by_id : gmap string BaseMessage).

Abbreviation plain_only := (filter (λ msg : BaseMessage, plain msg = true)).

Lemma plain_only_tool c id l :
  plain_only (ToolMessage c id :: l) = plain_only l.
Proof. by rewrite filter_cons_False. Qed.

Lemma plain_only_calls c tc tcs l :
  plain_only (AIMessage c (tc :: tcs) :: l) = plain_only l.
Proof. by rewrite filter_cons_False. Qed.

Lemma plain_only_plain msg l :
  is_tool msg = false → has_tool_calls msg = false →
  plain_only (msg :: l) = msg :: plain_only l.
Proof.
  intros Htool Hcalls. rewrite filter_cons_True; [done|].
  unfold plain. by rewrite Htool, Hcalls.
Qed.

Lemma skip_tool_messages_plain required l :
  plain_only (skip_tool_messages required l) = plain_only l.
Proof.
  induction l as [|m l IH]; [done|].
  destruct m as [c|c|c tcs|c id|c]; try done.
  simpl. destruct (truthy id && _); [|done].
  by rewrite plain_only_tool.
Qed.

Lemma collect_tool_messages_plain required included l :
  plain_only (collect_tool_messages required included l []).1 = []
  ∧ plain_only (collect_tool_messages required included l []).2 = plain_only l.
Proof.
  revert included. induction l as [|m l IH]; intros included; [done|].
  destruct m as [c|c|c tcs|c id|c]; try done.
  simpl. destruct (truthy id && _); [|done].
  rewrite plain_only_tool.
  destruct (bool_decide (id ∉ included)); [|apply IH].
  rewrite collect_tool_messages_validated; simpl.
  rewrite plain_only_tool. apply IH.
Qed.

Lemma include_tool_messages_plain required included l :
  plain_only (include_tool_messages required included l []).1 = []
  ∧ plain_only (include_tool_messages required included l []).2 = plain_only l.
Proof.
  revert included. induction l as [|m l IH]; intros included; [done|].
  destruct m as [c|c|c tcs|c id|c]; try done.
  simpl. destruct (truthy id && _ && _); [|done].
  rewrite plain_only_tool.
  rewrite include_tool_messages_final; simpl.
  rewrite plain_only_tool. apply IH.
Qed.

Lemma validate_loop_keeps_plain fuel by_id l :
  length l ≤ fuel →
  plain_only (validate_loop fuel by_id l []) = plain_only l.
Proof.
  revert l. induction fuel as [|fuel IH]; intros l Hlen.
  { by destruct l; [|simpl in Hlen; lia]. }
  destruct l as [|m rest]; [done|]. simpl in Hlen.
  destruct m as [c|c|c [|tc tcs]|c id|c];
    try (rewrite validate_loop_plain, !plain_only_plain by done;
         rewrite IH by lia; done).
  - rewrite validate_loop_calls, plain_only_calls.
    repeat case_bool_decide.
    + rewrite plain_only_calls. apply IH. lia.
    + rewrite plain_only_calls, filter_app.
      destruct (collect_tool_messages_plain (required_ids (tc :: tcs)) ∅ rest)
        as [-> <-].
      apply IH.
      pose proof (collect_tool_messages_length
                    (required_ids (tc :: tcs)) ∅ rest []). lia.
    + rewrite <- (skip_tool_messages_plain (required_ids (tc :: tcs)) rest).
      apply IH.
      pose proof (skip_tool_messages_length (required_ids (tc :: tcs)) rest).
      lia.
  - rewrite validate_loop_tool, plain_only_tool. apply IH. lia.
Qed.

Lemma final_loop_keeps_plain fuel by_id l :
  length l ≤ fuel →
  plain_only (final_loop fuel by_id l []) = plain_only l.
Proof.
  revert l. induction fuel as [|fuel IH]; intros l Hlen.
  { by destruct l; [|simpl in Hlen; lia]. }
  destruct l as [|m rest]; [done|]. simpl in Hlen.
  destruct m as [c|c|c [|tc tcs]|c id|c];
    try (rewrite final_loop_plain, !plain_only_plain by done;
         rewrite IH by lia; done).
  - rewrite final_loop_calls, plain_only_calls.
    destruct (negb _ && _ && _ && _).
    + rewrite plain_only_calls, filter_app.
      destruct (include_tool_messages_plain (required_ids (tc :: tcs)) ∅ rest)
        as [-> <-].
      apply IH.
      pose proof (include_tool_messages_length
                    (required_ids (tc :: tcs)) ∅ rest []). lia.
    + rewrite <- (skip_tool_messages_plain (required_ids (tc :: tcs)) rest).
      apply IH.
      pose proof (skip_tool_messages_length (required_ids (tc :: tcs)) rest).
      lia.
  - rewrite final_loop_tool, plain_only_tool. apply IH. lia.
Qed.

Lemma passes_keep_plain l :
  plain_only (final_clean (validate_messages l)) = plain_only l.
Proof.
  unfold final_clean, validate_messages.
  rewrite final_loop_keeps_plain by done.
  by apply validate_loop_keeps_plain.
Qed.
End plain_kept.

(** X6 (the passes keep plain messages): the two validation passes never
    remove a user turn or an assistant turn without tool calls: of the
    selected messages, those that neither carry a tool call nor answer one all
    reach the result, in the same order. *)
Theorem validation_keeps_plain (selected : list BaseMessage) :
  filter (λ msg, plain msg = true) (final_clean (validate_messages selected))
  = filter (λ msg, plain msg = true) selected.
Proof. apply passes_keep_plain. Qed.

(** ** Histories whose tool calls expose no id as an attribute *)

Section no_attribute.
Implicit Types (l : list BaseMessage) (st : GroupState).

Lemma foldl_add_pending pending tool_calls :
  foldl add_pending pending tool_calls = pending ∪ attribute_ids tool_calls.
Proof.
  unfold attribute_ids. revert pending.
  induction tool_calls as [|tc tcs IH] using rev_ind; intros pending.
  { simpl. set_solver. }
  rewrite !foldl_app; simpl. rewrite IH.
  destruct tc as [[id|]|id]; simpl; try done.
  destruct (truthy id); [|done]. set_solver.
Qed.

Lemma mapping_calls_no_attribute_id msg :
  mapping_calls msg = true → no_attribute_id msg = true.
Proof.
  destruct msg as [c|c|c tcs|c id|c]; try done. simpl.
  intros Hall. apply bool_decide_eq_true. unfold attribute_ids.
  induction tcs as [|[|] tcs IH]; simplify_eq/=; [done|].
  apply IH. by destruct (forallb _ tcs).
Qed.

(** Without readable ids nothing is ever pending, and every message is a
    sequence of its own. *)
Lemma foldl_group_step_no_attribute l :
  Forall (λ msg, no_attribute_id msg = true) l →
  pending_tool_call_ids (foldl group_step (mkGroupState [] [] ∅) l) = ∅
  ∧ close_sequence (foldl group_step (mkGroupState [] [] ∅) l) = single <$> l.
Proof.
  induction l as [|msg l IH] using rev_ind; [done|].
  intros [Hl Hmsg]%Forall_app. apply Forall_inv in Hmsg.
  destruct (IH Hl) as [Hpending Hclosed].
  rewrite foldl_app, fmap_app. cbn [foldl fmap list_fmap].
  set (st := foldl group_step _ l) in *.
  assert (Hreset : pending_tool_call_ids (close_and_reset st) = ∅).
  { unfold close_and_reset. by destruct (current_sequence st). }
  assert (Hsingle :
    pending_tool_call_ids
      (mkGroupState (sequences (close_and_reset st) ++ [([msg], true)])
         (current_sequence (close_and_reset st))
         (pending_tool_call_ids (close_and_reset st))) = ∅
    ∧ close_sequence
        (mkGroupState (sequences (close_and_reset st) ++ [([msg], true)])
           (current_sequence (close_and_reset st))
           (pending_tool_call_ids (close_and_reset st)))
      = (single <$> l) ++ [single msg]).
  { split; [done|]. unfold close_sequence; simpl.
    by rewrite close_and_reset_current, close_and_reset_sequences, Hclosed. }
  destruct msg as [c|c|c [|tc tcs]|c id|c]; try exact Hsingle.
  - cbn [group_step]. simpl in Hmsg. apply bool_decide_eq_true in Hmsg.
    rewrite foldl_add_pending, Hmsg, Hreset.
    split; [simpl; set_solver|].
    unfold close_sequence; simpl.
    rewrite close_and_reset_current, close_and_reset_sequences, Hclosed.
    simpl. rewrite bool_decide_eq_true_2 by set_solver. done.
  - cbn [group_step]. rewrite Hpending.
    rewrite bool_decide_eq_false_2, andb_false_r by set_solver.
    split; [done|]. unfold close_sequence at 1; simpl. by rewrite Hclosed.
Qed.

Lemma group_messages_no_attribute l :
  Forall (λ msg, no_attribute_id msg = true) l →
  group_messages l = single <$> l.
Proof. intros Hl. by apply foldl_group_step_no_attribute. Qed.

Lemma concat_single l : concat (single <$> l).*1 = l.
Proof. induction l as [|msg l IH]; [done|]. simpl. by f_equal. Qed.

Lemma sublist_reverse {A} (l1 l2 : list A) :
  l1 `sublist_of` l2 → reverse l1 `sublist_of` reverse l2.
Proof.
  induction 1 as [|x l1 l2 _ IH|x l1 l2 _ IH]; [done|..];
    rewrite ?reverse_cons.
  - by apply sublist_app.
  - by apply sublist_inserts_r.
Qed.

Lemma select_messages_no_attribute max_messages max_tokens_approx
    system_tokens l :
  Forall (λ msg, no_attribute_id msg = true) l →
  select_messages max_messages max_tokens_approx system_tokens
    (group_messages l) `sublist_of` l.
Proof.
  intros Hl.
  destruct (select_messages_chosen max_messages max_tokens_approx
              l system_tokens) as (chosen & Hsub & _ & ->).
  rewrite group_messages_no_attribute in Hsub by done.
  apply concat_sublist in Hsub.
  rewrite <- fmap_reverse, concat_single in Hsub.
  apply sublist_reverse in Hsub. by rewrite reverse_involutive in Hsub.
Qed.
Lemma window_body_no_attribute l system_message
    max_messages max_tokens_approx :
  Forall (λ msg, no_attribute_id msg = true) l →
  window_body l system_message max_messages max_tokens_approx `sublist_of` l.
Proof.
  intros Hl. unfold window_body.
  etrans; [apply final_clean_sublist|].
  etrans; [apply validate_messages_sublist|].
  etrans; [|apply (sublist_filter (λ msg, is_system msg = false))].
  apply select_messages_no_attribute.
  eapply Forall_sublist_of; [apply sublist_filter | done].
Qed.
End no_attribute.

(** X7 (order, without attribute ids): when no tool call of the history has
    an id that can be read as an attribute (tool calls given as mappings are
    the case in point), every message is a sequence of its own and the result,
    after the system message, is an order-preserving subsequence of the
    history. *)
Theorem truncate_messages_subsequence messages system_message
    max_messages max_tokens_approx :
  Forall (λ msg, no_attribute_id msg = true) messages →
  ∃ body,
    truncate_messages messages system_message max_messages max_tokens_approx
    = initial_result system_message ++ body
    ∧ body `sublist_of` messages.
Proof.
  intros Hmessages.
  eexists. split; [apply truncate_messages_window|].
  by apply window_body_no_attribute.
Qed.

(** X7, instance: a history with one tool call given as a mapping. *)
Lemma truncate_messages_subsequence_witness :
  let history := [HumanMessage (ContentStr "q1");
                  AIMessage (ContentStr "") [ToolCallDict (Some "t1")];
                  ToolMessage (ContentStr "r1") "t1";
                  AIMessage (ContentStr "a1") []] in
  Forall (λ msg, no_attribute_id msg = true) history
  ∧ ∃ body,
      truncate_messages history (Some (ContentStr "You are.")) 20 100000
      = [SystemMessage (ContentStr "You are.")] ++ body
      ∧ body `sublist_of` history.
Proof.
  intros history.
  assert (Hhistory : Forall (λ msg, no_attribute_id msg = true) history)
    by (repeat constructor).
  split; [done|].
  exact (truncate_messages_subsequence history
           (Some (ContentStr "You are.")) 20 100000 Hhistory).
Defined.

(** C10 (order-preserving subsequence): tool calls are mappings, as
    [AIMessage.tool_calls] holds them. For every such history, every system
    message and all budgets, the result after the leading system message is
    an order-preserving subsequence of the history: its messages are messages
    of the history, none taken twice, in the order of the history. *)
Theorem truncate_messages_order_preserved messages system_message
    max_messages max_tokens_approx :
  Forall (λ msg, mapping_calls msg = true) messages →
  ∃ body,
    truncate_messages messages system_message max_messages max_tokens_approx
    = initial_result system_message ++ body
    ∧ body `sublist_of` messages.
Proof.
  intros Hmessages.
  eexists. split; [apply truncate_messages_window|].
  apply window_body_no_attribute.
  eapply Forall_impl; [exact Hmessages|].
  intros msg. apply mapping_calls_no_attribute_id.
Qed.

(** C10, instance: two assistant messages declaring the same ids, each
    followed by its results, the tool calls being mappings. *)
Lemma truncate_messages_order_preserved_witness :
  let calls := [ToolCallDict (Some "a"); ToolCallDict (Some "b")] in
  let history := [AIMessage (ContentStr "first") calls;
                  ToolMessage (ContentStr "a1") "a";
                  ToolMessage (ContentStr "b1") "b";
                  AIMessage (ContentStr "second") calls;
                  ToolMessage (ContentStr "a2") "a";
                  ToolMessage (ContentStr "b2") "b"] in
  let system_message := Some (ContentStr "You are.") in
  Forall (λ msg, mapping_calls msg = true) history
  ∧ ∃ body,
      truncate_messages history system_message
        default_max_messages default_max_tokens_approx
      = initial_result system_message ++ body
      ∧ body `sublist_of` history.
Proof.
  intros calls history system_message.
  assert (Hhistory : Forall (λ msg, mapping_calls msg = true) history)
    by (repeat constructor).
  split; [done|].
  exact (truncate_messages_order_preserved history system_message
           default_max_messages default_max_tokens_approx Hhistory).
Defined.

(** ** A second application, when no id is read as an attribute *)

Section second_application.
Context (max_messages max_tokens_approx : Z).
Implicit Types (st : SelectState) (l body run : list BaseMessage).

(** Only the group accepted first may hold a message above the ceiling. *)
Lemma select_loop_ceiling st r :
  ∃ added,
    messages_to_add
      (select_loop max_messages max_tokens_approx st (single <$> r))
    = messages_to_add st ++ added
    ∧ (messages_to_add st ≠ [] → Forall within_ceiling added)
    ∧ Forall within_ceiling (tail added).
Proof.
  revert st. induction r as [|msg r IH]; intros st.
  { exists []. rewrite app_nil_r. by split_and!; [|constructor|constructor]. }
  cbn [fmap list_fmap single select_loop negb andb].
  destruct (has_oversized [msg] && _) eqn:Hover; [apply IH|].
  destruct (fits _ _ st [msg]).
  - match goal with |- context [select_loop _ _ ?st1 _] =>
      destruct (IH st1) as (added & Hadded & Hall & _) end.
    cbn [messages_to_add] in Hadded, Hall.
    assert (Hrest : Forall within_ceiling added).
    { apply Hall. by destruct (messages_to_add st). }
    exists (msg :: added). split_and!.
    + by rewrite Hadded, <- app_assoc.
    + intros Hne. constructor; [|done].
      destruct (messages_to_add st); [done|].
      rewrite andb_true_r in Hover. unfold has_oversized in Hover.
      simpl in Hover. rewrite orb_false_r in Hover.
      apply Z.ltb_ge in Hover. exact Hover.
    + done.
  - exists []. rewrite app_nil_r. by split_and!; [|constructor|constructor].
Qed.

Lemma Forall_tail_sublist {A} (P : A → Prop) (l1 l2 : list A) :
  l1 `sublist_of` l2 → Forall P (tail l2) → Forall P (tail l1).
Proof.
  induction 1 as [|x l1 l2 Hsub _|x l1 l2 Hsub IH]; simpl; intros HP.
  - done.
  - by eapply Forall_sublist_of.
  - apply Forall_tail. by eapply Forall_sublist_of.
Qed.

(** Messages within the ceiling that fit together are all accepted. *)
Lemma select_loop_all st r :
  Forall within_ceiling r →
  (message_count st + Z.of_nat (length r) ≤ max_messages)%Z →
  (total_tokens_approx st + sum_tokens r ≤ max_tokens_approx)%Z →
  messages_to_add
    (select_loop max_messages max_tokens_approx st (single <$> r))
  = messages_to_add st ++ r.
Proof.
  intros Hr. revert st.
  induction Hr as [|msg r Hmsg _ IH]; intros st Hcount Htotal.
  { simpl. by rewrite app_nil_r. }
  cbn [fmap list_fmap single select_loop negb andb].
  unfold has_oversized; cbn [existsb].
  unfold within_ceiling in Hmsg.
  rewrite (proj2 (Z.ltb_ge _ _) Hmsg); cbn [orb andb].
  pose proof (sum_tokens_nonneg r). pose proof (get_message_tokens_nonneg msg).
  simpl in Hcount, Htotal.
  unfold fits. simpl.
  rewrite (proj2 (Z.leb_le _ _)), (proj2 (Z.leb_le _ _)) by lia. simpl.
  rewrite IH; simpl; [by rewrite <- app_assoc | lia | lia].
Qed.

Lemma select_messages_all system_tokens body :
  body = []
  ∨ (Z.of_nat (length body) ≤ max_messages
     ∧ system_tokens + sum_tokens body ≤ max_tokens_approx)%Z →
  Forall within_ceiling (tail (reverse body)) →
  select_messages max_messages max_tokens_approx system_tokens
    (single <$> body) = body.
Proof.
  intros Hbudget Hceiling. unfold select_messages.
  rewrite <- fmap_reverse.
  destruct Hbudget as [->|[Hn Ht]]; [done|].
  rewrite <- (length_reverse body), <- (sum_tokens_reverse body) in *.
  rewrite <- (reverse_involutive body) at 2.
  destruct (reverse body) as [|msg r]; [done|]. f_equal.
  simpl in Hceiling, Hn, Ht.
  pose proof (sum_tokens_nonneg r).
  cbn [fmap list_fmap]. change (single msg) with ([msg], true).
  rewrite select_loop_first by done.
  unfold fits. simpl.
  rewrite (proj2 (Z.leb_le _ _)), (proj2 (Z.leb_le _ _)) by lia. simpl.
  rewrite select_loop_all; simpl; [done | done | lia | lia].
Qed.

Lemma index_tool_messages_dom l c id :
  ToolMessage c id ∈ l → truthy id = true →
  id ∈ dom (index_tool_messages l).
Proof.
  intros Hin Hid. induction l as [|msg l IH] using rev_ind.
  { by apply elem_of_nil in Hin. }
  unfold index_tool_messages. rewrite foldl_app. simpl.
  fold (index_tool_messages l).
  apply elem_of_app in Hin as [Hin|Hin%list_elem_of_singleton].
  - specialize (IH Hin). destruct msg as [| | |c' id'|]; try done.
    destruct (truthy id'); [|done]. rewrite dom_insert_L. set_solver.
  - subst msg. rewrite Hid, dom_insert_L. set_solver.
Qed.

Lemma collect_tool_messages_exact required included run l :
  tool_run required run → head_not_tool l →
  (∀ id, id ∈ tool_ids run → id ∉ included) →
  collect_tool_messages required included (run ++ l) [] = (run, l).
Proof.
  intros [Hrun Hnd] Hl. revert included Hnd.
  induction Hrun as [|m run Hm _ IH]; intros included Hnd Hnew; simpl.
  - destruct l as [|[] ?]; simplify_eq/=; done.
  - destruct m as [| | |c id|]; simplify_eq/=. rewrite Hm; simpl.
    apply NoDup_cons in Hnd as [Hid Hnd].
    rewrite bool_decide_eq_true_2 by (apply Hnew; left).
    rewrite collect_tool_messages_validated, IH; [done..|].
    intros id' Hin. specialize (Hnew id' (list_elem_of_further _ _ _ Hin)).
    set_solver.
Qed.

(** The ids answered by a run are indexed whenever its tool messages are. *)
Lemma run_indexed (by_id : gmap string BaseMessage) required run l :
  tool_run required run →
  (∀ c id, ToolMessage c id ∈ run ++ l → truthy id = true → id ∈ dom by_id) →
  list_to_set (tool_ids run) ⊆ dom by_id.
Proof.
  intros [Hrun _] Hdom id Hid.
  apply elem_of_list_to_set, tool_ids_elem_of in Hid as [c Hin].
  rewrite Forall_forall in Hrun.
  destruct (answers_tool _ _ (Hrun _ Hin)) as (c' & id' & Heq & Htruthy & _).
  simplify_eq. apply (Hdom c'); [|done]. apply elem_of_app. by left.
Qed.

(** A list in which every tool-call sequence is whole passes both validation
    passes unchanged. *)
Lemma validate_loop_fixed fuel by_id l :
  atomic l → length l ≤ fuel →
  (∀ c id, ToolMessage c id ∈ l → truthy id = true → id ∈ dom by_id) →
  validate_loop fuel by_id l [] = l.
Proof.
  intros Hl. revert fuel.
  induction Hl as [|m l Htool Hcalls Hl IH|c tc tcs run l Hrun Hids Hne Hl IH];
    intros fuel Hlen Hdom.
  - by destruct fuel.
  - destruct fuel as [|fuel]; [simpl in Hlen; lia|].
    rewrite validate_loop_plain by done. f_equal.
    apply IH; [simpl in Hlen; lia|].
    intros c id Hin. apply (Hdom c). by right.
  - destruct fuel as [|fuel]; [simpl in Hlen; lia|].
    pose proof (shaped_head_not_tool _ (atomic_shaped _ Hl)) as Hhead.
    assert (Hdom' : ∀ c' id, ToolMessage c' id ∈ run ++ l →
                      truthy id = true → id ∈ dom by_id).
    { intros c' id Hin. apply (Hdom c'). by right. }
    pose proof (run_indexed by_id _ _ _ Hrun Hdom') as Hsub.
    rewrite validate_loop_calls. cbv zeta.
    rewrite bool_decide_eq_false_2 by done.
    rewrite bool_decide_eq_true_2 by set_solver.
    rewrite collect_tool_messages_exact by (done || set_solver). simpl.
    do 2 f_equal. apply IH.
    + simpl in Hlen. rewrite length_app in Hlen. lia.
    + intros c' id Hin. apply (Hdom' c'). apply elem_of_app. by right.
Qed.

Lemma final_loop_fixed fuel by_id l :
  atomic l → length l ≤ fuel →
  (∀ c id, ToolMessage c id ∈ l → truthy id = true → id ∈ dom by_id) →
  final_loop fuel by_id l [] = l.
Proof.
  intros Hl. revert fuel.
  induction Hl as [|m l Htool Hcalls Hl IH|c tc tcs run l Hrun Hids Hne Hl IH];
    intros fuel Hlen Hdom.
  - by destruct fuel.
  - destruct fuel as [|fuel]; [simpl in Hlen; lia|].
    rewrite final_loop_plain by done. f_equal.
    apply IH; [simpl in Hlen; lia|].
    intros c id Hin. apply (Hdom c). by right.
  - destruct fuel as [|fuel]; [simpl in Hlen; lia|].
    pose proof (shaped_head_not_tool _ (atomic_shaped _ Hl)) as Hhead.
    assert (Hdom' : ∀ c' id, ToolMessage c' id ∈ run ++ l →
                      truthy id = true → id ∈ dom by_id).
    { intros c' id Hin. apply (Hdom c'). by right. }
    pose proof (run_indexed by_id _ _ _ Hrun Hdom') as Hsub.
    rewrite final_loop_calls. cbv zeta.
    rewrite scan_tool_messages_run by (done || apply Hrun).
    rewrite union_empty_l_L.
    rewrite (bool_decide_eq_false_2 (_ = ∅)) by done.
    rewrite (bool_decide_eq_true_2 (0 < _)).
    2:{ destruct (decide (size (required_ids (tc :: tcs)) = 0)) as [Hz|]; [|lia].
        by apply size_empty_iff in Hz as ?%leibniz_equiv. }
    rewrite (bool_decide_eq_true_2 (_ ⊆ _)) by (by rewrite <- Hids).
    rewrite (bool_decide_eq_true_2 (_ = _)) by done. simpl.
    rewrite include_tool_messages_run by (done || set_solver). simpl.
    do 2 f_equal. apply IH.
    + simpl in Hlen. rewrite length_app in Hlen. lia.
    + intros c' id Hin. apply (Hdom' c'). apply elem_of_app. by right.
Qed.

Lemma validate_messages_fixed l : atomic l → validate_messages l = l.
Proof.
  intros Hl. apply validate_loop_fixed; [done | done |].
  apply index_tool_messages_dom.
Qed.

Lemma final_clean_fixed l : atomic l → final_clean l = l.
Proof.
  intros Hl. apply final_loop_fixed; [done | done |].
  apply index_tool_messages_dom.
Qed.

Lemma filter_initial_result system_message body :
  Forall (λ msg, is_system msg = false) body →
  filter (λ msg, is_system msg = false) (initial_result system_message ++ body)
  = body.
Proof.
  intros Hbody.
  assert (Hall : filter (λ msg, is_system msg = false) body = body).
  { induction Hbody as [|msg body Hmsg _ IH]; [done|].
    by rewrite filter_cons_True, IH. }
  destruct system_message as [c|]; simpl; [|done].
  by rewrite filter_cons_False.
Qed.
End second_application.

Section second_application_window.
Context (system_message : option Content) (max_messages max_tokens_approx : Z).
Implicit Types (messages : list BaseMessage).

(** Read from the newest message, only the first one of the window may exceed
    the ceiling. *)
Lemma window_body_ceiling messages :
  Forall (λ msg, no_attribute_id msg = true) messages →
  Forall within_ceiling
    (tail (reverse (window_body messages system_message
                      max_messages max_tokens_approx))).
Proof.
  intros Hmessages. unfold window_body, select_messages.
  rewrite group_messages_no_attribute
    by (eapply Forall_sublist_of; [apply sublist_filter | done]).
  rewrite <- fmap_reverse.
  match goal with |- context [select_loop _ _ ?st (single <$> ?r)] =>
    destruct (select_loop_ceiling max_messages max_tokens_approx st r)
      as (added & Hadded & _ & Hceiling) end.
  rewrite Hadded. simpl.
  eapply Forall_tail_sublist; [|exact Hceiling].
  rewrite <- (reverse_involutive added) at 2. apply sublist_reverse.
  etrans; [apply final_clean_sublist | apply validate_messages_sublist].
Qed.

Lemma window_body_fixed messages :
  Forall (λ msg, no_attribute_id msg = true) messages →
  let body :=
    window_body messages system_message max_messages max_tokens_approx in
  window_body (initial_result system_message ++ body) system_message
    max_messages max_tokens_approx = body.
Proof.
  intros Hmessages body.
  assert (Hbody : Forall (λ msg, no_attribute_id msg = true) body).
  { eapply Forall_sublist_of; [by apply window_body_no_attribute | done]. }
  unfold window_body at 1.
  rewrite filter_initial_result by apply window_body_not_system.
  rewrite group_messages_no_attribute by done.
  rewrite select_messages_all.
  - rewrite validate_messages_fixed by apply window_body_atomic.
    apply final_clean_fixed, window_body_atomic.
  - apply window_body_budget.
  - by apply window_body_ceiling.
Qed.
End second_application_window.

(** X8 (idempotence, without attribute ids): when no tool call of the history
    has an id that can be read as an attribute (tool calls given as mappings),
    the function is idempotent: applied to its own result with the same system
    message and the same budgets, it returns that result. *)
Theorem truncate_messages_idempotent_no_attribute messages system_message
    max_messages max_tokens_approx :
  Forall (λ msg, no_attribute_id msg = true) messages →
  let out :=
    truncate_messages messages system_message max_messages max_tokens_approx in
  truncate_messages out system_message max_messages max_tokens_approx = out.
Proof.
  intros Hmessages out. subst out.
  rewrite (truncate_messages_window messages).
  rewrite truncate_messages_window.
  f_equal. by apply window_body_fixed.
Qed.

(** X8, instance: tool calls given as mappings, under a budget of three
    messages. *)
Lemma truncate_messages_idempotent_no_attribute_witness :
  let history := [HumanMessage (ContentStr "q1");
                  AIMessage (ContentStr "") [ToolCallDict (Some "t1")];
                  ToolMessage (ContentStr "r1") "t1";
                  AIMessage (ContentStr "a1") [];
                  HumanMessage (ContentStr "q2")] in
  let system_message := Some (ContentStr "You are.") in
  Forall (λ msg, no_attribute_id msg = true) history
  ∧ truncate_messages (truncate_messages history system_message 3 100000)
      system_message 3 100000
    = truncate_messages history system_message 3 100000.
Proof.
  intros history system_message.
  assert (Hhistory : Forall (λ msg, no_attribute_id msg = true) history)
    by (repeat constructor).
  split; [done|].
  exact (truncate_messages_idempotent_no_attribute history system_message
           3 100000 Hhistory).
Defined.

(** C7 (idempotence): tool calls are mappings, as [AIMessage.tool_calls]
    holds them. For every such history, every system message and all budgets,
    the function applied to its own result, with the same system message and
    the same budgets, returns that result unchanged. *)
Theorem truncate_messages_reapplied messages system_message
    max_messages max_tokens_approx :
  Forall (λ msg, mapping_calls msg = true) messages →
  let out :=
    truncate_messages messages system_message max_messages max_tokens_approx in
  truncate_messages out system_message max_messages max_tokens_approx = out.
Proof.
  intros Hmessages out. subst out.
  rewrite (truncate_messages_window messages).
  rewrite truncate_messages_window.
  f_equal. apply window_body_fixed.
  eapply Forall_impl; [exact Hmessages|].
  intros msg. apply mapping_calls_no_attribute_id.
Qed.

(** C7, instance: an assistant message with one tool call, a mapping,
    followed by two results for it. *)
Lemma truncate_messages_reapplied_witness :
  let history := [AIMessage (ContentStr "") [ToolCallDict (Some "t1")];
                  ToolMessage (ContentStr "r1") "t1";
                  ToolMessage (ContentStr "r2") "t1"] in
  let system_message := Some (ContentStr "You are.") in
  Forall (λ msg, mapping_calls msg = true) history
  ∧ truncate_messages
      (truncate_messages history system_message
         default_max_messages default_max_tokens_approx)
      system_message default_max_messages default_max_tokens_approx
    = truncate_messages history system_message
        default_max_messages default_max_tokens_approx.
Proof.
  intros history system_message.
  assert (Hhistory : Forall (λ msg, mapping_calls msg = true) history)
    by (repeat constructor).
  split; [done|].
  exact (truncate_messages_reapplied history system_message
           default_max_messages default_max_tokens_approx Hhistory).
Defined.

(** ** Lists that satisfy the tool-calling contract *)

(** X9 (the passes are idempotent): applied to what the two validation passes
    return, each of them removes nothing more. *)
Theorem validation_passes_stable (selected : list BaseMessage) :
  let cleaned := final_clean (validate_messages selected) in
  validate_messages cleaned = cleaned ∧ final_clean cleaned = cleaned.
Proof.
  intros cleaned.
  assert (Hcleaned : atomic cleaned)
    by apply final_clean_atomic, validate_messages_shaped.
  split; [by apply validate_messages_fixed | by apply final_clean_fixed].
Qed.

(** X10 (nothing removed without need): a history without system message
    whose tool calls expose no id as an attribute, in which every assistant
    message with tool calls declares at least one id (neither [None] nor
    empty) and is directly followed by exactly one tool message for each id
    it declares, in which no other tool message occurs, whose messages are
    within the per-message ceiling and which fits both budgets, is returned
    whole after the system message. An assistant message whose tool calls
    declare no id is excluded: the final pass always removes it. *)
Theorem truncate_messages_keeps_all messages system_message
    max_messages max_tokens_approx :
  Forall (λ msg, no_attribute_id msg = true) messages →
  Forall (λ msg, is_system msg = false) messages →
  atomic messages →
  Forall within_ceiling messages →
  (Z.of_nat (length messages) ≤ max_messages)%Z →
  (system_tokens_of system_message + sum_tokens messages
   ≤ max_tokens_approx)%Z →
  truncate_messages messages system_message max_messages max_tokens_approx
  = initial_result system_message ++ messages.
Proof.
  intros Hattr Hsys Hatomic Hceiling Hcount Htokens.
  rewrite truncate_messages_window. f_equal. unfold window_body.
  pose proof (filter_initial_result None messages Hsys) as Hfilter.
  simpl in Hfilter. rewrite Hfilter.
  rewrite group_messages_no_attribute by done.
  rewrite select_messages_all.
  - rewrite validate_messages_fixed by done. by apply final_clean_fixed.
  - by right.
  - by apply Forall_tail, Forall_reverse.
Qed.

(** X10, instance: a tool call given as a mapping, with its answer. *)
Lemma truncate_messages_keeps_all_witness :
  let history := [HumanMessage (ContentStr "q1");
                  AIMessage (ContentStr "") [ToolCallDict (Some "t1")];
                  ToolMessage (ContentStr "r1") "t1";
                  AIMessage (ContentStr "a1") []] in
  let system_message := Some (ContentStr "You are.") in
  (Forall (λ msg, no_attribute_id msg = true) history
   ∧ Forall (λ msg, is_system msg = false) history
   ∧ atomic history
   ∧ Forall within_ceiling history
   ∧ (Z.of_nat (length history) ≤ 20)%Z
   ∧ (system_tokens_of system_message + sum_tokens history ≤ 100000)%Z)
  ∧ truncate_messages history system_message 20 100000
    = initial_result system_message ++ history.
Proof.
  intros history system_message.
  assert (Hattr : Forall (λ msg, no_attribute_id msg = true) history)
    by (repeat constructor).
  assert (Hsys : Forall (λ msg, is_system msg = false) history)
    by (repeat constructor).
  assert (Hatomic : atomic history).
  { apply atomic_plain; [done..|].
    apply (atomic_calls _ _ _ [ToolMessage (ContentStr "r1") "t1"]
             [AIMessage (ContentStr "a1") []]).
    - split; [by repeat constructor|].
      apply NoDup_singleton.
    - vm_compute. reflexivity.
    - by vm_compute.
    - apply atomic_plain; [done..|]. constructor. }
  assert (Hceiling : Forall within_ceiling history)
    by (repeat constructor; by vm_compute).
  assert (Hcount : (Z.of_nat (length history) ≤ 20)%Z) by (simpl; lia).
  assert (Htokens : (system_tokens_of system_message + sum_tokens history
                     ≤ 100000)%Z) by (by vm_compute).
  split; [by split_and!|].
  exact (truncate_messages_keeps_all history system_message 20 100000
           Hattr Hsys Hatomic Hceiling Hcount Htokens).
Defined.

(** ** Ids read as attributes: the completeness flag, and what is lost *)

Section completeness_flag.
Implicit Types (st : GroupState) (l : list BaseMessage).

Lemma answered_group_single msg :
  has_tool_calls msg = false → answered_group ([msg], true).
Proof.
  intros Hmsg c tcs tools Heq. simpl in Heq. simplify_eq.
  destruct tcs; [|done]. split; [|done]. intros _. set_solver.
Qed.

Lemma answering_close_sequence st :
  answering st → Forall answered_group (close_sequence st).
Proof.
  intros [Hseqs Hcur]. unfold close_sequence.
  destruct (current_sequence st) as [|m current] eqn:Hcurrent; [done|].
  simpl. apply Forall_app. split; [done|].
  constructor; [|constructor].
  intros c tcs tools Heq. simpl in Heq. simpl.
  rewrite (Hcur _ _ _ Heq). rewrite bool_decide_eq_true. split.
  - apply empty_difference_subseteq_L.
  - apply subseteq_empty_difference_L.
Qed.

Lemma answering_single st msg :
  answering st → has_tool_calls msg = false →
  answering (mkGroupState (sequences (close_and_reset st) ++ [([msg], true)])
               (current_sequence (close_and_reset st))
               (pending_tool_call_ids (close_and_reset st))).
Proof.
  intros Hst Hmsg. split; simpl.
  - rewrite close_and_reset_sequences. apply Forall_app.
    split; [by apply answering_close_sequence|].
    constructor; [|constructor]. by apply answered_group_single.
  - by rewrite close_and_reset_current.
Qed.

Lemma group_step_answering st msg :
  building st → answering st → answering (group_step st msg).
Proof.
  intros Hbuilding Hst.
  destruct msg as [c|c|c [|tc tcs]|c id|c];
    try (by apply answering_single).
  - destruct (building_close_and_reset st Hbuilding) as (_ & Hcur & Hpending).
    cbn [group_step]. split.
    + cbn [sequences]. rewrite close_and_reset_sequences.
      by apply answering_close_sequence.
    + cbn [current_sequence pending_tool_call_ids]. rewrite Hcur, Hpending.
      intros c' tcs' tools Heq. simpl in Heq. inversion Heq; subst.
      change (list_to_set (tool_ids [])) with (∅ : gset string).
      by rewrite difference_empty_L.
  - cbn [group_step]. destruct (truthy id && _) eqn:Hid.
    + destruct Hst as [Hseqs Hcur]. split; simpl; [done|].
      intros c' tcs' tools Heq.
      destruct (current_sequence st) as [|m current] eqn:Hcurrent.
      { simpl in Heq. simplify_eq. }
      simpl in Heq. simplify_eq.
      rewrite (Hcur c' tcs' current) by done.
      rewrite tool_ids_app, list_to_set_app_L.
      change (list_to_set (tool_ids [ToolMessage c id]))
        with ({[id]} ∪ ∅ : gset string).
      generalize (attribute_ids tcs'),
        (list_to_set (tool_ids current) : gset string).
      intros X Y. clear. set_solver.
    + split; simpl; [|done].
      apply Forall_app. split; [by apply answering_close_sequence|].
      constructor; [|constructor]. by apply answered_group_single.
Qed.

Lemma foldl_group_step_answering st l :
  building st → answering st → answering (foldl group_step st l).
Proof.
  revert st. induction l as [|msg l IH]; intros st Hbuilding Hst; [done|].
  simpl. apply IH; [by apply group_step_building|].
  by apply group_step_answering.
Qed.

Lemma group_messages_answered l : Forall answered_group (group_messages l).
Proof.
  apply answering_close_sequence, foldl_group_step_answering.
  - split; [constructor | by left].
  - split; [constructor | done].
Qed.
End completeness_flag.

Section answered_calls.
Implicit Types (l run : list BaseMessage).

Lemma tool_run_tools (required : gset string) run :
  Forall (λ m, answers required m = true) run →
  Forall (λ m, is_tool m = true) run.
Proof. intros Hrun. eapply Forall_impl; [exact Hrun|]. by intros []. Qed.

Lemma answered_call_nil : ¬ answered_call [].
Proof. intros (pre & c & tcs & c' & id & post & Heq & _). by destruct pre. Qed.

Lemma answered_call_cons m l :
  answered_call (m :: l) →
  (∃ c tcs c' id post,
     m = AIMessage c tcs ∧ l = ToolMessage c' id :: post
     ∧ id ∈ required_ids tcs)
  ∨ answered_call l.
Proof.
  intros (pre & c & tcs & c' & id & post & Heq & Hid).
  destruct pre as [|m' pre]; simpl in Heq; simplify_eq.
  - left. by exists c, tcs, c', id, post.
  - right. by exists pre, c, tcs, c', id, post.
Qed.

Lemma answered_call_suffix l1 l2 :
  l1 `suffix_of` l2 → answered_call l1 → answered_call l2.
Proof.
  intros [k ->] (pre & c & tcs & c' & id & post & -> & Hid).
  exists (k ++ pre), c, tcs, c', id, post. by rewrite <- app_assoc.
Qed.

Lemma answered_call_tools run l :
  Forall (λ m, is_tool m = true) run →
  answered_call (run ++ l) → answered_call l.
Proof.
  induction 1 as [|m run Hm _ IH]; [done|]. simpl.
  intros [(c & tcs & c' & id & post & -> & _)|Hrest]%answered_call_cons;
    [done | by apply IH].
Qed.

Lemma answered_call_plain m l :
  has_tool_calls m = false →
  answered_call (m :: l) → answered_call l.
Proof.
  intros Hm [(c & tcs & c' & id & post & -> & _ & Hid)|Hrest]%answered_call_cons;
    [|done].
  destruct tcs; [|done]. set_solver.
Qed.

Lemma final_loop_head fuel by_id l :
  head_not_tool (final_loop fuel by_id l []).
Proof.
  revert l. induction fuel as [|fuel IH]; intros l; [done|].
  destruct l as [|m rest]; [done|].
  destruct m as [c|c|c [|tc tcs]|c id|c];
    try (by rewrite final_loop_plain by done).
  - rewrite final_loop_calls. cbv zeta. by destruct (_ && _).
  - by rewrite final_loop_tool.
Qed.

Lemma include_tool_messages_tools required included l :
  Forall (λ m, is_tool m = true)
    (include_tool_messages required included l []).1.
Proof.
  revert included. induction l as [|m l IH]; intros included; simpl;
    [constructor|].
  destruct m; simpl; try constructor.
  case_match; simpl; [|constructor].
  rewrite include_tool_messages_final. simpl. by constructor.
Qed.

Lemma collect_tool_messages_suffix required included l :
  (collect_tool_messages required included l []).2 `suffix_of` l.
Proof.
  revert included. induction l as [|m l IH]; intros included; simpl; [done|].
  destruct m; simpl; try done.
  repeat case_match; simpl; try done.
  - rewrite collect_tool_messages_validated. simpl. by apply suffix_cons_r.
  - by apply suffix_cons_r.
Qed.

Lemma collect_tool_messages_first required l t run :
  (collect_tool_messages required ∅ l []).1 = t :: run →
  ∃ rest, l = t :: rest.
Proof.
  destruct l as [|m l]; simpl; [done|].
  destruct m; simpl; try done.
  case_match; simpl; [|done].
  rewrite bool_decide_eq_true_2 by set_solver.
  rewrite collect_tool_messages_validated. simpl.
  intros Heq. simplify_eq. by eexists.
Qed.

(** Both passes keep a tool message directly after an assistant message only
    where it stood directly after it before. *)
Lemma final_loop_answered fuel by_id l :
  answered_call (final_loop fuel by_id l []) → answered_call l.
Proof.
  revert l. induction fuel as [|fuel IH]; intros l.
  { by intros ?%answered_call_nil. }
  destruct l as [|m rest]; [done|].
  assert (Hplain : is_tool m = false → has_tool_calls m = false →
    answered_call (final_loop (S fuel) by_id (m :: rest) []) →
    answered_call (m :: rest)).
  { intros Htool Hcalls. rewrite final_loop_plain by done.
    intros Hout%answered_call_plain; [|done].
    eapply answered_call_suffix; [|by apply IH]. by apply suffix_cons_r. }
  destruct m as [c|c|c [|tc tcs]|c id|c]; try (by apply Hplain).
  - rewrite final_loop_calls. cbv zeta.
    pose proof (include_tool_messages_split (required_ids (tc :: tcs)) ∅ rest)
      as Hsplit.
    pose proof (include_tool_messages_tools (required_ids (tc :: tcs)) ∅ rest)
      as Htools.
    destruct (include_tool_messages _ ∅ rest []) as [run rest'].
    simpl in Hsplit, Htools. destruct (_ && _).
    + intros [(c0 & tcs0 & c' & id & post & Hm & Hrun & Hid)|Hrest]
        %answered_call_cons.
      * simplify_eq. destruct run as [|t run].
        { simpl in Hrun. pose proof (final_loop_head fuel by_id rest') as Hhead.
          by rewrite Hrun in Hhead. }
        simpl in Hrun. simplify_eq.
        by exists [], c0, (tc :: tcs), c', id, (run ++ rest').
      * apply answered_call_tools, IH in Hrest; [|done].
        eapply answered_call_suffix; [|exact Hrest].
        apply suffix_cons_r. rewrite <- Hsplit. by apply suffix_app_r.
    + intros Hout%IH. eapply answered_call_suffix; [|exact Hout].
      apply suffix_cons_r, skip_tool_messages_suffix.
  - rewrite final_loop_tool. intros Hout%IH.
    eapply answered_call_suffix; [|exact Hout]. by apply suffix_cons_r.
Qed.

Lemma validate_loop_answered fuel by_id l :
  answered_call (validate_loop fuel by_id l []) → answered_call l.
Proof.
  revert l. induction fuel as [|fuel IH]; intros l.
  { by intros ?%answered_call_nil. }
  destruct l as [|m rest]; [done|].
  assert (Hplain : is_tool m = false → has_tool_calls m = false →
    answered_call (validate_loop (S fuel) by_id (m :: rest) []) →
    answered_call (m :: rest)).
  { intros Htool Hcalls. rewrite validate_loop_plain by done.
    intros Hout%answered_call_plain; [|done].
    eapply answered_call_suffix; [|by apply IH]. by apply suffix_cons_r. }
  destruct m as [c|c|c [|tc tcs]|c id|c]; try (by apply Hplain).
  - rewrite validate_loop_calls. cbv zeta.
    case_bool_decide as Hreq.
    { intros [(c0 & tcs0 & c' & id & post & Hm & _ & Hid)|Hrest]
        %answered_call_cons.
      - simplify_eq. rewrite Hreq in Hid. set_solver.
      - eapply answered_call_suffix; [|by apply IH]. by apply suffix_cons_r. }
    case_bool_decide as Hdom.
    + pose proof (collect_tool_messages_suffix (required_ids (tc :: tcs)) ∅ rest)
        as Hsuffix.
      pose proof (collect_tool_messages_run (required_ids (tc :: tcs)) ∅ rest)
        as (Hrun & _ & _).
      pose proof (collect_tool_messages_first (required_ids (tc :: tcs)) rest)
        as Hfirst.
      destruct (collect_tool_messages _ ∅ rest []) as [run rest'].
      simpl in Hsuffix, Hrun, Hfirst.
      intros [(c0 & tcs0 & c' & id & post & Hm & Heq & Hid)|Hrest]
        %answered_call_cons.
      * simplify_eq. destruct run as [|t run].
        { simpl in Heq.
          pose proof (shaped_head_not_tool _
                        (validate_loop_shaped fuel by_id rest')) as Hhead.
          by rewrite Heq in Hhead. }
        simpl in Heq. simplify_eq.
        destruct (Hfirst _ _ eq_refl) as [rest0 ->].
        by exists [], c0, (tc :: tcs), c', id, rest0.
      * apply answered_call_tools, IH in Hrest;
          [|by eapply tool_run_tools].
        eapply answered_call_suffix; [|exact Hrest]. by apply suffix_cons_r.
    + intros Hout%IH. eapply answered_call_suffix; [|exact Hout].
      apply suffix_cons_r, skip_tool_messages_suffix.
  - rewrite validate_loop_tool. intros Hout%IH.
    eapply answered_call_suffix; [|exact Hout]. by apply suffix_cons_r.
Qed.

(** A list in which every tool-call sequence is whole holds plain messages
    only, or an assistant message directly followed by one of its answers. *)
Lemma atomic_answered_call l :
  atomic l → Forall (λ m, plain m = true) l ∨ answered_call l.
Proof.
  induction 1 as [|m l Htool Hcalls _ IH|c tc tcs run l Hrun Hids Hne _ _].
  - left. constructor.
  - destruct IH as [IH|IH].
    + left. constructor; [|done]. unfold plain. by rewrite Htool, Hcalls.
    + right. eapply answered_call_suffix; [|exact IH]. by apply suffix_cons_r.
  - right. destruct run as [|t run].
    { simpl in Hids. by destruct Hne. }
    destruct Hrun as [Hrun _]. apply Forall_cons in Hrun as [Ht _].
    apply answers_tool in Ht as (c' & id & -> & _ & Hid).
    by exists [], c, (tc :: tcs), c', id, (run ++ l).
Qed.
End answered_calls.

Section tool_exchanges_lost.
Context (max_messages max_tokens_approx : Z).
Implicit Types (l : list BaseMessage).
Implicit Types (chosen groups : list (list BaseMessage * bool)).

Lemma tool_ids_sublist l1 l2 :
  l1 `sublist_of` l2 → tool_ids l1 `sublist_of` tool_ids l2.
Proof.
  induction 1 as [|m l1 l2 _ IH|m l1 l2 _ IH]; [done|..]; unfold tool_ids;
    simpl; destruct (tool_id m); simpl;
    [by apply sublist_skip | done | by apply sublist_cons | done].
Qed.

Lemma filter_sublist_mono {A} (P : A → Prop) `{!∀ x, Decision (P x)}
    (l1 l2 : list A) :
  l1 `sublist_of` l2 → filter P l1 `sublist_of` filter P l2.
Proof.
  induction 1 as [|x l1 l2 _ IH|x l1 l2 _ IH]; [done|..];
    rewrite ?filter_cons; destruct (decide (P x));
    [by apply sublist_skip | done | by apply sublist_cons | done].
Qed.

Lemma tools_split tools X A c tcs B :
  Forall (λ m, is_tool m = true) tools →
  tools ++ X = A ++ AIMessage c tcs :: B →
  ∃ A', X = A' ++ AIMessage c tcs :: B.
Proof.
  intros Htools. revert A.
  induction Htools as [|t tools Ht _ IH]; intros A Heq; [by exists A|].
  destruct A as [|a A]; simpl in Heq; simplify_eq.
  by eapply IH.
Qed.

(** In the concatenation of sequences flagged complete, every assistant
    message with tool calls is followed by answers to all its ids readable as
    attributes. *)
Lemma concat_answered chosen A c tcs B :
  Forall well_grouped chosen → Forall answered_group chosen →
  Forall (λ g, g.2 = true) chosen →
  has_tool_calls (AIMessage c tcs) = true →
  concat chosen.*1 = A ++ AIMessage c tcs :: B →
  attribute_ids tcs ⊆ list_to_set (tool_ids B).
Proof.
  intros Hgroups. revert A.
  induction Hgroups as [|g chosen Hg _ IH];
    intros A Hanswered Hcomplete Hcalls Heq.
  { by destruct A. }
  apply Forall_cons in Hanswered as [Hans Hanswered].
  apply Forall_cons in Hcomplete as [Hflag Hcomplete].
  simpl in Heq.
  destruct Hg as [(msg & -> & Hmsg)|(c0 & tc0 & tcs0 & tools & Hseq & Htools)].
  - destruct A as [|a A]; simpl in Heq; simplify_eq.
    + by rewrite Hcalls in Hmsg.
    + by eapply IH.
  - rewrite Hseq in Heq.
    destruct A as [|a A]; simpl in Heq; simplify_eq.
    + etrans; [by apply (Hans c (tc0 :: tcs0) tools)|].
      rewrite tool_ids_app, list_to_set_app_L. set_solver.
    + match goal with H : tools ++ _ = _ |- _ =>
        apply tools_split in H as [A' Heq]; [|done] end.
      by eapply IH.
Qed.

Lemma select_messages_no_answered_call system_tokens l :
  Forall (λ msg, attribute_shaped msg = true) l → NoDup (tool_ids l) →
  ¬ answered_call
      (select_messages max_messages max_tokens_approx system_tokens
         (group_messages l)).
Proof.
  intros Hshaped Hnodup.
  destruct (select_messages_chosen max_messages max_tokens_approx
              l system_tokens) as (chosen & Hsub & Hcomplete & ->).
  intros (pre & c & tcs & c' & id & post & Heq & Hid).
  apply (f_equal reverse) in Heq.
  rewrite reverse_involutive, reverse_app, !reverse_cons, <- !app_assoc in Heq.
  simpl in Heq.
  assert (Hconcat : concat chosen.*1 `sublist_of` concat (reverse (group_messages l)).*1)
    by (by apply concat_sublist).
  assert (Hperm : concat (reverse (group_messages l)).*1 ≡ₚ l)
    by (by rewrite concat_reverse_Permutation, group_messages_concat).
  assert (Hcalls : has_tool_calls (AIMessage c tcs) = true).
  { destruct tcs; [|done]. set_solver. }
  assert (Hattr : attribute_ids tcs = required_ids tcs).
  { assert (Hin : AIMessage c tcs ∈ l).
    { rewrite <- Hperm. eapply elem_of_sublist; [|exact Hconcat].
      rewrite Heq. set_solver. }
    rewrite Forall_forall in Hshaped. specialize (Hshaped _ Hin).
    by apply bool_decide_eq_true in Hshaped. }
  assert (Hanswered : attribute_ids tcs ⊆ list_to_set (tool_ids (reverse pre))).
  { apply (concat_answered chosen (reverse post ++ [ToolMessage c' id]) c);
      [| | done | done | by rewrite <- app_assoc].
    - eapply Forall_sublist_of; [exact Hsub|].
      apply Forall_reverse, group_messages_well_grouped.
    - eapply Forall_sublist_of; [exact Hsub|].
      apply Forall_reverse, group_messages_answered. }
  assert (Hdup : NoDup (tool_ids (concat chosen.*1))).
  { eapply sublist_NoDup; [|by apply tool_ids_sublist].
    unfold tool_ids. by rewrite Hperm. }
  rewrite Heq, !tool_ids_app in Hdup. simpl in Hdup.
  apply NoDup_app in Hdup as (_ & _ & Hdup).
  apply NoDup_cons in Hdup as [Hnot _].
  apply Hnot. rewrite <- Hattr in Hid.
  apply Hanswered, elem_of_list_to_set in Hid. done.
Qed.

(** Every plain message stands alone in its sequence, so the plain messages
    come in the same order whether the sequences or their concatenation are
    reversed. *)
Lemma plain_reverse_groups groups :
  Forall well_grouped groups →
  filter (λ msg, plain msg = true) (concat (reverse groups).*1)
  = reverse (filter (λ msg, plain msg = true) (concat groups.*1)).
Proof.
  induction 1 as [|g groups Hg _ IH]; [done|].
  rewrite reverse_cons, fmap_app, concat_app. simpl.
  rewrite app_nil_r, !filter_app, reverse_app, IH. f_equal.
  destruct Hg as [(msg & -> & _)|(c & tc & tcs & tools & Hseq & Htools)].
  - simpl. rewrite filter_cons. by destruct (decide _).
  - rewrite Hseq. rewrite filter_cons_False by (by intros ?).
    replace (filter _ tools) with (@nil BaseMessage); [done|].
    symmetry. clear -Htools.
    induction Htools as [|t tools Ht _ IHt]; [done|].
    rewrite filter_cons_False; [done|]. by destruct t.
Qed.

Lemma select_messages_plain_sublist system_tokens l :
  filter (λ msg, plain msg = true)
    (select_messages max_messages max_tokens_approx system_tokens
       (group_messages l))
  `sublist_of` l.
Proof.
  destruct (select_messages_chosen max_messages max_tokens_approx
              l system_tokens) as (chosen & Hsub & _ & ->).
  rewrite filter_reverse.
  apply concat_sublist in Hsub.
  apply (filter_sublist_mono (λ msg, plain msg = true)) in Hsub.
  rewrite plain_reverse_groups in Hsub by apply group_messages_well_grouped.
  apply sublist_reverse in Hsub. rewrite reverse_involutive in Hsub.
  etrans; [exact Hsub|]. rewrite group_messages_concat.
  apply sublist_filter.
Qed.
End tool_exchanges_lost.

Section tool_exchanges_lost_window.
Context (system_message : option Content) (max_messages max_tokens_approx : Z).
Implicit Types (messages : list BaseMessage).

Lemma window_body_plain messages :
  Forall (λ msg, attribute_shaped msg = true) messages →
  NoDup (tool_ids messages) →
  Forall (λ msg, plain msg = true)
    (window_body messages system_message max_messages max_tokens_approx).
Proof.
  intros Hshaped Hnodup.
  destruct (atomic_answered_call _
              (window_body_atomic messages system_message
                 max_messages max_tokens_approx)) as [Hplain|Hcall]; [done|].
  unfold window_body in Hcall.
  apply final_loop_answered, validate_loop_answered in Hcall.
  apply select_messages_no_answered_call in Hcall; [done| |].
  - eapply Forall_sublist_of; [apply sublist_filter | done].
  - eapply sublist_NoDup; [exact Hnodup|].
    apply tool_ids_sublist, sublist_filter.
Qed.

Lemma window_body_plain_sublist messages :
  Forall (λ msg, plain msg = true)
    (window_body messages system_message max_messages max_tokens_approx) →
  window_body messages system_message max_messages max_tokens_approx
    `sublist_of` messages.
Proof.
  intros Hplain.
  assert (Hall : ∀ l : list BaseMessage,
            Forall (λ msg, plain msg = true) l →
            filter (λ msg, plain msg = true) l = l).
  { induction 1 as [|m l Hm _ IH]; [done|].
    by rewrite filter_cons_True, IH. }
  rewrite <- (Hall _ Hplain). unfold window_body.
  rewrite passes_keep_plain.
  etrans; [apply select_messages_plain_sublist|]. apply sublist_filter.
Qed.
End tool_exchanges_lost_window.

(** X11 (the completeness flag): the flag of a sequence that starts with an
    assistant message is exact for the ids read as attributes: the sequence is
    flagged complete exactly when its tool messages answer every such id of
    the assistant message. Ids held in mappings are not waited for. *)
Theorem group_messages_complete_flag (filtered_messages : list BaseMessage) :
  Forall (λ g, ∀ c tool_calls tools,
            g.1 = AIMessage c tool_calls :: tools →
            (g.2 = true
             ↔ attribute_ids tool_calls ⊆ list_to_set (tool_ids tools)))
    (group_messages filtered_messages).
Proof. apply group_messages_answered. Qed.

(** X12 (tool exchanges with attribute ids are lost): when every tool-call id
    of the history is readable as an attribute and no two tool messages carry
    the same id, every tool exchange is lost: after the system message the
    result holds only messages that neither carry a tool call nor answer one,
    in the order of the history. The reversal of the selected messages (lines
    153 and 161) puts the tool messages of a sequence before their assistant
    message, and the two passes then remove both. *)
Theorem truncate_messages_loses_tool_exchanges messages system_message
    max_messages max_tokens_approx :
  Forall (λ msg, attribute_shaped msg = true) messages →
  NoDup (tool_ids messages) →
  ∃ body,
    truncate_messages messages system_message max_messages max_tokens_approx
    = initial_result system_message ++ body
    ∧ Forall (λ msg, plain msg = true) body
    ∧ body `sublist_of` messages.
Proof.
  intros Hshaped Hnodup.
  eexists. split; [apply truncate_messages_window|].
  assert (Hplain : Forall (λ msg, plain msg = true)
            (window_body messages system_message
               max_messages max_tokens_approx))
    by (by apply window_body_plain).
  split; [done | by apply window_body_plain_sublist].
Qed.

(** X12, instance: one answered tool call exposing its id, within the budgets. *)
Lemma truncate_messages_loses_tool_exchanges_witness :
  let history := [HumanMessage (ContentStr "q1");
                  AIMessage (ContentStr "") [ToolCallObj (Some "t1")];
                  ToolMessage (ContentStr "r1") "t1";
                  AIMessage (ContentStr "a1") []] in
  let system_message := Some (ContentStr "You are.") in
  (Forall (λ msg, attribute_shaped msg = true) history
   ∧ NoDup (tool_ids history))
  ∧ ∃ body,
      truncate_messages history system_message 20 100000
      = initial_result system_message ++ body
      ∧ Forall (λ msg, plain msg = true) body
      ∧ body `sublist_of` history.
Proof.
  intros history system_message.
  assert (Hshaped : Forall (λ msg, attribute_shaped msg = true) history)
    by (repeat constructor).
  assert (Hnodup : NoDup (tool_ids history)) by apply NoDup_singleton.
  split; [by split|].
  exact (truncate_messages_loses_tool_exchanges history system_message
           20 100000 Hshaped Hnodup).
Defined.

(** ** The filter of [researcher] *)

Section researcher_filter.
Implicit Types (truncated l safe : list BaseMessage).

Lemma drop_cons_inv {A} (t : list A) j x rest :
  drop j t = x :: rest → t !! j = Some x ∧ drop (S j) t = rest.
Proof.
  intros Hdrop. split.
  - rewrite <- (Nat.add_0_r j), <- lookup_drop. by rewrite Hdrop.
  - change (S j) with (1 + j). rewrite Nat.add_comm, <- drop_drop.
    by rewrite Hdrop.
Qed.

Lemma always_kept_ends_scan msg :
  ends_scan msg = false → always_kept msg = false.
Proof. by destruct msg. Qed.

(** The indices found by the scan are those of tool messages that lie, in
    order, in a stretch without assistant, user or system message. *)
Lemma scan_answers_spec truncated required i l found_ids tool_indices :
  drop (S i) truncated = l →
  ∃ new tools,
    (scan_answers required (S i) l found_ids tool_indices).2
    = tool_indices ++ new
    ∧ Forall2 (λ idx t, truncated !! idx = Some t) new tools
    ∧ Forall (λ t, is_tool t = true) tools
    ∧ tools `sublist_of` take (max_list new - i) l
    ∧ Forall (λ m, ends_scan m = false) (take (max_list new - i) l).
Proof.
  revert i found_ids tool_indices.
  induction l as [|next rest IH]; intros i found_ids tool_indices Hdrop.
  { exists [], []. rewrite app_nil_r, take_nil.
    by split_and!; try constructor. }
  apply drop_cons_inv in Hdrop as [Hnext Hrest].
  assert (Hstop : ∃ new tools,
    tool_indices = tool_indices ++ new
    ∧ Forall2 (λ idx t, truncated !! idx = Some t) new tools
    ∧ Forall (λ t, is_tool t = true) tools
    ∧ tools `sublist_of` take (max_list new - i) (next :: rest)
    ∧ Forall (λ m, ends_scan m = false) (take (max_list new - i) (next :: rest))).
  { exists [], []. rewrite app_nil_r. simpl.
    by split_and!; try constructor. }
  assert (Hpass : ends_scan next = false →
    ∃ new tools,
      (scan_answers required (S (S i)) rest found_ids tool_indices).2
      = tool_indices ++ new
      ∧ Forall2 (λ idx t, truncated !! idx = Some t) new tools
      ∧ Forall (λ t, is_tool t = true) tools
      ∧ tools `sublist_of` take (max_list new - i) (next :: rest)
      ∧ Forall (λ m, ends_scan m = false)
          (take (max_list new - i) (next :: rest))).
  { intros Hnot.
    destruct (IH (S i) found_ids tool_indices Hrest)
      as (new & tools & Heq & Hlook & Htools & Hsub & Hall).
    exists new, tools. split_and!; [done..| |].
    - destruct (max_list new - i) as [|c] eqn:Hc.
      + replace (max_list new - S i) with 0 in Hsub by lia.
        rewrite take_0 in *. done.
      + replace (max_list new - S i) with c in Hsub by lia.
        simpl. by apply sublist_cons.
    - destruct (max_list new - i) as [|c] eqn:Hc; [constructor|].
      replace (max_list new - S i) with c in Hall by lia.
      simpl. by constructor. }
  destruct next as [c|c|c tcs|c id|c]; simpl; try exact Hstop;
    [|by apply Hpass].
  case_bool_decide as Hid; [|by apply Hpass].
  destruct (IH (S i) (found_ids ∪ {[id]}) (tool_indices ++ [S i]) Hrest)
    as (new & tools & Heq & Hlook & Htools & Hsub & Hall).
  exists (S i :: new), (ToolMessage c id :: tools).
  replace (max_list (S i :: new) - i)
    with (S (max_list new - S i)) by (simpl; lia).
  split_and!.
  - by rewrite Heq, <- app_assoc.
  - by constructor.
  - by constructor.
  - simpl. by apply sublist_skip.
  - simpl. by constructor.
Qed.

(** The loop extends [safe_messages] with messages of the remaining list, in
    their order, and passes over nothing but tool messages and messages of
    other kinds. *)
Lemma safe_loop_spec truncated i l skip_until_index safe :
  drop i truncated = l →
  let k := Z.to_nat (skip_until_index + 1 - Z.of_nat i) in
  Forall (λ m, ends_scan m = false) (take k l) →
  ∃ added,
    safe_loop truncated i l skip_until_index safe = Some (safe ++ added)
    ∧ added `sublist_of` drop k l
    ∧ filter (λ m, always_kept m = true) added
      = filter (λ m, always_kept m = true) l.
Proof.
  revert i skip_until_index safe.
  induction l as [|msg rest IH]; intros i skip_until_index safe Hdrop k Hskip.
  { exists []. rewrite app_nil_r, drop_nil. by split_and!. }
  apply drop_cons_inv in Hdrop as [Hmsg Hrest].
  cbn [safe_loop].
  destruct (Z.of_nat i <=? skip_until_index)%Z eqn:Hle.
  { apply Z.leb_le in Hle.
    set (k' := Z.to_nat (skip_until_index + 1 - Z.of_nat (S i))).
    assert (Hk : k = S k') by (subst k k'; lia).
    rewrite Hk in *. simpl in Hskip. apply Forall_cons in Hskip as [Hm Hskip].
    destruct (IH (S i) skip_until_index safe Hrest Hskip)
      as (added & -> & Hsub & Hkept).
    exists added. split_and!; [done | done |].
    by rewrite filter_cons_False
      by (rewrite always_kept_ends_scan by done; done). }
  apply Z.leb_gt in Hle.
  assert (Hk : k = 0) by (subst k; lia).
  rewrite Hk in *. clear Hskip. rewrite drop_0.
  assert (Hkeep : ∃ added,
    safe_loop truncated (S i) rest skip_until_index (safe ++ [msg])
    = Some (safe ++ added)
    ∧ added `sublist_of` msg :: rest
    ∧ filter (λ m, always_kept m = true) added
      = filter (λ m, always_kept m = true) (msg :: rest)).
  { destruct (IH (S i) skip_until_index (safe ++ [msg]) Hrest)
      as (added & -> & Hsub & Hkept).
    { replace (Z.to_nat _) with 0 by lia. constructor. }
    replace (Z.to_nat _) with 0 in Hsub by lia. rewrite drop_0 in Hsub.
    exists (msg :: added). rewrite <- app_assoc. split_and!; [done| |].
    - by apply sublist_skip.
    - rewrite !filter_cons. destruct (decide _); by rewrite Hkept. }
  destruct msg as [c|c|c [|tc tcs]|c id|c]; try exact Hkeep.
  case_bool_decide as Hreq; [exact Hkeep|].
  destruct (scan_answers _ (S i) rest ∅ []) as [found_ids tool_indices] eqn:Hscan.
  destruct (scan_answers_spec truncated (attribute_ids (tc :: tcs)) i rest ∅ []
              Hrest) as (new & tools & Heq & Hlook & Htools & Hsub & Hall).
  rewrite Hscan in Heq. simpl in Heq. subst tool_indices.
  set (skip' := skip_after skip_until_index new).
  assert (Hk' : Z.to_nat (skip' + 1 - Z.of_nat (S i)) = max_list new - i).
  { subst skip'. unfold skip_after. destruct new as [|idx new]; simpl; lia. }
  assert (Hnot : always_kept (AIMessage c (tc :: tcs)) = false).
  { simpl. by apply bool_decide_eq_false_2. }
  case_bool_decide as Hfound.
  - apply mapM_Some in Hlook. rewrite Hlook.
    destruct (IH (S i) skip' (safe ++ [AIMessage c (tc :: tcs)] ++ tools) Hrest)
      as (added & -> & Hsub' & Hkept).
    { by rewrite Hk'. }
    rewrite Hk' in Hsub'.
    exists (AIMessage c (tc :: tcs) :: tools ++ added).
    split_and!.
    + by rewrite <- !app_assoc.
    + apply sublist_skip.
      rewrite <- (take_drop (max_list new - i) rest). by apply sublist_app.
    + rewrite !filter_cons_False by (by rewrite Hnot).
      rewrite filter_app, Hkept.
      replace (filter _ tools) with (@nil BaseMessage); [done|].
      symmetry. clear -Htools.
      induction Htools as [|t tools Ht _ IHt]; [done|].
      rewrite filter_cons_False; [done|]. by destruct t.
  - destruct (IH (S i) skip' safe Hrest) as (added & -> & Hsub' & Hkept).
    { by rewrite Hk'. }
    exists added. split_and!; [done | |].
    + apply sublist_cons. etrans; [exact Hsub' | apply sublist_drop].
    + by rewrite filter_cons_False by (by rewrite Hnot).
Qed.

Lemma safe_messages_spec truncated :
  ∃ safe,
    safe_messages truncated = Some safe
    ∧ safe `sublist_of` truncated
    ∧ filter (λ m, always_kept m = true) safe
      = filter (λ m, always_kept m = true) truncated.
Proof.
  destruct (safe_loop_spec truncated 0 truncated (-1) [])
    as (added & Hrun & Hsub & Hkept); [done | constructor |].
  exists added. by split_and!.
Qed.

(** Without readable ids the loop keeps every message. *)
Lemma safe_loop_no_attribute truncated i l skip_until_index safe :
  (skip_until_index < Z.of_nat i)%Z →
  Forall (λ msg, no_attribute_id msg = true) l →
  safe_loop truncated i l skip_until_index safe = Some (safe ++ l).
Proof.
  intros Hskip Hl. revert i safe Hskip.
  induction Hl as [|msg l Hmsg _ IH]; intros i safe Hskip.
  { simpl. by rewrite app_nil_r. }
  cbn [safe_loop]. rewrite (proj2 (Z.leb_gt _ _)) by lia.
  assert (Hkeep :
    safe_loop truncated (S i) l skip_until_index (safe ++ [msg])
    = Some (safe ++ msg :: l)).
  { rewrite IH by lia. by rewrite <- app_assoc. }
  destruct msg as [c|c|c [|tc tcs]|c id|c]; try exact Hkeep.
  simpl in Hmsg. by rewrite Hmsg.
Qed.
End researcher_filter.

Section researcher_filter_atomic.
Implicit Types (truncated l run safe : list BaseMessage).

Lemma scan_answers_atomic required j l found_ids tool_indices :
  atomic l →
  scan_answers required j l found_ids tool_indices = (found_ids, tool_indices).
Proof.
  intros Hl. revert j.
  induction Hl as [|m l Htool Hcalls _ IH|]; intros j; [done| |done].
  destruct m; simplify_eq/=; done.
Qed.

Lemma scan_answers_run required j run l found_ids tool_indices :
  Forall (λ m, answers required m = true) run → atomic l →
  scan_answers required j (run ++ l) found_ids tool_indices
  = (found_ids ∪ list_to_set (tool_ids run),
     tool_indices ++ seq j (length run)).
Proof.
  intros Hrun Hl. revert j found_ids tool_indices.
  induction Hrun as [|m run Hm _ IH]; intros j found_ids tool_indices.
  { simpl. rewrite scan_answers_atomic by done.
    rewrite app_nil_r. f_equal. set_solver. }
  destruct m as [| | |c id|]; simplify_eq/=.
  apply andb_true_iff in Hm as [_ Hid]. rewrite Hid.
  rewrite IH, <- app_assoc. f_equal. set_solver.
Qed.

Lemma mapM_lookup_seq truncated j run rest :
  drop j truncated = run ++ rest →
  mapM (λ idx, truncated !! idx) (seq j (length run)) = Some run.
Proof.
  intros Hdrop. apply mapM_Some. revert j Hdrop.
  induction run as [|m run IH]; intros j Hdrop; [constructor|].
  apply drop_cons_inv in Hdrop as [Hm Hdrop].
  simpl. constructor; [done | by apply IH].
Qed.

Lemma max_list_seq j n : max_list (seq j (S n)) = j + n.
Proof.
  revert j. induction n as [|n IH]; intros j; [simpl; lia|].
  change (seq j (S (S n))) with (j :: seq (S j) (S n)).
  change (max_list (j :: seq (S j) (S n)))
    with (j `max` max_list (seq (S j) (S n))).
  rewrite IH. lia.
Qed.

(** The messages up to [skip_until_index] are passed over. *)
Lemma safe_loop_skip truncated i run l skip_until_index safe :
  (Z.of_nat i + Z.of_nat (length run) - 1 ≤ skip_until_index)%Z →
  safe_loop truncated i (run ++ l) skip_until_index safe
  = safe_loop truncated (i + length run) l skip_until_index safe.
Proof.
  revert i. induction run as [|m run IH]; intros i Hskip.
  { simpl. by rewrite Nat.add_0_r. }
  cbn [app safe_loop]. simpl in Hskip.
  rewrite (proj2 (Z.leb_le _ _)) by lia.
  rewrite IH by lia. f_equal. simpl. lia.
Qed.

(** Tool messages met by the outer loop are kept. *)
Lemma safe_loop_tools truncated i run l skip_until_index safe :
  (skip_until_index < Z.of_nat i)%Z →
  Forall (λ m, is_tool m = true) run →
  safe_loop truncated i (run ++ l) skip_until_index safe
  = safe_loop truncated (i + length run) l skip_until_index (safe ++ run).
Proof.
  intros Hskip Hrun. revert i safe Hskip.
  induction Hrun as [|m run Hm _ IH]; intros i safe Hskip.
  { simpl. by rewrite Nat.add_0_r, app_nil_r. }
  cbn [app safe_loop]. rewrite (proj2 (Z.leb_gt _ _)) by lia.
  destruct m; simplify_eq/=.
  rewrite IH by lia. rewrite <- app_assoc. f_equal. lia.
Qed.

Lemma safe_loop_atomic truncated i l skip_until_index safe :
  atomic l → Forall (λ msg, uniform_calls msg = true) l →
  drop i truncated = l → (skip_until_index < Z.of_nat i)%Z →
  safe_loop truncated i l skip_until_index safe = Some (safe ++ l).
Proof.
  intros Hl. revert i skip_until_index safe.
  induction Hl as [|m l Htool Hcalls Hl IH|c tc tcs run l Hrun Hids Hne Hl IH];
    intros i skip_until_index safe Huniform Hdrop Hskip.
  - simpl. by rewrite app_nil_r.
  - apply drop_cons_inv in Hdrop as [_ Hdrop].
    apply Forall_cons in Huniform as [_ Huniform].
    cbn [safe_loop]. rewrite (proj2 (Z.leb_gt _ _)) by lia.
    assert (Hkeep : safe_loop truncated (S i) l skip_until_index (safe ++ [m])
                    = Some (safe ++ m :: l)).
    { rewrite IH by (done || lia). by rewrite <- app_assoc. }
    destruct m as [|?|? []|?|?]; simplify_eq/=; done.
  - apply drop_cons_inv in Hdrop as [_ Hdrop].
    apply Forall_cons in Huniform as [Hmsg Huniform].
    apply Forall_app in Huniform as [_ Huniform].
    assert (Hrest : drop (S i + length run) truncated = l).
    { rewrite <- drop_drop, Hdrop. by rewrite drop_app_length. }
    destruct Hrun as [Hrun Hnd].
    cbn [safe_loop]. rewrite (proj2 (Z.leb_gt _ _)) by lia.
    case_bool_decide as Hattr.
    + rewrite safe_loop_tools by (lia || by eapply tool_run_tools).
      rewrite IH by (done || lia). by rewrite <- !app_assoc.
    + simpl in Hmsg. apply orb_true_iff in Hmsg as [Heq|Hempty];
        [|by apply bool_decide_eq_true in Hempty].
      apply bool_decide_eq_true in Heq. rewrite Heq.
      rewrite scan_answers_run by done.
      rewrite union_empty_l_L, Hids, bool_decide_eq_true_2 by done.
      rewrite app_nil_l, (mapM_lookup_seq _ _ _ l) by done.
      destruct run as [|t run].
      { simpl in Hids. by destruct Hne. }
      rewrite safe_loop_skip.
      2:{ unfold skip_after. cbn [length seq is_empty_list].
          change (S i :: seq (S (S i)) (length run))
            with (seq (S i) (S (length run))).
          rewrite max_list_seq. simpl. lia. }
      rewrite IH.
      * by rewrite <- !app_assoc.
      * done.
      * done.
      * unfold skip_after. cbn [length seq is_empty_list].
        change (S i :: seq (S (S i)) (length run))
          with (seq (S i) (S (length run))).
        rewrite max_list_seq. simpl. lia.
Qed.

Lemma safe_loop_atomic_whole truncated :
  atomic truncated → Forall (λ msg, uniform_calls msg = true) truncated →
  safe_messages truncated = Some truncated.
Proof.
  intros Hatomic Huniform. unfold safe_messages.
  by rewrite safe_loop_atomic by (lia || done).
Qed.
End researcher_filter_atomic.

Section researcher_payload.
Implicit Types (state_messages : list BaseMessage) (prompt : string).

Lemma truncate_messages_uniform messages system_message
    max_messages max_tokens_approx :
  Forall (λ msg, uniform_calls msg = true) messages →
  Forall (λ msg, uniform_calls msg = true)
    (truncate_messages messages system_message max_messages max_tokens_approx).
Proof.
  intros Hmessages. apply Forall_forall. intros msg Hin.
  apply truncate_messages_elements in Hin as [Hin|Hin].
  - destruct system_message; simpl in Hin.
    + by apply list_elem_of_singleton in Hin as ->.
    + by apply elem_of_nil in Hin.
  - rewrite Forall_forall in Hmessages. by apply Hmessages.
Qed.

Lemma researcher_messages_first state_messages prompt :
  ∃ rest,
    researcher_messages state_messages prompt
    = Some (SystemMessage (ContentStr prompt) :: rest)
    ∧ rest `sublist_of`
        window_body state_messages (Some (ContentStr prompt)) 10 100000.
Proof.
  unfold researcher_messages. rewrite truncate_messages_window. simpl.
  set (body := window_body _ _ _ _).
  destruct (safe_messages_spec (SystemMessage (ContentStr prompt) :: body))
    as (safe & -> & Hsub & Hkept).
  rewrite (filter_cons_True _ (SystemMessage _)) in Hkept by done.
  apply sublist_cons_r in Hsub as [Hsub|(rest & -> & Hsub)].
  - assert (Hin : SystemMessage (ContentStr prompt) ∈ body).
    { eapply elem_of_sublist; [|exact Hsub].
      apply (list_elem_of_filter (λ m, always_kept m = true)).
      rewrite Hkept. left. }
    pose proof (window_body_not_system state_messages
                  (Some (ContentStr prompt)) 10 100000) as Hns.
    rewrite Forall_forall in Hns. by specialize (Hns _ Hin).
  - by exists rest.
Qed.
End researcher_payload.

(** X13 (the filter only removes): the filter of [researcher] always returns
    (no index is out of range); it only removes messages, keeping the order of
    those it keeps; and it never removes a system message, a user message, or
    an assistant message none of whose tool calls has an id readable as an
    attribute. *)
Theorem safe_messages_sound (truncated_messages : list BaseMessage) :
  ∃ safe,
    safe_messages truncated_messages = Some safe
    ∧ safe `sublist_of` truncated_messages
    ∧ filter (λ m, always_kept m = true) safe
      = filter (λ m, always_kept m = true) truncated_messages.
Proof. apply safe_messages_spec. Qed.

(** X14 (the filter, without attribute ids): the filter reads tool-call ids
    as attributes only: when no tool call has such an id (tool calls given as
    mappings), it returns the list unchanged, whether or not the tool calls
    are answered. *)
Theorem safe_messages_no_attribute (truncated_messages : list BaseMessage) :
  Forall (λ msg, no_attribute_id msg = true) truncated_messages →
  safe_messages truncated_messages = Some truncated_messages.
Proof.
  intros Hall. unfold safe_messages.
  by rewrite safe_loop_no_attribute by (lia || done).
Qed.

(** X14, instance: a tool call given as a mapping that nothing answers. *)
Lemma safe_messages_no_attribute_witness :
  let truncated := [SystemMessage (ContentStr "You are.");
                    HumanMessage (ContentStr "q1");
                    AIMessage (ContentStr "") [ToolCallDict (Some "t1")];
                    HumanMessage (ContentStr "q2")] in
  Forall (λ msg, no_attribute_id msg = true) truncated
  ∧ safe_messages truncated = Some truncated.
Proof.
  intros truncated.
  assert (Hall : Forall (λ msg, no_attribute_id msg = true) truncated)
    by (repeat constructor).
  split; [done|].
  exact (safe_messages_no_attribute truncated Hall).
Defined.

(** X15 (the filter on whole sequences): on a list in which every assistant
    message with tool calls is directly followed by one tool message for each
    of its ids and no other tool message occurs, the filter changes nothing,
    provided it reads from each assistant message the ids [truncate_messages]
    reads, or none. *)
Theorem safe_messages_atomic (truncated_messages : list BaseMessage) :
  atomic truncated_messages →
  Forall (λ msg, uniform_calls msg = true) truncated_messages →
  safe_messages truncated_messages = Some truncated_messages.
Proof.
  intros Hatomic Huniform. unfold safe_messages.
  by rewrite safe_loop_atomic by (lia || done).
Qed.

(** X15, instance: a tool call exposing its id as an attribute, with its answer. *)
Lemma safe_messages_atomic_witness :
  let truncated := [SystemMessage (ContentStr "You are.");
                    HumanMessage (ContentStr "q1");
                    AIMessage (ContentStr "") [ToolCallObj (Some "t1")];
                    ToolMessage (ContentStr "r1") "t1";
                    AIMessage (ContentStr "a1") []] in
  (atomic truncated
   ∧ Forall (λ msg, uniform_calls msg = true) truncated)
  ∧ safe_messages truncated = Some truncated.
Proof.
  intros truncated.
  assert (Hatomic : atomic truncated).
  { do 2 (apply atomic_plain; [done..|]).
    apply (atomic_calls _ _ _ [ToolMessage (ContentStr "r1") "t1"]
             [AIMessage (ContentStr "a1") []]).
    - split; [by repeat constructor|].
      apply NoDup_singleton.
    - vm_compute. reflexivity.
    - by vm_compute.
    - apply atomic_plain; [done..|]. constructor. }
  assert (Huniform : Forall (λ msg, uniform_calls msg = true) truncated)
    by (repeat constructor).
  split; [by split|].
  exact (safe_messages_atomic truncated Hatomic Huniform).
Defined.

(** X16 (what the model receives): [researcher] sends the rendered prompt as
    a system message, followed by at most ten messages, none of them a system
    message, which form a sub-multiset of the history and, unless there is
    none, stay with the prompt within 100000 approximate tokens. *)
Theorem researcher_messages_bounds (state_messages : list BaseMessage)
    (prompt : string) :
  ∃ rest,
    researcher_messages state_messages prompt
    = Some (SystemMessage (ContentStr prompt) :: rest)
    ∧ length rest ≤ 10
    ∧ rest ⊆+ state_messages
    ∧ Forall (λ msg, is_system msg = false) rest
    ∧ (rest = []
       ∨ (get_message_tokens (SystemMessage (ContentStr prompt))
          + sum_tokens rest ≤ 100000)%Z).
Proof.
  destruct (researcher_messages_first state_messages prompt)
    as (rest & Hrun & Hsub).
  exists rest. split; [done|].
  pose proof (window_body_budget state_messages (Some (ContentStr prompt))
                10 100000) as Hbudget.
  cbv zeta in Hbudget.
  pose proof (sublist_length _ _ Hsub) as Hlen.
  pose proof (sum_tokens_sublist _ _ Hsub) as Hsum.
  split_and!.
  - destruct Hbudget as [Hnil|[Hn _]]; [rewrite Hnil in Hlen; simpl in Hlen|];
      lia.
  - etrans; [by apply sublist_submseteq | apply window_body_submseteq].
  - eapply Forall_sublist_of; [done | apply window_body_not_system].
  - destruct Hbudget as [Hnil|[_ Ht]].
    + left. rewrite Hnil in Hsub. by apply sublist_nil_r.
    + right. simpl in Ht. lia.
Qed.

(** X17 (the filter after truncation): when the filter reads from every
    assistant message of the history the ids [truncate_messages] reads, or
    none, the filter of [researcher] is redundant: the model receives the
    result of [truncate_messages] as it is. *)
Theorem researcher_messages_uniform (state_messages : list BaseMessage)
    (prompt : string) :
  Forall (λ msg, uniform_calls msg = true) state_messages →
  researcher_messages state_messages prompt
  = Some (truncate_messages state_messages (Some (ContentStr prompt))
            10 100000).
Proof.
  intros Huniform. unfold researcher_messages.
  rewrite safe_loop_atomic_whole; [done | apply truncate_messages_atomic |].
  by apply truncate_messages_uniform.
Qed.

(** X17, instance: a history with one answered tool call given as a mapping. *)
Lemma researcher_messages_uniform_witness :
  let history := [HumanMessage (ContentStr "q1");
                  AIMessage (ContentStr "") [ToolCallDict (Some "t1")];
                  ToolMessage (ContentStr "r1") "t1";
                  AIMessage (ContentStr "a1") []] in
  Forall (λ msg, uniform_calls msg = true) history
  ∧ researcher_messages history "You are."
    = Some (truncate_messages history (Some (ContentStr "You are."))
              10 100000).
Proof.
  intros history.
  assert (Huniform : Forall (λ msg, uniform_calls msg = true) history)
    by (repeat constructor).
  split; [done|].
  exact (researcher_messages_uniform history "You are." Huniform).
Defined.

(** ** The tool bodies *)

Section tool_bodies_properties.
Context (json_loads : string → option PyValue) (render : PyValue → string).
Context (code_points : string → list string).
Context (iter_other : nat → option (list PyValue)).

Lemma processed_entries_fmap (acc results : list PyValue) :
  foldl (λ acc result, acc ++ [processed_entry render result]) acc results
  = acc ++ (processed_entry render <$> results).
Proof.
  revert acc. induction results as [|result results IH]; intros acc; simpl.
  - by rewrite app_nil_r.
  - by rewrite IH, <- app_assoc.
Qed.

Lemma processed_entry_shape result :
  is_result_entry (processed_entry render result).
Proof. destruct result; simpl; by eexists _, _, _. Qed.

(** The structured part fails exactly on a dictionary whose [results] cannot
    be iterated over, and otherwise returns the schema. *)
Lemma search_web_structured_cases query v :
  (search_web_structured render code_points iter_other query v = None
   ∧ ∃ dict results,
       v = PyDict dict
       ∧ dict_get dict "results" = Some results
       ∧ py_iter code_points iter_other results = None)
  ∨ (∃ entries,
       search_web_structured render code_points iter_other query v
       = Some (processed_results query entries)
       ∧ Forall is_result_entry entries
       ∧ ∀ dict results,
           v = PyDict dict → dict_get dict "results" = Some results →
           py_iter code_points iter_other results ≠ None).
Proof.
  unfold search_web_structured.
  destruct v as [|s|items|dict|tag];
    try (right; exists []; by split_and!).
  - right. simpl. rewrite processed_entries_fmap. eexists.
    split_and!; [done| |done].
    apply Forall_fmap, Forall_forall. intros result _.
    apply processed_entry_shape.
  - destruct (dict_get dict "results") as [results|] eqn:Hresults.
    2:{ right. exists []. split_and!; [done | constructor |].
        intros d r Heq. simplify_eq. by rewrite Hresults. }
    destruct (py_iter code_points iter_other results) as [iterated|] eqn:Hiter.
    + right. rewrite processed_entries_fmap. eexists. split_and!; [done| |].
      * apply Forall_fmap, Forall_forall. intros result _.
        apply processed_entry_shape.
      * intros d r Heq Hget. simplify_eq. by rewrite Hiter.
    + left. split; [done|]. by exists dict, results.
Qed.

(** The case analysis of [search_web], on the value it goes on with. *)
Lemma search_web_cases query raw :
  (∃ s, raw = PyStr s ∧ json_loads s = None
     ∧ search_web json_loads render code_points iter_other query raw
       = Some (processed_results query [result_entry PyNone PyNone raw]))
  ∨ ∃ v, parsed_value json_loads raw v
      ∧ search_web json_loads render code_points iter_other query raw
        = search_web_structured render code_points iter_other query v.
Proof.
  destruct raw as [|s|items|dict|tag];
    try (right; eexists; split; [by left|done]).
  destruct (json_loads s) as [v|] eqn:Hparsed.
  - right. exists v. split; [right; by exists s|].
    simpl. by rewrite Hparsed.
  - left. exists s. simpl. by rewrite Hparsed.
Qed.

Lemma parsed_value_unique raw v1 v2 :
  parsed_value json_loads raw v1 → parsed_value json_loads raw v2 → v1 = v2.
Proof.
  intros [[<- Hns1]|(s1 & -> & Hs1)] [[<- Hns2]|(s2 & Heq & Hs2)];
    simplify_eq; try done.
  - by destruct (Hns1 s2).
  - by destruct (Hns2 s1).
Qed.

Lemma parsed_value_not_json raw v s :
  parsed_value json_loads raw v → raw = PyStr s → json_loads s = None → False.
Proof.
  intros [[<- Hns]|(s' & -> & Hs')] Heq Hnone; simplify_eq.
  by destruct (Hns s).
Qed.

Lemma extract_cases urls raw :
  (∃ s, raw = PyStr s ∧ json_loads s = None
     ∧ extract_content_from_webpage json_loads urls raw
       = PyList [PyDict [(PyStr "url_list", PyList (PyStr <$> urls));
                         (PyStr "content", raw)]])
  ∨ ∃ v, parsed_value json_loads raw v
      ∧ extract_content_from_webpage json_loads urls raw
        = extract_structured v.
Proof.
  destruct raw as [|s|items|dict|tag];
    try (right; eexists; split; [by left|done]).
  destruct (json_loads s) as [v|] eqn:Hparsed.
  - right. exists v. split; [right; by exists s|].
    simpl. by rewrite Hparsed.
  - left. exists s. simpl. by rewrite Hparsed.
Qed.
End tool_bodies_properties.

(** X18 (the schema of [search_web]): the only failure is the [TypeError] of
    the loop over the results, and it is raised exactly when the value the
    function goes on with ([raw], or what [raw] parses to when it is a JSON
    string) is a dictionary whose [results] value is not iterable. Whenever
    the function returns, it returns a dictionary with the two keys [query],
    holding the query, and [results], holding a list of dictionaries that each
    have exactly the keys [title], [url] and [content_preview]. *)
Theorem search_web_schema (json_loads : string → option PyValue)
    (render : PyValue → string) (code_points : string → list string)
    (iter_other : nat → option (list PyValue))
    (query : string) (raw : PyValue) :
  (search_web json_loads render code_points iter_other query raw = None
   ↔ ∃ dict results,
       parsed_value json_loads raw (PyDict dict)
       ∧ dict_get dict "results" = Some results
       ∧ py_iter code_points iter_other results = None)
  ∧ (∀ out,
       search_web json_loads render code_points iter_other query raw
       = Some out →
       ∃ entries,
         out = processed_results query entries
         ∧ Forall is_result_entry entries).
Proof.
  destruct (search_web_cases json_loads render code_points iter_other
              query raw) as [(s & -> & Hnone & Hrun)|(v & Hv & Hrun)].
  - rewrite Hrun. split.
    + split; [done|]. intros (dict & results & Hparsed & _).
      by destruct (parsed_value_not_json json_loads _ _ s Hparsed).
    + intros out Hout. simplify_eq. eexists. split; [done|].
      constructor; [|constructor]. by eexists _, _, _.
  - rewrite Hrun.
    destruct (search_web_structured_cases render code_points iter_other
                query v)
      as [(Hfail & dict & results & -> & Hget & Hiter)
         |(entries & Hok & Hshape & Hiterable)].
    + rewrite Hfail. split; [|done]. split; [|done].
      intros _. by exists dict, results.
    + rewrite Hok. split.
      * split; [done|]. intros (dict & results & Hparsed & Hget & Hiter).
        pose proof (parsed_value_unique json_loads _ _ _ Hv Hparsed) as ->.
        by destruct (Hiterable dict results).
      * intros out Hout. simplify_eq. by exists entries.
Qed.

(** X19 (what [extract_content_from_webpage] returns): the function always
    returns a list, and it is: for a string that is not JSON, the one-element
    list holding the dictionary of the urls and the string; otherwise, for the
    value the function goes on with ([raw], or what [raw] parses to when it is
    a JSON string): that value itself when it is a list; the list under
    [results] when it is a dictionary holding a list there; the one-element
    list holding the [results] value when that value is not a list; and the
    one-element list holding the value in every other case. *)
Theorem extract_content_result (json_loads : string → option PyValue)
    (urls : list string) (raw : PyValue) :
  ∃ items,
    extract_content_from_webpage json_loads urls raw = PyList items
    ∧ ((∃ s, raw = PyStr s ∧ json_loads s = None
          ∧ items = [PyDict [(PyStr "url_list", PyList (PyStr <$> urls));
                             (PyStr "content", raw)]])
       ∨ ∃ v, parsed_value json_loads raw v
           ∧ (v = PyList items
              ∨ (∃ dict, v = PyDict dict
                   ∧ dict_get dict "results" = Some (PyList items))
              ∨ (∃ dict results, v = PyDict dict
                   ∧ dict_get dict "results" = Some results
                   ∧ (∀ l, results ≠ PyList l)
                   ∧ items = [results])
              ∨ ((∀ l, v ≠ PyList l)
                 ∧ (∀ dict, v = PyDict dict →
                      dict_get dict "results" = None)
                 ∧ items = [v]))).
Proof.
  destruct (extract_cases json_loads urls raw)
    as [(s & -> & Hnone & ->)|(v & Hv & ->)].
  - eexists. split; [done|]. left. by exists s.
  - destruct v as [|s|items|dict|tag].
    1,2,5: eexists; split; [done|]; right; eexists; split; [done|];
      do 3 right; by split_and!.
    + exists items. split; [done|]. right. eexists. split; [done|]. by left.
    + simpl. destruct (dict_get dict "results") as [results|] eqn:Hresults.
      * destruct results as [|s|items|d|tag].
        3:{ exists items. split; [done|]. right. eexists. split; [done|].
            right; left. by exists dict. }
        all: eexists; split; [done|]; right; eexists; split; [done|];
          do 2 right; left; eexists dict, _; by split_and!.
      * eexists. split; [done|]. right. eexists. split; [done|].
        do 3 right. split_and!; [done | | done].
        intros d Heq. by simplify_eq.
Qed.
